(** * IWS Roll Call: roster synchronisation and scan-attendance engine

    A shallow embedding of the attendance logic of [src/App.js]:
    the retrying write wrapper ([retryOperation]), the CSV roster parser
    ([parseRosterData]), the bulk roster replacement ([executeRosterUpload]),
    the QR decode callback with its debounce ([onScanSuccess]), the scanner
    teardown ([stopScanner]), the roster subscription handlers and the two
    attendance toggles ([handleScanSuccess], [handleManualStatusToggle]).

    Conventions.
    - JS numbers that hold counts, delays and epoch milliseconds are [Z].
    - JS strings are [string]: the UTF-8 bytes of the text.
    - [null]/[undefined] are [None].
    - The Firestore backend is an explicit store: a finite map of documents,
      a server clock, a script of faults and the list of calls issued.
    - An awaited promise is its settled value ([Fulfilled] or [Rejected]).
    - A callback is a closure over the state of the render that created it:
      what it reads is that render's value, what it writes through a setter
      acts on the state at the time of the call. *)

From Stdlib Require Import ZArith Lia Bool Ascii String List.
From stdpp Require Import base option list gmap strings.

Local Open Scope string_scope.
Local Open Scope list_scope.
Local Open Scope Z_scope.

(** ** JavaScript string primitives used by the parser *)

Module Js.

(** A JS string is modelled by its UTF-8 bytes; a byte string that is not
    valid UTF-8 models no JS string. *)
Definition code (c : ascii) : nat := nat_of_ascii c.

(** The white space of [String.prototype.trim] and of the regex class [\s]
    is the same set of code points.  Inside ASCII: TAB, LF, VT, FF, CR and
    SPACE. *)
Definition isAsciiSpace (c : ascii) : bool :=
  let n := code c in
  Nat.eqb n 32 || (Nat.leb 9 n && Nat.leb n 13).

(** Outside ASCII, in two bytes: U+00A0 (C2 A0). *)
Definition isSpace2 (c d : ascii) : bool :=
  Nat.eqb (code c) 194 && Nat.eqb (code d) 160.

(** Outside ASCII, in three bytes: U+1680 (E1 9A 80), U+2000 to U+200A
    (E2 80 80 to E2 80 8A), U+2028 and U+2029 (E2 80 A8, E2 80 A9), U+202F
    (E2 80 AF), U+205F (E2 81 9F), U+3000 (E3 80 80) and U+FEFF
    (EF BB BF). *)
Definition isSpace3 (c d e : ascii) : bool :=
  let x := code c in
  let y := code d in
  let z := code e in
  (Nat.eqb x 225 && Nat.eqb y 154 && Nat.eqb z 128)
  || (Nat.eqb x 226 && Nat.eqb y 128
      && ((Nat.leb 128 z && Nat.leb z 138)
          || Nat.eqb z 168 || Nat.eqb z 169 || Nat.eqb z 175))
  || (Nat.eqb x 226 && Nat.eqb y 129 && Nat.eqb z 159)
  || (Nat.eqb x 227 && Nat.eqb y 128 && Nat.eqb z 128)
  || (Nat.eqb x 239 && Nat.eqb y 187 && Nat.eqb z 191).

(** The regex class [\d]. *)
Definition isDigit (c : ascii) : bool :=
  let n := nat_of_ascii c in
  Nat.leb 48 n && Nat.leb n 57.

Fixpoint rev_onto (s acc : string) : string :=
  match s with
  | EmptyString => acc
  | String c r => rev_onto r (String c acc)
  end.

Definition rev (s : string) : string := rev_onto s EmptyString.

Section Strip.

(** Recognisers of a code point written in one, two and three bytes. *)
Variable one : ascii -> bool.
Variable two : ascii -> ascii -> bool.
Variable three : ascii -> ascii -> ascii -> bool.

(** Removes one recognised code point from the front, if there is one. *)
Definition dropLeading (s : string) : option string :=
  match s with
  | EmptyString => None
  | String c r =>
      if one c then Some r
      else match r with
           | EmptyString => None
           | String d r2 =>
               if two c d then Some r2
               else match r2 with
                    | EmptyString => None
                    | String e r3 => if three c d e then Some r3 else None
                    end
           end
  end.

(** Removes recognised code points from the front as long as there are
    some. *)
Fixpoint stripLeading (s : string) : string :=
  match s with
  | EmptyString => EmptyString
  | String c r =>
      if one c then stripLeading r
      else match r with
           | EmptyString => s
           | String d r2 =>
               if two c d then stripLeading r2
               else match r2 with
                    | EmptyString => s
                    | String e r3 => if three c d e then stripLeading r3 else s
                    end
           end
  end.

End Strip.

(** One white space code point at the front of the string. *)
Definition dropSpace : string -> option string :=
  dropLeading isAsciiSpace isSpace2 isSpace3.

(** One white space code point at the end of the string, read on the
    reversed string: the bytes of the code point come last byte first. *)
Definition dropSpaceEnd : string -> option string :=
  dropLeading isAsciiSpace (fun z y => isSpace2 y z) (fun z y x => isSpace3 x y z).

Definition trimStart (s : string) : string :=
  stripLeading isAsciiSpace isSpace2 isSpace3 s.

Definition trimEnd (s : string) : string :=
  rev (stripLeading isAsciiSpace (fun z y => isSpace2 y z)
                    (fun z y x => isSpace3 x y z) (rev s)).

(** [s.trim()] *)
Definition trim (s : string) : string := trimEnd (trimStart s).

(** [s.split(sep)] for a one-character separator: never the empty list,
    the empty string splits to one empty field. *)
Fixpoint split (sep : ascii) (s : string) : list string :=
  match s with
  | EmptyString => [EmptyString]
  | String c r =>
      if Ascii.eqb c sep then EmptyString :: split sep r
      else match split sep r with
           | h :: t => String c h :: t
           | [] => [String c EmptyString]
           end
  end.

(** Truthiness of a string: the empty string is falsy. *)
Definition truthy (s : string) : bool :=
  match s with EmptyString => false | String _ _ => true end.

Fixpoint dropDigits (s : string) : string :=
  match s with
  | EmptyString => EmptyString
  | String c r => if isDigit c then dropDigits r else s
  end.

Definition dropOne (p : ascii -> bool) (s : string) : string :=
  match s with
  | EmptyString => EmptyString
  | String c r => if p c then r else s
  end.

(** The optional [\s] of a pattern: at most one white space code point. *)
Definition dropOneSpace (s : string) : string :=
  match dropSpace s with
  | Some r => r
  | None => s
  end.

(** [name.replace(/^(\d+\.?\s?)/, '')]: the pattern is anchored, the digit
    run is greedy and is followed by at most one dot and at most one white
    space; both are optional, so no backtracking takes place.  Without a
    leading digit nothing matches and the string is returned as it is. *)
Definition stripLeadingNumber (s : string) : string :=
  match s with
  | EmptyString => EmptyString
  | String c _ =>
      if isDigit c
      then dropOneSpace (dropOne (Ascii.eqb "."%char) (dropDigits s))
      else s
  end.

Definition LF : ascii := ascii_of_nat 10.

End Js.

(** ** Roster import: [parseRosterData] *)

Record Entry := mkEntry { entry_id : string; entry_name : string }.

Record Parsed := mkParsed { rosterData : list Entry; errorCount : Z }.

(** The [while (parts.length > 2 && parts[parts.length - 1] === '') parts.pop()]
    loop, run on the reversed array so that [pop] is structural. *)
Fixpoint popTrailingEmpty (rparts : list string) : list string :=
  match rparts with
  | EmptyString :: rest =>
      if (2 <? Z.of_nat (length rparts))%Z then popTrailingEmpty rest else rparts
  | _ => rparts
  end.

Definition cleanParts (line : string) : list string :=
  let parts := Js.split ","%char line in
  let parts := map Js.trim parts in
  List.rev (popTrailingEmpty (List.rev parts)).

(** [name.replace(/^(\d+\.?\s?)/, '').trim()] *)
Definition cleanName (name : string) : string :=
  Js.trim (Js.stripLeadingNumber name).

(** One iteration of the [for (const line of lines)] loop. *)
Definition parseLine (acc : Parsed) (line : string) : Parsed :=
  let parts := cleanParts line in
  match parts with
  | p0 :: p1 :: _ =>
      if Js.truthy p0 && Js.truthy p1 then
        let id := p0 in
        let name := cleanName p1 in
        mkParsed (rosterData acc ++ [mkEntry id name]) (errorCount acc)
      else if negb (String.eqb (Js.trim line) "") then
        mkParsed (rosterData acc) (errorCount acc + 1)%Z
      else acc
  | _ =>
      if negb (String.eqb (Js.trim line) "") then
        mkParsed (rosterData acc) (errorCount acc + 1)%Z
      else acc
  end.

Definition parseRosterData (text : string) : Parsed :=
  let lines := Js.split Js.LF (Js.trim text) in
  fold_left parseLine lines (mkParsed [] 0).

(** ** Settled promises and [retryOperation] *)

(** A thrown value; only its [code] property is inspected by the program. *)
Record JsError := mkError { code : option string }.

Inductive Settled (A : Type) : Type :=
| Fulfilled (v : A)
| Rejected (e : JsError).
Arguments Fulfilled {A} v.
Arguments Rejected {A} e.

(** [error.code === 'permission-denied' || error.code === 'unavailable'] *)
Definition isTransient (e : JsError) : bool :=
  match code e with
  | Some c => String.eqb c "permission-denied" || String.eqb c "unavailable"
  | None => false
  end.

(** What [retryOperation] does besides calling the operation: the
    [console.warn] before a wait (attempt number [i + 1] and the backoff),
    the wait itself ([setTimeout] delay in ms) and the final
    [console.error]. *)
Inductive RetryEvent :=
| Warned (attempt backoff : Z)
| Slept (ms : Z)
| GaveUp (attempts : Z).

Definition sleepOf (e : RetryEvent) : option Z :=
  match e with Slept ms => Some ms | _ => None end.

(** The waits of a run, in order. *)
Definition sleeps (log : list RetryEvent) : list Z := omap sleepOf log.

Section Retry.
Context {W A : Type}.
(** The operation is an effectful thunk: it transforms the world and
    settles. *)
Variable operation : W -> Settled A * W.
Variables maxRetries delay : Z.

(** The body of [for (let i = 0; i < maxRetries; i++)] from index [i].
    Falling out of the loop resolves to [undefined] ([Fulfilled None]). *)
Fixpoint retryLoop (fuel : nat) (i : Z) (w : W) (log : list RetryEvent)
  : Settled (option A) * list RetryEvent * W :=
  match fuel with
  | O => (Fulfilled None, log, w)
  | S fuel' =>
      if (i <? maxRetries)%Z then
        match operation w with
        | (Fulfilled v, w') => (Fulfilled (Some v), log, w')
        | (Rejected error, w') =>
            if isTransient error || (i =? maxRetries - 1)%Z then
              if (i =? maxRetries - 1)%Z then
                (Rejected error, log ++ [GaveUp maxRetries], w')
              else
                let backoff := (delay * 2 ^ i)%Z in
                retryLoop fuel' (i + 1)%Z w'
                  (log ++ [Warned (i + 1) backoff; Slept backoff])
            else (Rejected error, log, w')
        end
      else (Fulfilled None, log, w)
  end.

(** The loop body runs at most [maxRetries] times, so this fuel is exact. *)
Definition retryOperation (w : W) : Settled (option A) * list RetryEvent * W :=
  retryLoop (Z.to_nat maxRetries) 0 w [].
End Retry.

(** ** The remote document store *)

(** The data of a roster document.  [lastScan] and [createdAt] are [None]
    for [null] (or a missing field), otherwise a server time in ms. *)
Record DocData := mkDoc {
  d_id : option string;
  d_name : option string;
  d_status : string;
  d_lastScan : option Z;
  d_createdAt : option Z
}.

(** A timestamp as the client writes it: [null] or the [serverTimestamp()]
    sentinel, which the server replaces by its clock when it commits. *)
Inductive FieldTime := Null | ServerTimestamp.

(** The object literal passed to [setDoc]; [None] is a property that the
    literal does not have. *)
Record Fields := mkFields {
  w_id : option string;
  w_name : option string;
  w_status : option string;
  w_lastScan : option FieldTime;
  w_createdAt : option FieldTime
}.

Definition resolveTime (now : Z) (t : FieldTime) : option Z :=
  match t with Null => None | ServerTimestamp => Some now end.

(** The document after [setDoc(ref, fields, {merge})] commits at server time
    [now]: without merge the document is replaced, with merge the listed
    properties are overwritten and the others kept. *)
Definition writeDoc (merge : bool) (old : option DocData) (f : Fields) (now : Z)
  : DocData :=
  let base := if merge then old else None in
  {| d_id := match w_id f with Some v => Some v | None => base ≫= d_id end;
     d_name := match w_name f with Some v => Some v | None => base ≫= d_name end;
     d_status := match w_status f with
                 | Some v => v
                 | None => from_option d_status "" base
                 end;
     d_lastScan := match w_lastScan f with
                   | Some t => resolveTime now t
                   | None => base ≫= d_lastScan
                   end;
     d_createdAt := match w_createdAt f with
                    | Some t => resolveTime now t
                    | None => base ≫= d_createdAt
                    end |}.

(** The collection and the server clock.  The clock is logical: it advances
    with every request the server handles, so that two commits never carry
    the same [serverTimestamp()]. *)
Record Remote := mkRemote {
  docs : gmap string DocData;
  clock : Z
}.

Inductive Call :=
| CGetDocs
| CDeleteDoc (id : string)
| CSetDoc (id : string) (fields : Fields) (merge : bool).

(** The world outside the client: the store, the outcome of the next
    requests ([None]: served, [Some c]: rejected with code [c]; an exhausted
    script serves everything), the requests issued so far and the retry
    bookkeeping. *)
Record World := mkWorld {
  remote : Remote;
  faults : list (option string);
  issued : list Call;
  retryLog : list RetryEvent
}.

Definition tick (r : Remote) : Remote := mkRemote (docs r) (clock r + 1).

(** Issue one request: it is recorded, consumes the next scripted outcome
    and, when served, commits [effect] at the current server time. *)
Definition request {A : Type} (c : Call) (effect : Remote -> A * gmap string DocData)
    (w : World) : Settled A * World :=
  let r := remote w in
  let trace := issued w ++ [c] in
  match faults w with
  | Some errc :: rest =>
      (Rejected (mkError (Some errc)),
       mkWorld (tick r) rest trace (retryLog w))
  | None :: rest =>
      let '(v, m) := effect r in
      (Fulfilled v, mkWorld (mkRemote m (clock r + 1)) rest trace (retryLog w))
  | [] =>
      let '(v, m) := effect r in
      (Fulfilled v, mkWorld (mkRemote m (clock r + 1)) [] trace (retryLog w))
  end.

(** [getDocs(query(rosterRef))]: the documents with their keys. *)
Definition getDocs : World -> Settled (list (string * DocData)) * World :=
  request CGetDocs (fun r => (map_to_list (docs r), docs r)).

(** [deleteDoc(doc(db, ROSTER_COLLECTION_PATH, id))] *)
Definition deleteDoc (id : string) : World -> Settled unit * World :=
  request (CDeleteDoc id) (fun r => (tt, delete id (docs r))).

(** [setDoc(doc(db, ROSTER_COLLECTION_PATH, id), fields, {merge})] *)
Definition setDoc (id : string) (f : Fields) (merge : bool)
  : World -> Settled unit * World :=
  request (CSetDoc id f merge)
    (fun r => (tt, <[id := writeDoc merge (docs r !! id) f (clock r)]> (docs r))).

(** [await retryOperation(op, maxRetries, delay)] in a world: the retry
    bookkeeping is appended to the world's log. *)
Definition awaitRetry {A : Type} (op : World -> Settled A * World)
    (maxRetries delay : Z) (w : World) : Settled (option A) * World :=
  let '(r, log, w') := retryOperation op maxRetries delay w in
  (r, mkWorld (remote w') (faults w') (issued w') (retryLog w' ++ log)).

(** ** Bulk replacement: [executeRosterUpload] *)

(** [Promise.all] over promises that have settled: the values in order, or
    the first rejection. *)
Fixpoint promiseAll {A : Type} (ps : list (Settled A)) : Settled (list A) :=
  match ps with
  | [] => Fulfilled []
  | Fulfilled v :: rest =>
      match promiseAll rest with
      | Fulfilled vs => Fulfilled (v :: vs)
      | Rejected e => Rejected e
      end
  | Rejected e :: _ => Rejected e
  end.

(** [xs.map(x => call(x))] where each call starts a request at once and
    yields its promise.  The requests of one batch are in flight together;
    the server handles them in the order they were issued. *)
Fixpoint issueAll {A : Type} (calls : list (World -> Settled A * World)) (w : World)
  : list (Settled A) * World :=
  match calls with
  | [] => ([], w)
  | c :: rest =>
      let '(p, w1) := c w in
      let '(ps, w2) := issueAll rest w1 in
      (p :: ps, w2)
  end.

(** The texts given to [setUploadMessage]. *)
Inductive UploadMessage :=
| MsgEmpty                              (* '' *)
| MsgNoValidEntries                     (* 'Error: No valid entries found. ...' *)
| MsgProcessing                         (* 'Processing...' *)
| MsgUploaded (members skipped : Z)     (* 'Successfully uploaded n members. k invalid lines skipped.' *)
| MsgCritical.                          (* 'Critical Error during upload. ...' *)

(** The state of the [RosterDisplay] component that the upload touches;
    [clearTimers] holds the delays of the pending
    [setTimeout(() => setUploadMessage(''), ms)]. *)
Record UploadUi := mkUploadUi {
  uploadMessage : UploadMessage;
  newRosterText : string;
  clearTimers : list Z
}.

(** The object written for a new roster member. *)
Definition newMemberFields (person : Entry) : Fields :=
  {| w_id := Some (entry_id person);
     w_name := Some (entry_name person);
     w_status := Some "absent";
     w_lastScan := Some Null;
     w_createdAt := Some ServerTimestamp |}.

Definition uploadFailed (ui : UploadUi) : UploadUi :=
  mkUploadUi MsgCritical (newRosterText ui) (clearTimers ui ++ [5000]).

(** [db] tells whether the Firestore handle is non-null and [confirmed] is
    the answer of [window.confirm].  The reset of the file input element
    after a successful upload touches no state kept here. *)
Definition executeRosterUpload (db : bool) (confirmed : bool)
    (dataToUpload : list Entry) (errorCount : Z) (ui : UploadUi) (w : World)
  : UploadUi * World :=
  if negb db then (ui, w)
  else if (Z.of_nat (length dataToUpload) =? 0)%Z then
    (mkUploadUi MsgNoValidEntries (newRosterText ui) (clearTimers ui ++ [5000]), w)
  else if negb confirmed then (ui, w)
  else
    let ui := mkUploadUi MsgProcessing (newRosterText ui) (clearTimers ui) in
    (* 1. Delete existing roster *)
    match getDocs w with
    | (Rejected _, w1) => (uploadFailed ui, w1)
    | (Fulfilled existingSnapshot, w1) =>
        let '(batchDelete, w2) :=
          issueAll (map (fun d => deleteDoc (fst d)) existingSnapshot) w1 in
        match awaitRetry (fun w => (promiseAll batchDelete, w)) 3 500 w2 with
        | (Rejected _, w3) => (uploadFailed ui, w3)
        | (Fulfilled _, w3) =>
            (* 2. Upload new roster *)
            let '(batchUpload, w4) :=
              issueAll (map (fun person =>
                               setDoc (entry_id person) (newMemberFields person) false)
                            dataToUpload) w3 in
            match awaitRetry (fun w => (promiseAll batchUpload, w)) 3 500 w4 with
            | (Rejected _, w5) => (uploadFailed ui, w5)
            | (Fulfilled _, w5) =>
                (mkUploadUi
                   (MsgUploaded (Z.of_nat (length dataToUpload)) errorCount)
                   "" (clearTimers ui ++ [5000]),
                 w5)
            end
        end
    end.

(** ** The roster mirror and the attendance toggles *)

(** An element of the [roster] state: [{...doc.data(), id: doc.id}]. *)
Record Attendee := mkAttendee {
  p_id : string;
  p_name : option string;
  p_status : string;
  p_lastScan : option Z;
  p_createdAt : option Z
}.

Definition toAttendee (d : string * DocData) : Attendee :=
  mkAttendee (fst d) (d_name (snd d)) (d_status (snd d))
             (d_lastScan (snd d)) (d_createdAt (snd d)).

Inductive MessageType := TypeInfo | TypeSuccess | TypeError | TypeWarning.

(** The texts given to [setScanMessage]. *)
Inductive ScanText :=
| TextEmpty
| TextDatabaseNotReady
| TextNotFound (scannedId : string)
| TextMarked (name : option string) (messageAction : string)
| TextFailed (name : option string)
| TextManual (name : option string) (messageAction : string)
| TextManualFailed (name : option string).

Inductive ConsoleLine :=
| LogRosterUpdated (records : Z)
| ErrorListener (e : JsError)
| WarnTransientPermission
| WarnNotInRoster (scannedId : string)
| LogMarked (name : option string) (messageAction : string)
| ErrorUpdating.

(** The state of the [App] component. *)
Record AppState := mkApp {
  db : bool;
  roster : list Attendee;
  scanMessage : ScanText * MessageType;
  console : list ConsoleLine;
  messageTimers : list Z
}.

(** The [next] callback of [onSnapshot]: full replacement of the roster. *)
Definition onSnapshotNext (snapshot : list (string * DocData)) (app : AppState)
  : AppState :=
  let updatedRoster := map toAttendee snapshot in
  mkApp (db app) updatedRoster (scanMessage app)
        (console app ++ [LogRosterUpdated (Z.of_nat (length updatedRoster))])
        (messageTimers app).

(** The [error] callback of [onSnapshot]. *)
Definition onSnapshotError (error : JsError) (app : AppState) : AppState :=
  let line :=
    if negb (match code error with
             | Some c => String.eqb c "permission-denied"
             | None => false
             end)
    then ErrorListener error
    else WarnTransientPermission in
  mkApp (db app) (roster app) (scanMessage app) (console app ++ [line])
        (messageTimers app).

Inductive FeedEvent :=
| FeedNext (snapshot : list (string * DocData))
| FeedError (error : JsError).

Definition onFeed (ev : FeedEvent) (app : AppState) : AppState :=
  match ev with
  | FeedNext snapshot => onSnapshotNext snapshot app
  | FeedError error => onSnapshotError error app
  end.

Definition runFeed (evs : list FeedEvent) (app : AppState) : AppState :=
  fold_left (fun a ev => onFeed ev a) evs app.

(** The listener delivering what the store holds now. *)
Definition deliver (w : World) (app : AppState) : AppState :=
  onSnapshotNext (map_to_list (docs (remote w))) app.

(** [person.status === 'present' ? 'absent' : 'present'] *)
Definition flipStatus (status : string) : string :=
  if String.eqb status "present" then "absent" else "present".

Definition actionOf (newStatus : string) : string :=
  if String.eqb newStatus "present" then "PRESENT" else "ABSENT".

Definition toggleFields (newStatus : string) : Fields :=
  {| w_id := None; w_name := None;
     w_status := Some newStatus;
     w_lastScan := Some ServerTimestamp;
     w_createdAt := None |}.

Definition setScanMessage (m : ScanText * MessageType) (line : list ConsoleLine)
    (timer : list Z) (app : AppState) : AppState :=
  mkApp (db app) (roster app) m (console app ++ line) (messageTimers app ++ timer).

Definition handleScanSuccess (scannedId : string) (app : AppState) (w : World)
  : AppState * World :=
  if negb (db app) then
    (setScanMessage (TextDatabaseNotReady, TypeError) [] [] app, w)
  else
    match find (fun p => String.eqb (p_id p) scannedId) (roster app) with
    | None =>
        (setScanMessage (TextNotFound scannedId, TypeError)
                        [WarnNotInRoster scannedId] [] app, w)
    | Some person =>
        let newStatus := flipStatus (p_status person) in
        let messageAction := actionOf newStatus in
        match awaitRetry (setDoc scannedId (toggleFields newStatus) true) 3 500 w with
        | (Fulfilled _, w') =>
            (setScanMessage (TextMarked (p_name person) messageAction, TypeSuccess)
                            [LogMarked (p_name person) messageAction] [5000] app, w')
        | (Rejected _, w') =>
            (setScanMessage (TextFailed (p_name person), TypeError)
                            [ErrorUpdating] [5000] app, w')
        end
    end.

Definition handleManualStatusToggle (person : Attendee) (app : AppState) (w : World)
  : AppState * World :=
  if negb (db app) then (app, w)
  else
    let newStatus := flipStatus (p_status person) in
    let messageAction := actionOf newStatus in
    match awaitRetry (setDoc (p_id person) (toggleFields newStatus) true) 3 500 w with
    | (Fulfilled _, w') =>
        (setScanMessage (TextManual (p_name person) messageAction, TypeWarning)
                        [LogMarked (p_name person) messageAction] [5000] app, w')
    | (Rejected _, w') =>
        (setScanMessage (TextManualFailed (p_name person), TypeError)
                        [ErrorUpdating] [5000] app, w')
    end.

(** The two entry points of an attendance toggle. *)
Inductive EntryPoint := ViaScan | ViaManual.

(** Toggle the attendee [id] through an entry point: a decoded payload is
    handed to [handleScanSuccess]; a tap is made on the row that the roster
    snapshot shows for [id], whose element is handed to
    [handleManualStatusToggle]. *)
Definition toggle (how : EntryPoint) (id : string) (app : AppState) (w : World)
  : AppState * World :=
  match how with
  | ViaScan => handleScanSuccess id app w
  | ViaManual =>
      match find (fun p => String.eqb (p_id p) id) (roster app) with
      | Some person => handleManualStatusToggle person app w
      | None => (app, w)
      end
  end.

(** Timestamps held by the store were issued by the server clock earlier. *)
Definition storeOk (r : Remote) : Prop :=
  forall id d t, docs r !! id = Some d -> d_lastScan d = Some t -> (t < clock r)%Z.

(** [null] precedes every timestamp. *)
Definition timeBefore (old : option Z) (t : Z) : Prop :=
  match old with
  | Some o => (o < t)%Z
  | None => True
  end.

(** The next request is served. *)
Definition noFault (w : World) : Prop :=
  match faults w with
  | Some _ :: _ => False
  | _ => True
  end.

(** The world after a served [setDoc]. *)
Definition afterWrite (id : string) (f : Fields) (merge : bool) (w : World) : World :=
  mkWorld
    (mkRemote (<[id := writeDoc merge (docs (remote w) !! id) f (clock (remote w))]>
                 (docs (remote w)))
              (clock (remote w) + 1))
    (tail (faults w)) (issued w ++ [CSetDoc id f merge]) (retryLog w).

(** What a served request does to the store. *)
Definition commit (c : Call) (r : Remote) : Remote :=
  match c with
  | CGetDocs => mkRemote (docs r) (clock r + 1)
  | CDeleteDoc id => mkRemote (delete id (docs r)) (clock r + 1)
  | CSetDoc id f merge =>
      mkRemote (<[id := writeDoc merge (docs r !! id) f (clock r)]> (docs r))
               (clock r + 1)
  end.

(** The world after a served request. *)
Definition servedCall (w : World) (c : Call) : World :=
  mkWorld (commit c (remote w)) (tail (faults w)) (issued w ++ [c]) (retryLog w).

(** The write requests as the client issues them. *)
Definition perform (c : Call) : World -> Settled unit * World :=
  match c with
  | CGetDocs => request CGetDocs (fun r => (tt, docs r))
  | CDeleteDoc id => deleteDoc id
  | CSetDoc id f merge => setDoc id f merge
  end.

Definition deleteCalls (existingSnapshot : list (string * DocData)) : list Call :=
  map (fun d => CDeleteDoc (fst d)) existingSnapshot.

Definition createCalls (dataToUpload : list Entry) : list Call :=
  map (fun person => CSetDoc (entry_id person) (newMemberFields person) false)
      dataToUpload.

(** ** The scan session: [onScanSuccess] and [stopScanner] *)

Record ScannerState := mkScanner {
  isInitializing : bool;
  isRunning : bool;
  isPaused : bool;
  hasPermission : option bool;
  error : option string;
  lastScanTime : option Z;
  scanCount : Z;
  flashOn : bool
}.

(** The initial value given to [useState]. *)
Definition initialScannerState : ScannerState :=
  mkScanner true false false None None None 0 false.

(** The library object behind [html5QrCodeRef.current]; its [isScanning]
    property tells whether its decode loop runs. *)
Record Html5Qrcode := mkQr { isScanning : bool }.

Record Session := mkSession {
  scannerState : ScannerState;
  html5QrCodeRef : option Html5Qrcode
}.

(** Truthiness of [scannerState.lastScanTime]: [null] and [0] are falsy. *)
Definition truthyTime (t : option Z) : bool :=
  match t with
  | Some v => negb (v =? 0)%Z
  | None => false
  end.

(** The decode callback at [Date.now() = now].  The callback is a closure:
    the [scannerState] whose [lastScanTime] it tests is the one of the render
    that created it, [seen]; its update goes through the functional form
    [setScannerState(prev => ...)] and acts on the state at the time of the
    call, [prev].  Besides the new state it yields the arguments of the
    [handleScanSuccess] calls made and the delays of the resume timers
    scheduled. *)
Definition onScanSuccessOf (seen : ScannerState) (now : Z) (decodedText : string)
    (prev : ScannerState) : ScannerState * list string * list Z :=
  if truthyTime (lastScanTime seen)
     && (now - from_option (fun t => t) 0 (lastScanTime seen) <? 2000)%Z
  then (prev, [], [])
  else
    (mkScanner (isInitializing prev) (isRunning prev) true (hasPermission prev)
               (error prev) (Some now) (scanCount prev + 1) (flashOn prev),
     [decodedText], [3000]).

(** The callback called in the render that created it: the state it closed
    over is the current one. *)
Definition onScanSuccess (now : Z) (decodedText : string) (s : ScannerState)
  : ScannerState * list string * list Z :=
  onScanSuccessOf s now decodedText s.

(** The body of the resume timer; [resumes] tells whether the library's
    [resume()] returns (it throws otherwise, which is caught and logged). *)
Definition onResumeTimer (resumes : bool) (s : Session) : Session :=
  match html5QrCodeRef s with
  | Some _ =>
      if resumes then
        let st := scannerState s in
        mkSession
          (mkScanner (isInitializing st) (isRunning st) false (hasPermission st)
                     (error st) (lastScanTime st) (scanCount st) (flashOn st))
          (html5QrCodeRef s)
      else s
  | None => s
  end.

(** [stopScanner]; [stops] tells whether the promise of the library's
    [stop()] resolves (a rejection is caught and logged).  A resolved
    [stop()] leaves the library object not scanning. *)
Definition stopScanner (stops : bool) (s : Session) : Session :=
  match html5QrCodeRef s with
  | Some qr =>
      if isRunning (scannerState s) then
        if isScanning qr then
          if stops then
            let st := scannerState s in
            mkSession
              (mkScanner false false false (hasPermission st) (error st)
                         (lastScanTime st) (scanCount st) false)
              (Some (mkQr false))
          else s
        else s
      else s
  | None => s
  end.

(** The cleanup of the mount effect: the pending [checkAndInit] timer is
    cleared, which touches no state of the session, and [stopScanner()] is
    called. *)
Definition unmount (stops : bool) (s : Session) : Session := stopScanner stops s.

(** Whether the decode loop of the session's scanner runs. *)
Definition decodeLoopRuns (s : Session) : bool :=
  match html5QrCodeRef s with
  | Some qr => isScanning qr
  | None => false
  end.

(** ** The whole client: scanner, application state and backend *)

(** What the decode callback closes over: the [scannerState] of the render
    that created it and, through the [handleScanSuccess] of that render
    ([useCallback] over [db] and [roster]), its [db] and [roster]. *)
Record Closure := mkClosure {
  seenScanner : ScannerState;
  seenDb : bool;
  seenRoster : list Attendee
}.

(** The closure of a callback created in the current render. *)
Definition closureOf (s : Session) (a : AppState) : Closure :=
  mkClosure (scannerState s) (db a) (roster a).

(** [handleScanSuccess] as the closure of a render: [db] and [roster] are the
    values of that render; the setters act on the state at the time of the
    call. *)
Definition handleScanSuccessOf (cl : Closure) (scannedId : string)
    (app : AppState) (w : World) : AppState * World :=
  let '(a, w1) :=
    handleScanSuccess scannedId
      (mkApp (seenDb cl) (seenRoster cl) (scanMessage app) (console app)
             (messageTimers app)) w in
  (mkApp (db app) (roster app) (scanMessage a) (console a) (messageTimers a), w1).

(** The client.  [registered] is the closure of the decode callback that the
    scanning library holds and calls. *)
Record System := mkSystem {
  session : Session;
  app : AppState;
  world : World;
  registered : Closure
}.

(** [Registered]: the library is handed the callback of the current render
    ([html5Qrcode.start(..., onScanSuccess, ...)]).  The source lists
    [scannerState.lastScanTime] and [handleScanSuccess] as dependencies of
    [initializeScanner], but the code between the creation of the callback
    and that call is incomplete; the event stands for the call and changes
    nothing but the callback in use. *)
Inductive Event :=
| Decoded (now : Z) (decodedText : string)
| ResumeTimer (resumes : bool)
| ManualToggle (person : Attendee)
| Feed (ev : FeedEvent)
| Listener
| Registered.

(** The library calls the registered callback: the closure decides, and
    every accepted decode is handed to the [handleScanSuccess] it closed
    over. *)
Definition onDecoded (now : Z) (decodedText : string) (sys : System) : System :=
  let cl := registered sys in
  let '(st, calls, _) :=
    onScanSuccessOf (seenScanner cl) now decodedText (scannerState (session sys)) in
  let '(a, w) :=
    fold_left (fun aw scannedId => handleScanSuccessOf cl scannedId (fst aw) (snd aw))
              calls (app sys, world sys) in
  mkSystem (mkSession st (html5QrCodeRef (session sys))) a w cl.

Definition step (sys : System) (ev : Event) : System :=
  match ev with
  | Decoded now decodedText => onDecoded now decodedText sys
  | ResumeTimer resumes =>
      mkSystem (onResumeTimer resumes (session sys)) (app sys) (world sys)
               (registered sys)
  | ManualToggle person =>
      let '(a, w) := handleManualStatusToggle person (app sys) (world sys) in
      mkSystem (session sys) a w (registered sys)
  | Feed ev =>
      mkSystem (session sys) (onFeed ev (app sys)) (world sys) (registered sys)
  | Listener =>
      mkSystem (session sys) (deliver (world sys) (app sys)) (world sys)
               (registered sys)
  | Registered =>
      mkSystem (session sys) (app sys) (world sys)
               (closureOf (session sys) (app sys))
  end.

Definition run (evs : list Event) (sys : System) : System :=
  fold_left step evs sys.

(** The attendance mutations of a world: the [setDoc] requests issued. *)
Definition isWrite (c : Call) : bool :=
  match c with CSetDoc _ _ _ => true | _ => false end.

Definition writes (w : World) : list Call := filter (fun c => isWrite c = true) (issued w).

(** The debounce rule in the words of the specification: a decode is
    accepted unless it arrives less than 2000 ms after the previously
    accepted one; [last] is the time of the previously accepted decode. *)
Fixpoint acceptedDecodes (last : option Z) (decodes : list (Z * string))
  : list (Z * string) :=
  match decodes with
  | [] => []
  | (now, text) :: rest =>
      match last with
      | Some t =>
          if (now - t <? 2000)%Z then acceptedDecodes last rest
          else (now, text) :: acceptedDecodes (Some now) rest
      | None => (now, text) :: acceptedDecodes (Some now) rest
      end
  end.

(** A sequence of decodes, each delivered to a callback created in the
    render current at that moment (the callback is re-created after every
    decode): the final state and the decodes that were handed on. *)
Fixpoint scanAll (decodes : list (Z * string)) (s : ScannerState)
  : ScannerState * list (Z * string) :=
  match decodes with
  | [] => (s, [])
  | (now, text) :: rest =>
      let '(s1, calls, _) := onScanSuccess now text s in
      let '(s2, acc) := scanAll rest s1 in
      (s2, map (fun c => (now, c)) calls ++ acc)
  end.

(** What happens to the callback that the library holds: it is called with
    a decode, or it is replaced by the callback of the current render. *)
Inductive ScanEvent :=
| Decode (now : Z) (decodedText : string)
| Recreate.

(** The scanner state run over such a sequence; [seen] is the state that
    the callback in use closed over. *)
Fixpoint scanEvents (evs : list ScanEvent) (seen s : ScannerState)
  : ScannerState * list (Z * string) :=
  match evs with
  | [] => (s, [])
  | Decode now text :: rest =>
      let '(s1, calls, _) := onScanSuccessOf seen now text s in
      let '(s2, acc) := scanEvents rest seen s1 in
      (s2, map (fun c => (now, c)) calls ++ acc)
  | Recreate :: rest => scanEvents rest s s
  end.

(** Every decode of the sequence reaches a callback that closed over the
    [lastScanTime] current at that moment. *)
Fixpoint seesCurrent (evs : list ScanEvent) (seen s : ScannerState) : Prop :=
  match evs with
  | [] => True
  | Decode now text :: rest =>
      lastScanTime seen = lastScanTime s
      /\ seesCurrent rest seen (fst (fst (onScanSuccessOf seen now text s)))
  | Recreate :: rest => seesCurrent rest s s
  end.

(** The sequence in which the callback is replaced before every decode. *)
Definition recreatedEach (decodes : list (Z * string)) : list ScanEvent :=
  flat_map (fun d => [Recreate; Decode (fst d) (snd d)]) decodes.

(** The clock readings of the decodes are not zero. *)
Definition clockSet (ev : ScanEvent) : Prop :=
  match ev with
  | Decode now _ => now <> 0%Z
  | Recreate => True
  end.

(** The scanner state after an accepted decode at [now]. *)
Definition acceptedState (now : Z) (s : ScannerState) : ScannerState :=
  mkScanner (isInitializing s) (isRunning s) true (hasPermission s) (error s)
            (Some now) (scanCount s + 1) (flashOn s).

(** The three guards of [stopScanner]. *)
Definition stopGuard (s : Session) : bool :=
  match html5QrCodeRef s with
  | Some qr => isRunning (scannerState s) && isScanning qr
  | None => false
  end.

(** What a stored document of a new member looks like. *)
Definition newMember (r0 r1 : Remote) (d : DocData) : Prop :=
  d_status d = "absent" /\ d_lastScan d = None
  /\ exists t, d_createdAt d = Some t /\ (clock r0 <= t < clock r1)%Z.

(** ** Seeding, reset and text upload *)

Definition INITIAL_ROSTER : list Entry :=
  [mkEntry "RC-1001" "Alfie Johnson"; mkEntry "RC-1002" "Brenda Chen";
   mkEntry "RC-1003" "Charlie Davis"; mkEntry "RC-1004" "Diana Evans";
   mkEntry "RC-0000" "Error Test Person"; mkEntry "RC-1005" "Ethan Foster"].

(** [for (const person of people) await setDoc(...)]: one write after the
    other; the first rejection is thrown and ends the loop.  The object
    written is the one of the bulk upload. *)
Fixpoint seedEach (people : list Entry) (w : World) : Settled unit * World :=
  match people with
  | [] => (Fulfilled tt, w)
  | person :: rest =>
      match setDoc (entry_id person) (newMemberFields person) false w with
      | (Fulfilled _, w1) => seedEach rest w1
      | (Rejected e, w1) => (Rejected e, w1)
      end
  end.

(** The closure that [seedRoster] hands to [retryOperation]: read the
    collection and, if [snapshot.empty], write the initial roster. *)
Definition seedOperation (w : World) : Settled unit * World :=
  match getDocs w with
  | (Rejected e, w1) => (Rejected e, w1)
  | (Fulfilled snapshot, w1) =>
      match snapshot with
      | [] => seedEach INITIAL_ROSTER w1
      | _ :: _ => (Fulfilled tt, w1)
      end
  end.

(** [seedRoster(db)]: the closure is retried with the default five attempts
    and base delay of 1000 ms; a final rejection is caught and logged. *)
Definition seedRoster (db : bool) (w : World) : World :=
  if negb db then w
  else snd (awaitRetry seedOperation 5 1000 w).

(** The object written by a reset: [{ status: 'absent', lastScan: null }]. *)
Definition resetFields : Fields :=
  {| w_id := None; w_name := None;
     w_status := Some "absent";
     w_lastScan := Some Null;
     w_createdAt := None |}.

Definition resetCalls (rows : list Attendee) : list Call :=
  map (fun person => CSetDoc (p_id person) resetFields true) rows.

(** [handleReset]; [sortedRoster] are the rows of the table, [confirmed] is
    the answer of [window.confirm].  The writes are started by the [map],
    before the retried closure awaits them; a final rejection is caught and
    logged. *)
Definition handleReset (db confirmed : bool) (sortedRoster : list Attendee)
    (w : World) : World :=
  if negb db then w
  else if negb confirmed then w
  else
    let '(updates, w1) :=
      issueAll (map (fun person => setDoc (p_id person) resetFields true)
                    sortedRoster) w in
    snd (awaitRetry (fun w => (promiseAll updates, w)) 3 500 w1).

(** The document a reset leaves for a row: the stored one with the status
    and the last scan cleared, or a document with just these two fields
    when none is stored. *)
Definition resetOf (old : option DocData) : DocData :=
  writeDoc true old resetFields 0.

(** [handleTextUpload]: parse the text area and upload the result. *)
Definition handleTextUpload (db confirmed : bool) (newRosterText : string)
    (ui : UploadUi) (w : World) : UploadUi * World :=
  let parsed := parseRosterData newRosterText in
  executeRosterUpload db confirmed (rosterData parsed) (errorCount parsed) ui w.

(** ** Camera selection, torch and status badge *)

(** [c.toLowerCase()] on ASCII letters. *)
Definition toLowerChar (c : ascii) : ascii :=
  let n := nat_of_ascii c in
  if Nat.leb 65 n && Nat.leb n 90 then ascii_of_nat (n + 32) else c.

Fixpoint toLowerCase (s : string) : string :=
  match s with
  | EmptyString => EmptyString
  | String c r => String (toLowerChar c) (toLowerCase r)
  end.

(** [s.includes(pattern)] *)
Fixpoint includes (s pattern : string) : bool :=
  String.prefix pattern s
  || match s with
     | EmptyString => false
     | String _ r => includes r pattern
     end.

(** An element of the array that [Html5Qrcode.getCameras()] resolves to;
    a missing label is the empty string. *)
Record CameraDevice := mkCamera { cam_id : string; cam_label : string }.

(** The predicate given to [availableCameras.find]. *)
Definition isBackCamera (camera : CameraDevice) : bool :=
  Js.truthy (cam_label camera)
  && (includes (toLowerCase (cam_label camera)) "back"
      || includes (toLowerCase (cam_label camera)) "environment"
      || includes (toLowerCase (cam_label camera)) "rear").

Inductive DetectError :=
| LibraryNotLoaded              (* 'QR Code library not loaded' *)
| NoCamerasFound                (* 'No cameras found on device' *)
| GetCamerasFailed (e : JsError).

(** What a successful detection sets and returns:
    [setCameras(availableCameras)] and the preferred camera id. *)
Record Detected := mkDetected {
  cameras : list CameraDevice;
  selectedCameraId : string
}.

(** [detectCameras]; [loaded] tells whether [window.Html5Qrcode] is defined
    and [getCameras] is the settled [Html5Qrcode.getCameras()].  Every error
    is logged and thrown again. *)
Definition detectCameras (loaded : bool) (getCameras : Settled (list CameraDevice))
  : DetectError + Detected :=
  if negb loaded then inl LibraryNotLoaded
  else
    match getCameras with
    | Rejected e => inl (GetCamerasFailed e)
    | Fulfilled availableCameras =>
        match availableCameras with
        | [] => inl NoCamerasFound
        | first :: others =>
            let preferredCameraId :=
              match find isBackCamera availableCameras with
              | Some backCamera => cam_id backCamera
              | None =>
                  match others with
                  | second :: _ => cam_id second
                  | [] => cam_id first
                  end
              end in
            inr (mkDetected availableCameras preferredCameraId)
        end
    end.

(** [toggleFlash]; [torchSupported] is the settled [isTorchSupported()] and
    [torchSet] the settled [setTorchEnabled(!flashOn)].  Rejections are
    caught and logged. *)
Definition toggleFlash (torchSupported : Settled bool) (torchSet : Settled unit)
    (s : Session) : Session :=
  match html5QrCodeRef s with
  | None => s
  | Some _ =>
      let st := scannerState s in
      if negb (isRunning st) then s
      else
        match torchSupported with
        | Rejected _ => s
        | Fulfilled true =>
            match torchSet with
            | Rejected _ => s
            | Fulfilled _ =>
                mkSession
                  (mkScanner (isInitializing st) (isRunning st) (isPaused st)
                             (hasPermission st) (error st) (lastScanTime st)
                             (scanCount st) (negb (flashOn st)))
                  (html5QrCodeRef s)
            end
        | Fulfilled false =>
            mkSession
              (mkScanner (isInitializing st) (isRunning st) (isPaused st)
                         (hasPermission st)
                         (Some "Flash/Torch functionality not supported by this camera.")
                         (lastScanTime st) (scanCount st) (flashOn st))
              (html5QrCodeRef s)
        end
  end.

(** The keys of [ScannerStatus]. *)
Inductive ScannerStatus := INITIALIZING | ACTIVE | PROCESSING | ERROR.

(** Which badge [renderStatusIndicator] returns, [None] for [null]. *)
Definition renderStatusIndicator (st : ScannerState) : option ScannerStatus :=
  if isInitializing st then Some INITIALIZING
  else if isRunning st && negb (isPaused st) then Some ACTIVE
  else if isPaused st then Some PROCESSING
  else if match error st with Some e => Js.truthy e | None => false end
       then Some ERROR
       else None.

(** [roster.filter(p => p.status === 'present').length] and [roster.length] *)
Definition presentCount (roster : list Attendee) : Z :=
  Z.of_nat (length (List.filter (fun p => String.eqb (p_status p) "present") roster)).

Definition totalCount (roster : list Attendee) : Z := Z.of_nat (length roster).

(** ** Vocabulary for sequences of events *)

(** Accepted decodes that are at least 2000 ms apart, the first one at
    least 2000 ms after [last]. *)
Fixpoint spacedFrom (last : option Z) (accepted : list (Z * string)) : Prop :=
  match accepted with
  | [] => True
  | (t, _) :: rest =>
      match last with
      | Some t0 => (2000 <= t - t0)%Z
      | None => True
      end /\ spacedFrom (Some t) rest
  end.

(** The event is not a notification of the roster subscription. *)
Definition notDelivery (ev : Event) : Prop :=
  match ev with
  | Feed (FeedNext _) => False
  | Listener => False
  | _ => True
  end.

(** ** Vocabulary for runs of the retry wrapper *)

(** A run of transient rejections of [operation] from [w]: each pair is the
    error thrown by one attempt and the world that attempt leaves. *)
Fixpoint rejectedRun {W A : Type} (operation : W -> Settled A * W) (w : W)
    (rs : list (JsError * W)) : Prop :=
  match rs with
  | [] => True
  | (e, w') :: rest =>
      operation w = (Rejected e, w') /\ isTransient e = true
      /\ rejectedRun operation w' rest
  end.

(** The world left by the last attempt of a run. *)
Fixpoint worldAfter {W : Type} (w : W) (rs : list (JsError * W)) : W :=
  match rs with
  | [] => w
  | (_, w') :: rest => worldAfter w' rest
  end.

(** The waits [delay * 2 ^ i], [delay * 2 ^ (i + 1)], ... of [k] failed
    attempts from attempt index [i], and the log lines that go with them. *)
Fixpoint backoffs (delay i : Z) (k : nat) : list Z :=
  match k with
  | O => []
  | S k' => (delay * 2 ^ i)%Z :: backoffs delay (i + 1) k'
  end.

Fixpoint backoffLog (delay i : Z) (k : nat) : list RetryEvent :=
  match k with
  | O => []
  | S k' =>
      Warned (i + 1) (delay * 2 ^ i) :: Slept (delay * 2 ^ i)
        :: backoffLog delay (i + 1) k'
  end.

Definition sumZ (l : list Z) : Z := fold_right Z.add 0%Z l.

(** ** Vocabulary for the import format *)

(** White space below is the white space of [trim], the code points
    outside ASCII included. *)

(** The string is not empty and does not start with white space. *)
Definition startsClean (s : string) : bool :=
  match s with
  | EmptyString => false
  | String _ _ => match Js.dropSpace s with Some _ => false | None => true end
  end.

(** The string is not empty and does not end with white space. *)
Definition endsClean (s : string) : bool :=
  match Js.rev s with
  | EmptyString => false
  | String _ _ => match Js.dropSpaceEnd (Js.rev s) with Some _ => false | None => true end
  end.

(** The string is not empty and has no white space at either end. *)
Definition tidy (s : string) : bool := startsClean s && endsClean s.

(** The string does not contain the character. *)
Fixpoint lacks (c : ascii) (s : string) : bool :=
  match s with
  | EmptyString => true
  | String d r => negb (Ascii.eqb d c) && lacks c r
  end.

(** A byte that white space can contain: ASCII white space, or a byte of
    a code point outside ASCII. *)
Definition spaceByte (c : ascii) : bool :=
  Js.isAsciiSpace c || Nat.leb 128 (Js.code c).

(** Every byte of the string is one that white space can contain; so is
    every string that consists of white space. *)
Fixpoint blank (s : string) : bool :=
  match s with
  | EmptyString => true
  | String c r => spaceByte c && blank r
  end.

(** Every character of the string is a digit. *)
Fixpoint allDigits (s : string) : bool :=
  match s with
  | EmptyString => true
  | String c r => Js.isDigit c && allDigits r
  end.

Definition startsWithDigit (s : string) : bool :=
  match s with
  | EmptyString => false
  | String c _ => Js.isDigit c
  end.

(** An id that survives the import unchanged: tidy, no comma, no line
    feed. *)
Definition plainField (s : string) : bool :=
  tidy s && lacks ","%char s && lacks Js.LF s.

(** An entry that the import format can carry: both fields are plain and
    the name does not start with a digit. *)
Definition portable (e : Entry) : bool :=
  plainField (entry_id e) && plainField (entry_name e)
  && negb (startsWithDigit (entry_name e)).

(** An entry written the way the upload form asks for it: [ID,Name]. *)
Definition csvLine (e : Entry) : string :=
  entry_id e +:+ String ","%char (entry_name e).

(** Lines joined by line feeds. *)
Fixpoint joinLines (lines : list string) : string :=
  match lines with
  | [] => EmptyString
  | [l] => l
  | l :: rest => l +:+ String Js.LF (joinLines rest)
  end.

Definition toCsv (entries : list Entry) : string := joinLines (map csvLine entries).

(** ** Fixtures used by the examples below *)

(** U+00A0 (no-break space) and U+FEFF (byte order mark) in UTF-8. *)
Definition NBSP : string :=
  String (ascii_of_nat 194) (String (ascii_of_nat 160) EmptyString).
Definition BOM : string :=
  String (ascii_of_nat 239)
         (String (ascii_of_nat 187) (String (ascii_of_nat 191) EmptyString)).

(** The three-line import of the specification's test. *)
Definition sampleImport : string :=
  "RC-1001,Alfie Johnson" +:+ String Js.LF (",," +:+ String Js.LF "RC-1002,Jane Smith,,").

(** The snapshots of the successful notifications of a feed, in order. *)
Definition snapshotsOf (evs : list FeedEvent) : list (list (string * DocData)) :=
  omap (fun ev => match ev with FeedNext s => Some s | FeedError _ => None end) evs.

Definition errUnavailable : JsError := mkError (Some "unavailable").
Definition errPermission : JsError := mkError (Some "permission-denied").
Definition errNotFound : JsError := mkError (Some "not-found").

(** An operation over a counter of attempts made: rejected as unavailable
    twice, fulfilled from the third attempt on. *)
Definition flaky (n : nat) : Settled string * nat :=
  if Nat.ltb n 2 then (Rejected errUnavailable, S n) else (Fulfilled "ok", S n).

Definition alfieDoc : DocData :=
  mkDoc (Some "RC-1001") (Some "Alfie Johnson") "absent" None (Some 5).
Definition brendaDoc : DocData :=
  mkDoc (Some "RC-1002") (Some "Brenda Chen") "present" (Some 7) (Some 6).

Definition alfie : Attendee := toAttendee ("RC-1001", alfieDoc).
Definition brenda : Attendee := toAttendee ("RC-1002", brendaDoc).

Definition smallRemote : Remote :=
  mkRemote (<["RC-1001" := alfieDoc]> (<["RC-1002" := brendaDoc]> ∅)) 10.

Definition quietWorld : World := mkWorld smallRemote [] [] [].

Definition readyApp : AppState :=
  mkApp true [alfie; brenda] (TextEmpty, TypeInfo) [] [].

Definition emptyUi : UploadUi := mkUploadUi MsgEmpty "" [].

(** The store serves the read and rejects the request after it as
    unavailable; later requests are served. *)
Definition faultyWorld : World :=
  mkWorld smallRemote [None; Some "unavailable"] [] [].

(** The store rejects the first request as unavailable. *)
Definition hiccupWorld : World :=
  mkWorld smallRemote [Some "unavailable"] [] [].

Definition newcomers : list Entry := [mkEntry "RC-2001" "Dana Fox"].

(** A phone with a front and a back camera. *)
Definition phoneCameras : list CameraDevice :=
  [mkCamera "cam-0" "Front Camera"; mkCamera "cam-1" "BACK Camera 0"].

(** The store rejects three requests in a row as unavailable. *)
Definition offlineWorld : World :=
  mkWorld smallRemote [Some "unavailable"; Some "unavailable"; Some "unavailable"]
          [] [].

(** An empty collection whose requests are all served. *)
Definition emptyWorld : World := mkWorld (mkRemote ∅ 100) [] [] [].

(** An empty collection that serves a read and two writes and rejects the
    third write as unavailable. *)
Definition interruptedWorld : World :=
  mkWorld (mkRemote ∅ 100) [None; None; None; Some "unavailable"] [] [].

(** A running session that has a scanner and has never decoded. *)
Definition freshSession : Session :=
  mkSession (mkScanner false true false (Some true) None None 0 false)
            (Some (mkQr true)).

(** A running session whose last accepted decode was at time 1000. *)
Definition scanningSession : Session :=
  mkSession (mkScanner false true false (Some true) None (Some 1000) 1 false)
            (Some (mkQr true)).

(** A session caught while it starts: the library object is referenced and
    its decode loop runs, but [isRunning] is not set yet. *)
Definition startingSession : Session :=
  mkSession (mkScanner true false false None None None 0 false)
            (Some (mkQr true)).

(** A paused session, after an accepted decode. *)
Definition pausedSession : Session :=
  mkSession (mkScanner false true true (Some true) None (Some 1000) 1 false)
            (Some (mkQr true)).

(** Both clients hold the callback of their current render. *)
Definition freshSystem : System :=
  mkSystem freshSession readyApp quietWorld (closureOf freshSession readyApp).
Definition scanningSystem : System :=
  mkSystem scanningSession readyApp quietWorld (closureOf scanningSession readyApp).

(** * Properties *)

(** ** Import parsing *)

Lemma dropDigits_app (ds rest : string) :
  (forall c, In c (list_ascii_of_string ds) -> Js.isDigit c = true) ->
  Js.dropDigits (ds +:+ rest) = Js.dropDigits rest.
Proof.
  induction ds as [|c ds IH]; intros Hd; simpl; [reflexivity|].
  rewrite (Hd c) by (simpl; auto).
  apply IH. intros c' Hc'. apply Hd. simpl; auto.
Qed.

(** A numeric prefix of any length followed by a dot is removed up to and
    including the dot. *)
Lemma stripLeadingNumber_dotted (d : ascii) (ds rest : string) :
  Js.isDigit d = true ->
  (forall c, In c (list_ascii_of_string ds) -> Js.isDigit c = true) ->
  Js.stripLeadingNumber (String d ds +:+ String "."%char rest)
  = Js.dropOneSpace rest.
Proof.
  intros Hd Hds. unfold Js.stripLeadingNumber. simpl. rewrite Hd.
  rewrite dropDigits_app by exact Hds. reflexivity.
Qed.

(** White space outside ASCII is white space to the parser: a line that
    holds a no-break space only is blank, and a byte order mark and
    no-break spaces around a field are trimmed away. *)
Lemma parseRosterData_unicode_space :
  parseRosterData ("RC-1,Ann" +:+ String Js.LF (NBSP +:+ String Js.LF "RC-2,Bob"))
  = mkParsed [mkEntry "RC-1" "Ann"; mkEntry "RC-2" "Bob"] 0
  /\ parseRosterData (BOM +:+ "RC-1," +:+ NBSP +:+ "Ann" +:+ NBSP)
     = mkParsed [mkEntry "RC-1" "Ann"] 0
  /\ tidy (NBSP +:+ "Ann") = false
  /\ tidy ("Ann" +:+ BOM) = false.
Proof. repeat split; vm_compute; reflexivity. Qed.

(** A name that does not start with a digit is only trimmed. *)
Lemma cleanName_no_digit (c : ascii) (rest : string) :
  Js.isDigit c = false -> cleanName (String c rest) = Js.trim (String c rest).
Proof. intros H. unfold cleanName, Js.stripLeadingNumber. now rewrite H. Qed.

(** C8: the sample import yields exactly the two entries [RC-1001, Alfie
    Johnson] and [RC-1002, Jane Smith] (the trailing empty fields of the
    third line are dropped) and one error line, and the name [1.Dean Owens]
    is normalised to [Dean Owens], also when it is read from a line. *)
Theorem parseRosterData_sample :
  parseRosterData sampleImport
  = mkParsed [mkEntry "RC-1001" "Alfie Johnson"; mkEntry "RC-1002" "Jane Smith"] 1
  /\ cleanParts "RC-1002,Jane Smith,," = ["RC-1002"; "Jane Smith"]
  /\ cleanName "1.Dean Owens" = "Dean Owens"
  /\ parseRosterData "RC-1006,1.Dean Owens"
     = mkParsed [mkEntry "RC-1006" "Dean Owens"] 0.
Proof. repeat split; vm_compute; reflexivity. Qed.

(** ** The retry wrapper *)

Section RetryFacts.
Context {W A : Type}.
Variable operation : W -> Settled A * W.
Variables maxRetries delay : Z.

(** One iteration of the loop. *)
Lemma retryLoop_S (fuel : nat) (i : Z) (w : W) (log : list RetryEvent) :
  retryLoop operation maxRetries delay (S fuel) i w log
  = if (i <? maxRetries)%Z then
      match operation w with
      | (Fulfilled v, w') => (Fulfilled (Some v), log, w')
      | (Rejected error, w') =>
          if isTransient error || (i =? maxRetries - 1)%Z then
            if (i =? maxRetries - 1)%Z then
              (Rejected error, log ++ [GaveUp maxRetries], w')
            else
              retryLoop operation maxRetries delay fuel (i + 1)%Z w'
                (log ++ [Warned (i + 1) (delay * 2 ^ i); Slept (delay * 2 ^ i)])
          else (Rejected error, log, w')
      end
    else (Fulfilled None, log, w).
Proof. reflexivity. Qed.

(** Fuel beyond the number of iterations left is never used: the loop of
    [retryOperation] ends by its own test, not by the fuel. *)
Lemma retryLoop_fuel (fuel : nat) :
  forall i w log,
    (maxRetries - i <= Z.of_nat fuel)%Z ->
    retryLoop operation maxRetries delay (S fuel) i w log
    = retryLoop operation maxRetries delay fuel i w log.
Proof.
  induction fuel as [|fuel IH]; intros i w log Hle.
  - simpl. destruct (Z.ltb_spec i maxRetries) as [Hlt|Hge]; [lia|reflexivity].
  - rewrite (retryLoop_S (S fuel)), (retryLoop_S fuel).
    destruct (i <? maxRetries)%Z; [|reflexivity].
    destruct (operation w) as [[v|e] w']; [reflexivity|].
    destruct (isTransient e || (i =? maxRetries - 1)%Z); [|reflexivity].
    destruct (i =? maxRetries - 1)%Z; [reflexivity|].
    apply IH. lia.
Qed.

(** Hence [retryOperation] is the loop run with any larger fuel. *)
Lemma retryOperation_fuel (extra : nat) (w : W) :
  retryLoop operation maxRetries delay (Z.to_nat maxRetries + extra) 0 w []
  = retryOperation operation maxRetries delay w.
Proof.
  unfold retryOperation. induction extra as [|extra IH].
  - now rewrite Nat.add_0_r.
  - rewrite Nat.add_succ_r, retryLoop_fuel by lia. exact IH.
Qed.

(** A fulfilled attempt ends the loop with its value. *)
Lemma retryLoop_fulfilled (fuel : nat) i w log v w' :
  (i < maxRetries)%Z ->
  operation w = (Fulfilled v, w') ->
  retryLoop operation maxRetries delay (S fuel) i w log
  = (Fulfilled (Some v), log, w').
Proof.
  intros Hi Hop. rewrite retryLoop_S, Hop.
  destruct (Z.ltb_spec i maxRetries); [reflexivity|lia].
Qed.

(** A transient rejection before the last attempt waits
    [delay * 2 ^ i] and goes on with the next attempt. *)
Lemma retryLoop_transient (fuel : nat) i w log e w' :
  (i < maxRetries - 1)%Z ->
  isTransient e = true ->
  operation w = (Rejected e, w') ->
  retryLoop operation maxRetries delay (S fuel) i w log
  = retryLoop operation maxRetries delay fuel (i + 1)%Z w'
      (log ++ [Warned (i + 1) (delay * 2 ^ i); Slept (delay * 2 ^ i)]).
Proof.
  intros Hi Ht Hop. rewrite retryLoop_S, Hop, Ht.
  destruct (Z.ltb_spec i maxRetries); [|lia].
  destruct (Z.eqb_spec i (maxRetries - 1)); [lia|reflexivity].
Qed.

(** The rejection of the last attempt is thrown, whatever its code. *)
Lemma retryLoop_last (fuel : nat) i w log e w' :
  i = (maxRetries - 1)%Z ->
  operation w = (Rejected e, w') ->
  retryLoop operation maxRetries delay (S fuel) i w log
  = (Rejected e, log ++ [GaveUp maxRetries], w').
Proof.
  intros Hi Hop. rewrite retryLoop_S, Hop.
  destruct (Z.ltb_spec i maxRetries); [|lia].
  destruct (Z.eqb_spec i (maxRetries - 1)); [|lia].
  now rewrite orb_true_r.
Qed.

(** A rejection that is not transient is thrown at once when it is not
    the last attempt's. *)
Lemma retryLoop_permanent (fuel : nat) i w log e w' :
  (i < maxRetries - 1)%Z ->
  isTransient e = false ->
  operation w = (Rejected e, w') ->
  retryLoop operation maxRetries delay (S fuel) i w log = (Rejected e, log, w').
Proof.
  intros Hi Ht Hop. rewrite retryLoop_S, Hop, Ht.
  destruct (Z.ltb_spec i maxRetries); [|lia].
  destruct (Z.eqb_spec i (maxRetries - 1)); [lia|reflexivity].
Qed.
End RetryFacts.

Lemma isTransient_codes (e : JsError) :
  code e = Some "permission-denied" \/ code e = Some "unavailable" ->
  isTransient e = true.
Proof. unfold isTransient. intros [-> | ->]; reflexivity. Qed.

(** C3: an operation rejected with a transient code on its first two
    attempts and fulfilled on the third makes [retryOperation] return the
    third attempt's value, having waited [baseDelay] and then
    [baseDelay * 2] (that is [baseDelay * 2 ^ 0] and [baseDelay * 2 ^ 1])
    and nothing else, provided three attempts are allowed. *)
Theorem retryOperation_third_attempt {W A : Type}
    (operation : W -> Settled A * W) (maxRetries baseDelay : Z)
    (w0 w1 w2 w3 : W) (e1 e2 : JsError) (result : A) :
  (3 <= maxRetries)%Z ->
  (code e1 = Some "permission-denied" \/ code e1 = Some "unavailable") ->
  (code e2 = Some "permission-denied" \/ code e2 = Some "unavailable") ->
  operation w0 = (Rejected e1, w1) ->
  operation w1 = (Rejected e2, w2) ->
  operation w2 = (Fulfilled result, w3) ->
  exists log,
    retryOperation operation maxRetries baseDelay w0
    = (Fulfilled (Some result), log, w3)
    /\ log = [Warned 1 (baseDelay * 2 ^ 0); Slept (baseDelay * 2 ^ 0);
              Warned 2 (baseDelay * 2 ^ 1); Slept (baseDelay * 2 ^ 1)]
    /\ sleeps log = [baseDelay; (baseDelay * 2)%Z].
Proof.
  intros Hmax He1 He2 H0 H1 H2.
  apply isTransient_codes in He1, He2.
  eexists. split; [|split; [reflexivity|]].
  - unfold retryOperation.
    destruct (Z.to_nat maxRetries) as [|[|[|fuel]]] eqn:Hfuel; try lia.
    rewrite (retryLoop_transient _ _ _ _ 0 w0 [] e1 w1) by (auto; lia).
    rewrite (retryLoop_transient _ _ _ _ (0 + 1) w1 _ e2 w2) by (auto; lia).
    rewrite (retryLoop_fulfilled _ _ _ _ (0 + 1 + 1) w2 _ result w3) by (auto; lia).
    reflexivity.
  - unfold sleeps. cbn -[Z.mul Z.pow].
    now rewrite Z.pow_0_r, Z.pow_1_r, Z.mul_1_r.
Qed.

Lemma retryOperation_third_attempt_witness :
  exists log,
    retryOperation flaky 3 500 0%nat = (Fulfilled (Some "ok"), log, 3%nat)
    /\ log = [Warned 1 (500 * 2 ^ 0); Slept (500 * 2 ^ 0);
              Warned 2 (500 * 2 ^ 1); Slept (500 * 2 ^ 1)]
    /\ sleeps log = [500; (500 * 2)%Z].
Proof.
  apply (retryOperation_third_attempt flaky 3 500 0%nat 1%nat 2%nat 3%nat
           errUnavailable errUnavailable "ok").
  - lia.
  - right; reflexivity.
  - right; reflexivity.
  - reflexivity.
  - reflexivity.
  - reflexivity.
Defined.

(** ** The roster mirror *)

Lemma roster_onSnapshotError (error : JsError) (app : AppState) :
  roster (onSnapshotError error app) = roster app.
Proof. reflexivity. Qed.

Lemma runFeed_app (evs1 evs2 : list FeedEvent) (app : AppState) :
  runFeed (evs1 ++ evs2) app = runFeed evs2 (runFeed evs1 app).
Proof. unfold runFeed. apply fold_left_app. Qed.

Lemma snapshotsOf_app (evs1 evs2 : list FeedEvent) :
  snapshotsOf (evs1 ++ evs2) = snapshotsOf evs1 ++ snapshotsOf evs2.
Proof. unfold snapshotsOf. apply omap_app. Qed.

(** C4: the error callback of the roster subscription leaves the roster as
    it is for every error, [permission-denied] included; over a whole feed
    the roster is the content of the last successful notification, or the
    initial roster when there was none, so errors never clear or replace
    it. *)
Theorem feed_error_keeps_snapshot :
  (forall (error : JsError) (app : AppState),
      roster (onSnapshotError error app) = roster app)
  /\ (forall (app : AppState),
         roster (onSnapshotError errPermission app) = roster app)
  /\ (forall (evs : list FeedEvent) (app : AppState),
         roster (runFeed evs app)
         = match last (snapshotsOf evs) with
           | Some snapshot => map toAttendee snapshot
           | None => roster app
           end)
  /\ (forall (errors : list JsError) (app : AppState),
         roster (runFeed (map FeedError errors) app) = roster app).
Proof.
  assert (Hrun : forall (evs : list FeedEvent) (app : AppState),
             roster (runFeed evs app)
             = match last (snapshotsOf evs) with
               | Some snapshot => map toAttendee snapshot
               | None => roster app
               end).
  { induction evs as [|ev evs IH] using rev_ind; intros app; [reflexivity|].
    rewrite runFeed_app, snapshotsOf_app. destruct ev as [snapshot|error].
    - simpl. rewrite last_snoc. reflexivity.
    - simpl. rewrite app_nil_r. apply IH. }
  repeat split.
  - exact Hrun.
  - intros errors app. rewrite Hrun.
    replace (snapshotsOf (map FeedError errors)) with (@nil (list (string * DocData)));
      [reflexivity|].
    induction errors as [|e errors IH]; [reflexivity|exact IH].
Qed.

(** ** Bulk replacement with nothing to upload *)

(** C6: with an empty list of entries the upload reports the
    no-valid-entries error at once (and schedules its clearing) and leaves
    the world as it is: no request is issued and the store is unchanged.
    With no database handle it returns before that, also without any
    request. *)
Theorem executeRosterUpload_empty :
  forall (confirmed : bool) (errorCount : Z) (ui : UploadUi) (w : World),
    executeRosterUpload true confirmed [] errorCount ui w
    = (mkUploadUi MsgNoValidEntries (newRosterText ui) (clearTimers ui ++ [5000]), w)
    /\ issued (snd (executeRosterUpload true confirmed [] errorCount ui w)) = issued w
    /\ remote (snd (executeRosterUpload true confirmed [] errorCount ui w)) = remote w
    /\ executeRosterUpload false confirmed [] errorCount ui w = (ui, w).
Proof. intros. repeat split. Qed.

(** ** Scanning an unknown id *)

Lemma find_none_iff (scannedId : string) (l : list Attendee) :
  (forall p, In p l -> p_id p <> scannedId) ->
  find (fun p => String.eqb (p_id p) scannedId) l = None.
Proof.
  induction l as [|q l IH]; intros Hno; [reflexivity|]. simpl.
  destruct (String.eqb_spec (p_id q) scannedId) as [Heq|Hne].
  - exfalso. apply (Hno q); [left; reflexivity|exact Heq].
  - apply IH. intros p Hp. apply Hno. right; exact Hp.
Qed.

(** C7: a decoded payload that is the id of no attendee of the roster
    snapshot makes [handleScanSuccess] set the not-found message and nothing
    else: the world is returned as it was, so no [setDoc] (indeed no
    request at all) is issued, the store is unchanged, and the roster
    snapshot is unchanged. *)
Theorem handleScanSuccess_not_found
    (scannedId : string) (app : AppState) (w : World) :
  db app = true ->
  (forall p, In p (roster app) -> p_id p <> scannedId) ->
  let '(app', w') := handleScanSuccess scannedId app w in
  scanMessage app' = (TextNotFound scannedId, TypeError)
  /\ w' = w
  /\ writes w' = writes w
  /\ roster app' = roster app.
Proof.
  intros Hdb Hno. unfold handleScanSuccess. rewrite Hdb. simpl.
  rewrite (find_none_iff scannedId (roster app) Hno). repeat split.
Qed.

Lemma handleScanSuccess_not_found_witness :
  let '(app', w') := handleScanSuccess "RC-9999" readyApp quietWorld in
  scanMessage app' = (TextNotFound "RC-9999", TypeError)
  /\ w' = quietWorld
  /\ writes w' = writes quietWorld
  /\ roster app' = roster readyApp.
Proof.
  apply (handleScanSuccess_not_found "RC-9999" readyApp quietWorld).
  - reflexivity.
  - intros p [<-|[<-|[]]]; simpl; discriminate.
Defined.

(** ** The debounce of the decode callback *)

Lemma onScanSuccessOf_discard (seen : ScannerState) (now : Z) (text : string)
    (s : ScannerState) (t : Z) :
  lastScanTime seen = Some t -> t <> 0%Z -> (now - t < 2000)%Z ->
  onScanSuccessOf seen now text s = (s, [], []).
Proof.
  intros Hlast Hnz Hlt. unfold onScanSuccessOf, truthyTime. rewrite Hlast. simpl.
  destruct (Z.eqb_spec t 0); [contradiction|].
  destruct (Z.ltb_spec (now - t) 2000); [reflexivity|lia].
Qed.

Lemma onScanSuccessOf_accept (seen : ScannerState) (now : Z) (text : string)
    (s : ScannerState) :
  (lastScanTime seen = None
   \/ exists t, lastScanTime seen = Some t /\ (2000 <= now - t)%Z) ->
  onScanSuccessOf seen now text s = (acceptedState now s, [text], [3000%Z]).
Proof.
  intros [Hlast|(t & Hlast & Hge)]; unfold onScanSuccessOf, truthyTime;
    rewrite Hlast; [reflexivity|]. simpl.
  destruct (Z.ltb_spec (now - t) 2000); [lia|].
  rewrite andb_false_r. reflexivity.
Qed.

Lemma onScanSuccess_discard (now : Z) (text : string) (s : ScannerState) (t : Z) :
  lastScanTime s = Some t -> t <> 0%Z -> (now - t < 2000)%Z ->
  onScanSuccess now text s = (s, [], []).
Proof. apply onScanSuccessOf_discard. Qed.

Lemma onScanSuccess_accept (now : Z) (text : string) (s : ScannerState) (t : Z) :
  lastScanTime s = Some t -> (2000 <= now - t)%Z ->
  onScanSuccess now text s = (acceptedState now s, [text], [3000%Z]).
Proof.
  intros Hlast Hge. apply onScanSuccessOf_accept. right. now exists t.
Qed.

Lemma onScanSuccess_first (now : Z) (text : string) (s : ScannerState) :
  lastScanTime s = None ->
  onScanSuccess now text s = (acceptedState now s, [text], [3000%Z]).
Proof. intros Hlast. apply onScanSuccessOf_accept. now left. Qed.

(** On non-zero clock readings a callback that is re-created after every
    decode implements the rule of the specification over every sequence of
    decodes. *)
Lemma scanAll_acceptedDecodes (decodes : list (Z * string)) :
  forall s : ScannerState,
    lastScanTime s <> Some 0%Z ->
    Forall (fun d => fst d <> 0%Z) decodes ->
    snd (scanAll decodes s) = acceptedDecodes (lastScanTime s) decodes.
Proof.
  induction decodes as [|[now text] rest IH]; intros s Hs Hnz; [reflexivity|].
  inversion Hnz as [|? ? Hnow Hrest]; subst. simpl in Hnow.
  cbn [scanAll acceptedDecodes].
  destruct (lastScanTime s) as [t|] eqn:Hlast.
  - destruct (Z.ltb_spec (now - t) 2000) as [Hlt|Hge].
    + rewrite (onScanSuccess_discard now text s t) by (auto; congruence).
      specialize (IH s). rewrite Hlast in IH. specialize (IH Hs Hrest).
      destruct (scanAll rest s) as [s2 acc]. simpl in *. exact IH.
    + rewrite (onScanSuccess_accept now text s t) by auto.
      specialize (IH (acceptedState now s)). simpl in IH.
      destruct (scanAll rest (acceptedState now s)) as [s2 acc]. simpl in *.
      f_equal. apply IH; [congruence|exact Hrest].
  - rewrite (onScanSuccess_first now text s) by auto.
    specialize (IH (acceptedState now s)). simpl in IH.
    destruct (scanAll rest (acceptedState now s)) as [s2 acc]. simpl in *.
    f_equal. apply IH; [congruence|exact Hrest].
Qed.

(** [scanAll] is the run in which the callback is replaced before every
    decode. *)
Lemma scanAll_recreatedEach (decodes : list (Z * string)) :
  forall seen s : ScannerState,
    scanEvents (recreatedEach decodes) seen s = scanAll decodes s.
Proof.
  induction decodes as [|[now text] rest IH]; intros seen s; [reflexivity|].
  change (recreatedEach ((now, text) :: rest))
    with (Recreate :: Decode now text :: recreatedEach rest).
  cbn [scanEvents scanAll]. unfold onScanSuccess.
  destruct (onScanSuccessOf s now text s) as [[s1 calls] timers].
  now rewrite IH.
Qed.

(** A decode that the registered callback discards leaves the whole client
    as it was. *)
Lemma onDecoded_discard (now : Z) (text : string) (sys : System) (t : Z) :
  lastScanTime (seenScanner (registered sys)) = Some t ->
  t <> 0%Z -> (now - t < 2000)%Z ->
  onDecoded now text sys = sys.
Proof.
  intros Hlast Hnz Hlt. unfold onDecoded. cbv zeta.
  rewrite (onScanSuccessOf_discard _ now text _ t Hlast Hnz Hlt). simpl.
  destruct sys as [[st ref] a w cl]. reflexivity.
Qed.

(** A decode that the registered callback accepts is handed once to the
    [handleScanSuccess] that the callback closed over. *)
Lemma onDecoded_accept (now : Z) (text : string) (sys : System) :
  (lastScanTime (seenScanner (registered sys)) = None
   \/ exists t, lastScanTime (seenScanner (registered sys)) = Some t
                /\ (2000 <= now - t)%Z) ->
  onDecoded now text sys
  = mkSystem (mkSession (acceptedState now (scannerState (session sys)))
                        (html5QrCodeRef (session sys)))
             (fst (handleScanSuccessOf (registered sys) text (app sys) (world sys)))
             (snd (handleScanSuccessOf (registered sys) text (app sys) (world sys)))
             (registered sys).
Proof.
  intros Hacc. unfold onDecoded. cbv zeta.
  rewrite (onScanSuccessOf_accept _ now text _ Hacc). cbn [fold_left fst snd].
  destruct (handleScanSuccessOf (registered sys) text (app sys) (world sys));
    reflexivity.
Qed.

(** ** Teardown of the scan session *)

Lemma stopScanner_guard_false (stops : bool) (s : Session) :
  stopGuard s = false -> stopScanner stops s = s.
Proof.
  unfold stopGuard, stopScanner. destruct (html5QrCodeRef s) as [qr|]; [|reflexivity].
  destruct (isRunning (scannerState s)); [|reflexivity].
  destruct (isScanning qr); [discriminate|reflexivity].
Qed.

Lemma stopScanner_guard_after (stops : bool) (s : Session) :
  stops = true -> stopGuard (stopScanner stops s) = false.
Proof.
  intros ->. unfold stopGuard, stopScanner.
  destruct (html5QrCodeRef s) as [qr|] eqn:Href; [|now rewrite Href].
  destruct (isRunning (scannerState s)) eqn:Hrun.
  - destruct (isScanning qr) eqn:Hscan; [reflexivity|].
    rewrite Href, Hrun, Hscan. reflexivity.
  - rewrite Href, Hrun. reflexivity.
Qed.

(** C9, as the claim states it, fails: in a session that is still starting
    (the scanner object is referenced and decodes, [isRunning] is not yet
    set) the teardown does nothing and the decode loop keeps running. *)
Lemma unmount_while_starting_keeps_loop :
  isInitializing (scannerState startingSession) = true
  /\ decodeLoopRuns startingSession = true
  /\ unmount true startingSession = startingSession
  /\ decodeLoopRuns (unmount true startingSession) = true
  /\ decodeLoopRuns (unmount true (unmount true startingSession)) = true.
Proof. repeat split. Qed.

(** C9, amended: the teardown can be invoked in every state and is
    idempotent; it stops the decode loop exactly when a scanner object is
    referenced, [isRunning] is set, the object reports [isScanning] and the
    library's [stop()] resolves, and then clears the running, initializing,
    paused and flash flags; in every other case it leaves the session as it
    is, so a loop that runs keeps running. *)
Theorem unmount_guarded_idempotent (stops : bool) (s : Session) :
  (stopGuard s = true -> stops = true ->
     decodeLoopRuns (unmount stops s) = false
     /\ isRunning (scannerState (unmount stops s)) = false
     /\ isInitializing (scannerState (unmount stops s)) = false
     /\ isPaused (scannerState (unmount stops s)) = false
     /\ flashOn (scannerState (unmount stops s)) = false
     /\ lastScanTime (scannerState (unmount stops s)) = lastScanTime (scannerState s))
  /\ (stopGuard s = false \/ stops = false -> unmount stops s = s)
  /\ unmount stops (unmount stops s) = unmount stops s
  /\ (decodeLoopRuns s = false -> decodeLoopRuns (unmount stops s) = false).
Proof.
  unfold unmount. split; [|split; [|split]].
  - intros Hg ->. unfold stopGuard in Hg. unfold stopScanner, decodeLoopRuns.
    destruct (html5QrCodeRef s) as [qr|]; [|discriminate].
    destruct (isRunning (scannerState s)); [|discriminate].
    destruct (isScanning qr); [|discriminate].
    repeat split.
  - intros [Hg| ->]; [now apply stopScanner_guard_false|].
    unfold stopScanner. destruct (html5QrCodeRef s) as [qr|]; [|reflexivity].
    destruct (isRunning (scannerState s)); [|reflexivity].
    destruct (isScanning qr); reflexivity.
  - destruct stops.
    + apply stopScanner_guard_false. now apply stopScanner_guard_after.
    + assert (H : stopScanner false s = s).
      { unfold stopScanner. destruct (html5QrCodeRef s) as [qr|]; [|reflexivity].
        destruct (isRunning (scannerState s)); [|reflexivity].
        destruct (isScanning qr); reflexivity. }
      now rewrite !H.
  - unfold decodeLoopRuns, stopScanner.
    destruct (html5QrCodeRef s) as [qr|] eqn:Href; [|now rewrite Href].
    intros Hscan. rewrite Hscan.
    destruct (isRunning (scannerState s)); rewrite Href; exact Hscan.
Qed.

Lemma unmount_guarded_idempotent_witness :
  decodeLoopRuns (unmount true pausedSession) = false
  /\ isPaused (scannerState (unmount true pausedSession)) = false
  /\ unmount true (unmount true pausedSession) = unmount true pausedSession
  /\ unmount false pausedSession = pausedSession.
Proof.
  destruct (unmount_guarded_idempotent true pausedSession) as [Hstop [_ [Hidem _]]].
  destruct (unmount_guarded_idempotent false pausedSession) as [_ [Hkeep _]].
  destruct (Hstop eq_refl eq_refl) as [Hloop [_ [_ [Hpaused _]]]].
  split; [exact Hloop|]. split; [exact Hpaused|]. split; [exact Hidem|].
  apply Hkeep. right. reflexivity.
Defined.

(** ** Attendance toggles *)

Lemma setDoc_served (id : string) (f : Fields) (merge : bool) (w : World) :
  noFault w -> setDoc id f merge w = (Fulfilled tt, afterWrite id f merge w).
Proof.
  unfold noFault, setDoc, request, afterWrite. intros Hw.
  destruct (faults w) as [|[c|] rest]; [reflexivity|contradiction|reflexivity].
Qed.

Lemma awaitRetry_first_try {A : Type} (op : World -> Settled A * World)
    (maxRetries delay : Z) (w w' : World) (v : A) :
  (0 < maxRetries)%Z ->
  op w = (Fulfilled v, w') ->
  awaitRetry op maxRetries delay w = (Fulfilled (Some v), w').
Proof.
  intros Hmax Hop. unfold awaitRetry, retryOperation.
  destruct (Z.to_nat maxRetries) as [|fuel] eqn:Hfuel; [lia|].
  rewrite (retryLoop_fulfilled op maxRetries delay fuel 0 w [] v w') by auto.
  rewrite app_nil_r. destruct w'; reflexivity.
Qed.

Lemma toggle_write (id : string) (newStatus : string) (w : World) :
  noFault w ->
  awaitRetry (setDoc id (toggleFields newStatus) true) 3 500 w
  = (Fulfilled (Some tt), afterWrite id (toggleFields newStatus) true w).
Proof.
  intros Hw. apply awaitRetry_first_try; [lia|]. now apply setDoc_served.
Qed.

Lemma find_id (id : string) (l : list Attendee) (p : Attendee) :
  find (fun q => String.eqb (p_id q) id) l = Some p -> p_id p = id.
Proof.
  intros H. apply find_some in H as [_ H]. now apply String.eqb_eq.
Qed.

(** A served toggle through either entry point writes the flipped status
    of the snapshot's element with a server timestamp. *)
Lemma toggle_served (how : EntryPoint) (id : string) (app : AppState) (w : World)
    (p : Attendee) :
  db app = true ->
  find (fun q => String.eqb (p_id q) id) (roster app) = Some p ->
  noFault w ->
  snd (toggle how id app w)
  = afterWrite id (toggleFields (flipStatus (p_status p))) true w
  /\ roster (fst (toggle how id app w)) = roster app
  /\ db (fst (toggle how id app w)) = true.
Proof.
  intros Hdb Hfind Hw. destruct how; simpl.
  - unfold handleScanSuccess. rewrite Hdb, Hfind. simpl.
    rewrite toggle_write by exact Hw. simpl. auto.
  - rewrite Hfind. unfold handleManualStatusToggle. rewrite Hdb. simpl.
    rewrite (find_id id _ p Hfind).
    rewrite toggle_write by exact Hw. simpl. auto.
Qed.

(** The element that a delivered snapshot holds for a stored document. *)
Lemma find_snapshot_list (id : string) (d : DocData) (l : list (string * DocData)) :
  NoDup (map fst l) -> In (id, d) l ->
  find (fun q => String.eqb (p_id q) id) (map toAttendee l)
  = Some (toAttendee (id, d)).
Proof.
  induction l as [|[k v] l IH]; intros Hnd Hin; [destruct Hin|].
  simpl in Hnd. apply NoDup_cons in Hnd as [Hk Hnd]. simpl.
  destruct (String.eqb_spec k id) as [->|Hne].
  - destruct Hin as [Heq|Hin]; [now inversion Heq|].
    exfalso. apply Hk. apply list_elem_of_In.
    change id with (fst (id, d)). now apply in_map.
  - destruct Hin as [Heq|Hin]; [inversion Heq; contradiction|].
    now apply IH.
Qed.

Lemma find_deliver (id : string) (d : DocData) (w : World) (app : AppState) :
  docs (remote w) !! id = Some d ->
  find (fun q => String.eqb (p_id q) id) (roster (deliver w app))
  = Some (toAttendee (id, d)).
Proof.
  intros Hd. unfold deliver, onSnapshotNext. simpl.
  apply find_snapshot_list.
  - apply NoDup_fst_map_to_list.
  - apply list_elem_of_In. now apply elem_of_map_to_list.
Qed.

Lemma flipStatus_involutive (status : string) :
  status = "present" \/ status = "absent" ->
  flipStatus (flipStatus status) = status /\ flipStatus status <> status.
Proof. intros [-> | ->]; split; vm_compute; congruence. Qed.

Lemma noFault_all_served (w : World) :
  Forall (eq None) (faults w) -> noFault w.
Proof.
  unfold noFault. intros H. destruct (faults w) as [|[c|] rest]; auto.
  inversion H; congruence.
Qed.

(** Served writes and deletes keep the timestamps of the store behind its
    clock. *)
Lemma storeOk_afterWrite (id : string) (f : Fields) (merge : bool) (w : World) :
  storeOk (remote w) -> storeOk (remote (afterWrite id f merge w)).
Proof.
  unfold storeOk. simpl. intros Hok k d t Hk Ht.
  destruct (decide (id = k)) as [->|Hne].
  - rewrite lookup_insert_eq in Hk. inversion Hk; subst d; clear Hk.
    unfold writeDoc in Ht. simpl in Ht.
    destruct (w_lastScan f) as [[|]|].
    + discriminate.
    + simpl in Ht. inversion Ht. lia.
    + destruct merge; [|discriminate].
      destruct (docs (remote w) !! k) as [old|] eqn:Hold; [|discriminate].
      simpl in Ht. specialize (Hok k old t Hold Ht). lia.
  - rewrite lookup_insert_ne in Hk by exact Hne.
    specialize (Hok k d t Hk Ht). lia.
Qed.

Lemma writes_afterWrite (id : string) (f : Fields) (merge : bool) (w : World) :
  writes (afterWrite id f merge w) = writes w ++ [CSetDoc id f merge].
Proof.
  unfold writes, afterWrite. cbn [issued]. rewrite filter_app. reflexivity.
Qed.

Lemma served_afterWrite (id : string) (f : Fields) (merge : bool) (w : World) :
  Forall (eq None) (faults w) -> Forall (eq None) (faults (afterWrite id f merge w)).
Proof.
  cbn [afterWrite faults]. intros H.
  destruct (faults w) as [|f0 rest]; [constructor|]. now inversion H.
Qed.

(** The callback's [handleScanSuccess] neither changes [db] nor [roster],
    whichever render created it. *)
Lemma handleScanSuccessOf_keeps (cl : Closure) (id : string) (app : AppState)
    (w : World) :
  db (fst (handleScanSuccessOf cl id app w)) = db app
  /\ roster (fst (handleScanSuccessOf cl id app w)) = roster app.
Proof.
  unfold handleScanSuccessOf.
  destruct (handleScanSuccess id _ w) as [a w1]. split; reflexivity.
Qed.


(** The callback of the current render is [handleScanSuccess] itself. *)
Lemma handleScanSuccessOf_current (s : Session) (id : string) (app : AppState)
    (w : World) :
  handleScanSuccessOf (closureOf s app) id app w = handleScanSuccess id app w.
Proof.
  unfold handleScanSuccessOf, closureOf. cbn [seenDb seenRoster].
  replace (mkApp (db app) (roster app) (scanMessage app) (console app)
                 (messageTimers app)) with app by now destruct app.
  unfold handleScanSuccess, setScanMessage.
  destruct (negb (db app)); [now destruct app|].
  destruct (find _ (roster app)) as [person|]; [|now destruct app].
  destruct (awaitRetry _ 3 500 w) as [[v|e] w1]; now destruct app.
Qed.


(** With the callback replaced before each of them, two decodes of one
    payload, the first being accepted, are as the debounce has it: the
    second is discarded when it comes less than 2000 ms after the first. *)
Lemma replaced_callback_two_decodes (sys : System) (t1 t2 : Z) (payload : string)
    (person : Attendee) :
  t1 <> 0%Z ->
  (lastScanTime (scannerState (session sys)) = None
   \/ exists t, lastScanTime (scannerState (session sys)) = Some t
                /\ (2000 <= t1 - t)%Z) ->
  db (app sys) = true ->
  find (fun q => String.eqb (p_id q) payload) (roster (app sys)) = Some person ->
  Forall (eq None) (faults (world sys)) ->
  let once := afterWrite payload (toggleFields (flipStatus (p_status person))) true
                         (world sys) in
  let twice := afterWrite payload (toggleFields (flipStatus (p_status person))) true
                          once in
  world (run [Registered; Decoded t1 payload; Registered] sys) = once
  /\ ((t2 - t1 < 2000)%Z ->
      run [Registered; Decoded t1 payload; Registered; Decoded t2 payload] sys
      = run [Registered; Decoded t1 payload; Registered] sys)
  /\ ((2000 <= t2 - t1)%Z ->
      world (run [Registered; Decoded t1 payload; Registered; Decoded t2 payload] sys)
      = twice).
Proof.
  intros Ht1 Hfirst Hdb Hfind Hserved. cbv zeta.
  unfold run. cbn [fold_left step].
  set (sys0 := mkSystem (session sys) (app sys) (world sys) _).
  rewrite (onDecoded_accept t1 payload sys0) by exact Hfirst.
  subst sys0. cbn [session app world registered scannerState html5QrCodeRef].
  rewrite handleScanSuccessOf_current.
  destruct (toggle_served ViaScan payload (app sys) (world sys) person Hdb Hfind
              (noFault_all_served _ Hserved)) as (Hw1 & Hr1 & Hdb1).
  cbn [toggle] in Hw1, Hr1, Hdb1.
  set (sys2 := mkSystem _ _ _ _).
  split; [exact Hw1|]. split.
  - intros Hlt. now apply (onDecoded_discard t2 payload sys2 t1).
  - intros Hge. rewrite (onDecoded_accept t2 payload sys2)
      by (right; exists t1; split; [reflexivity|exact Hge]).
    subst sys2. cbn [world app registered session].
    rewrite handleScanSuccessOf_current.
    destruct (toggle_served ViaScan payload
                (fst (handleScanSuccess payload (app sys) (world sys)))
                (snd (handleScanSuccess payload (app sys) (world sys)))
                person Hdb1) as (Hw2 & _ & _).
    + now rewrite Hr1.
    + rewrite Hw1. apply noFault_all_served. now apply served_afterWrite.
    + cbn [toggle] in Hw2. rewrite Hw2, Hw1. reflexivity.
Qed.





(** C1, as the claim states it, fails: the toggles compute the new status
    from the roster snapshot, so two toggles of an absent attendee made on
    the same snapshot (the listener has not delivered the first write yet)
    both write [present]; the status does not return to [absent].  Each of
    the two writes still carries a fresh timestamp. *)
Lemma toggle_twice_on_stale_snapshot :
  let '(app1, w1) := toggle ViaManual "RC-1001" readyApp quietWorld in
  let '(app2, w2) := toggle ViaScan "RC-1001" app1 w1 in
  In alfie (roster readyApp)
  /\ p_status alfie = "absent"
  /\ (d_status <$> docs (remote quietWorld) !! "RC-1001") = Some "absent"
  /\ (d_status <$> docs (remote w1) !! "RC-1001") = Some "present"
  /\ (d_status <$> docs (remote w2) !! "RC-1001") = Some "present"
  /\ (d_lastScan <$> docs (remote w1) !! "RC-1001") = Some (Some 10%Z)
  /\ (d_lastScan <$> docs (remote w2) !! "RC-1001") = Some (Some 11%Z).
Proof. vm_compute. repeat split; auto. Qed.

(** C1, amended: for an attendee of the roster snapshot whose status there
    is the stored one ([present] or [absent]), two toggles through any of
    the two entry points, with the listener delivering the first write to
    the snapshot before the second toggle and with the requests served,
    bring the stored status back to the original value, the status in
    between being the other one; each toggle stamps [lastScan] with the
    server time of its write, which is later than the previous [lastScan]
    both times. *)
Theorem toggle_twice_restores (how1 how2 : EntryPoint) (id : string)
    (app0 : AppState) (w0 : World) (p : Attendee) (d : DocData) :
  db app0 = true ->
  find (fun q => String.eqb (p_id q) id) (roster app0) = Some p ->
  docs (remote w0) !! id = Some d ->
  p_status p = d_status d ->
  (d_status d = "present" \/ d_status d = "absent") ->
  storeOk (remote w0) ->
  Forall (eq None) (faults w0) ->
  let '(app1, w1) := toggle how1 id app0 w0 in
  let '(app2, w2) := toggle how2 id (deliver w1 app1) w1 in
  exists d1 d2 t1 t2,
    docs (remote w1) !! id = Some d1
    /\ docs (remote w2) !! id = Some d2
    /\ d_status d1 = flipStatus (d_status d)
    /\ d_status d1 <> d_status d
    /\ d_status d2 = d_status d
    /\ d_lastScan d1 = Some t1
    /\ d_lastScan d2 = Some t2
    /\ timeBefore (d_lastScan d) t1
    /\ (t1 < t2)%Z.
Proof.
  intros Hdb Hfind Hd Hsync Hstatus Hok Hserved.
  destruct (flipStatus_involutive (d_status d) Hstatus) as [Hinv Hflip].
  destruct (toggle_served how1 id app0 w0 p Hdb Hfind (noFault_all_served w0 Hserved))
    as (Hw1 & Hr1 & Hdb1).
  destruct (toggle how1 id app0 w0) as [app1 w1]. simpl in Hw1, Hr1, Hdb1.
  set (d1 := writeDoc true (Some d) (toggleFields (flipStatus (d_status d)))
                      (clock (remote w0))).
  assert (Hd1 : docs (remote w1) !! id = Some d1).
  { rewrite Hw1. simpl. rewrite lookup_insert_eq, Hd, Hsync. reflexivity. }
  assert (Hserved1 : noFault w1).
  { rewrite Hw1. unfold noFault. simpl.
    destruct (faults w0) as [|f0 rest]; [exact I|].
    inversion Hserved as [|? ? _ Hrest]; subst.
    destruct rest as [|[c|] rest]; simpl; auto. inversion Hrest; congruence. }
  assert (Hdb1' : db (deliver w1 app1) = true) by exact Hdb1.
  destruct (toggle_served how2 id (deliver w1 app1) w1 (toAttendee (id, d1))
              Hdb1' (find_deliver id d1 w1 app1 Hd1) Hserved1) as (Hw2 & _ & _).
  destruct (toggle how2 id (deliver w1 app1) w1) as [app2 w2]. simpl in Hw2.
  exists d1,
    (writeDoc true (Some d1) (toggleFields (flipStatus (d_status d1)))
              (clock (remote w1))),
    (clock (remote w0)), (clock (remote w1)).
  split; [exact Hd1|]. split.
  { rewrite Hw2. simpl. rewrite lookup_insert_eq, Hd1. reflexivity. }
  split; [reflexivity|]. split; [exact Hflip|]. split; [exact Hinv|].
  split; [reflexivity|]. split; [reflexivity|]. split.
  - unfold timeBefore. destruct (d_lastScan d) as [t|] eqn:Ht; [|exact I].
    exact (Hok id d t Hd Ht).
  - rewrite Hw1. simpl. lia.
Qed.

Lemma toggle_twice_restores_witness :
  let '(app1, w1) := toggle ViaScan "RC-1002" readyApp quietWorld in
  let '(app2, w2) := toggle ViaManual "RC-1002" (deliver w1 app1) w1 in
  exists d1 d2 t1 t2,
    docs (remote w1) !! "RC-1002" = Some d1
    /\ docs (remote w2) !! "RC-1002" = Some d2
    /\ d_status d1 = flipStatus (d_status brendaDoc)
    /\ d_status d1 <> d_status brendaDoc
    /\ d_status d2 = d_status brendaDoc
    /\ d_lastScan d1 = Some t1
    /\ d_lastScan d2 = Some t2
    /\ timeBefore (d_lastScan brendaDoc) t1
    /\ (t1 < t2)%Z.
Proof.
  apply (toggle_twice_restores ViaScan ViaManual "RC-1002" readyApp quietWorld
           brenda brendaDoc).
  - reflexivity.
  - reflexivity.
  - reflexivity.
  - reflexivity.
  - left. reflexivity.
  - intros k d t Hk Ht.
    destruct (decide (k = "RC-1001")) as [->|Hne1].
    + vm_compute in Hk. inversion Hk; subst d. discriminate.
    + destruct (decide (k = "RC-1002")) as [->|Hne2].
      * vm_compute in Hk. inversion Hk; subst d. inversion Ht. simpl. lia.
      * unfold quietWorld, smallRemote in Hk. simpl in Hk.
        rewrite lookup_insert_ne in Hk by congruence.
        rewrite lookup_insert_ne in Hk by congruence.
        rewrite lookup_empty in Hk. discriminate.
  - constructor.
Defined.

(** ** Bulk replacement *)

(** Retrying an await of promises that have settled issues nothing and
    cannot change the outcome: a fulfilled batch is returned at once, a
    batch rejected with a transient code is awaited three times, with waits
    of [delay] and [delay * 2] in between, and then thrown. *)
Lemma awaitRetry_settled {A : Type} (batch : list (Settled A)) (delay : Z) (w : World) :
  let '(r, w') := awaitRetry (fun w => (promiseAll batch, w)) 3 delay w in
  remote w' = remote w /\ issued w' = issued w /\ faults w' = faults w
  /\ match promiseAll batch with
     | Fulfilled vs => r = Fulfilled (Some vs) /\ retryLog w' = retryLog w
     | Rejected e =>
         r = Rejected e
         /\ sleeps (retryLog w')
            = sleeps (retryLog w)
              ++ (if isTransient e then [(delay * 2 ^ 0)%Z; (delay * 2 ^ 1)%Z] else [])
     end.
Proof.
  unfold awaitRetry, retryOperation.
  change (Z.to_nat 3) with 3%nat.
  destruct (promiseAll batch) as [vs|e] eqn:Hall.
  - rewrite (retryLoop_fulfilled _ 3 delay 2 0 w [] vs w) by (auto; lia).
    simpl. rewrite app_nil_r. auto.
  - destruct (isTransient e) eqn:Ht.
    + rewrite (retryLoop_transient _ 3 delay 2 0 w [] e w) by (auto; lia).
      rewrite (retryLoop_transient _ 3 delay 1 (0 + 1) w _ e w) by (auto; lia).
      rewrite (retryLoop_last _ 3 delay 0 (0 + 1 + 1) w _ e w) by (auto; lia).
      simpl. repeat split. unfold sleeps. rewrite omap_app. reflexivity.
    + rewrite (retryLoop_permanent _ 3 delay 2 0 w [] e w) by (auto; lia).
      simpl. rewrite !app_nil_r. auto.
Qed.

(** C5 at a failing input: the store holds two documents, serves the read
    and rejects the first delete as unavailable.  The upload issues each
    delete once, waits 500 ms and 1000 ms on the same rejected promise
    without issuing anything, and ends with the critical-error message; the
    document whose delete was rejected is still stored and nothing is
    created.  The same delete placed inside the retried closure, as the
    attendance toggles place their write, is issued again after the first
    wait and succeeds. *)
Theorem executeRosterUpload_retry_reissues_nothing :
  (let '(ui', w') := executeRosterUpload true true newcomers 0 emptyUi faultyWorld in
   uploadMessage ui' = MsgCritical
   /\ issued w' = [CGetDocs; CDeleteDoc "RC-1001"; CDeleteDoc "RC-1002"]
   /\ sleeps (retryLog w') = [500; 1000]%Z
   /\ docs (remote w') !! "RC-1001" = Some alfieDoc
   /\ docs (remote w') !! "RC-2001" = None)
  /\ (let '(r, w') := awaitRetry (deleteDoc "RC-1001") 3 500 hiccupWorld in
      r = Fulfilled (Some tt)
      /\ issued w' = [CDeleteDoc "RC-1001"; CDeleteDoc "RC-1001"]
      /\ sleeps (retryLog w') = [500%Z]
      /\ docs (remote w') !! "RC-1001" = None).
Proof. vm_compute. repeat split. Qed.

Lemma perform_served (c : Call) (w : World) :
  noFault w -> perform c w = (Fulfilled tt, servedCall w c).
Proof.
  unfold noFault, servedCall. intros Hw.
  destruct c as [|id|id f merge]; simpl;
    unfold deleteDoc, setDoc, request;
    destruct (faults w) as [|[e|] rest]; try contradiction; reflexivity.
Qed.

Lemma getDocs_served (w : World) :
  noFault w ->
  getDocs w = (Fulfilled (map_to_list (docs (remote w))), servedCall w CGetDocs).
Proof.
  unfold noFault, servedCall, getDocs, request. intros Hw.
  destruct (faults w) as [|[e|] rest]; try contradiction; reflexivity.
Qed.

Lemma servedCall_faults (w : World) (c : Call) :
  Forall (eq None) (faults w) -> Forall (eq None) (faults (servedCall w c)).
Proof.
  simpl. intros H. destruct (faults w) as [|f rest]; [constructor|].
  now inversion H.
Qed.

Lemma servedCalls_faults (cs : list Call) :
  forall w, Forall (eq None) (faults w) ->
            Forall (eq None) (faults (fold_left servedCall cs w)).
Proof.
  induction cs as [|c cs IH]; intros w H; [exact H|].
  simpl. apply IH. now apply servedCall_faults.
Qed.

Lemma servedCalls_issued (cs : list Call) :
  forall w, issued (fold_left servedCall cs w) = issued w ++ cs.
Proof.
  induction cs as [|c cs IH]; intros w; simpl.
  - now rewrite app_nil_r.
  - rewrite IH. simpl. now rewrite <- app_assoc.
Qed.

Lemma servedCalls_retryLog (cs : list Call) :
  forall w, retryLog (fold_left servedCall cs w) = retryLog w.
Proof.
  induction cs as [|c cs IH]; intros w; simpl; [reflexivity|].
  now rewrite IH.
Qed.

Lemma servedCalls_remote (cs : list Call) :
  forall w, remote (fold_left servedCall cs w)
            = fold_left (fun r c => commit c r) cs (remote w).
Proof.
  induction cs as [|c cs IH]; intros w; simpl; [reflexivity|].
  now rewrite IH.
Qed.

(** A batch of requests that are all served. *)
Lemma issueAll_served (cs : list Call) :
  forall w, Forall (eq None) (faults w) ->
            issueAll (map perform cs) w
            = (map (fun _ => Fulfilled tt) cs, fold_left servedCall cs w).
Proof.
  induction cs as [|c cs IH]; intros w H; [reflexivity|].
  cbn [map issueAll fold_left].
  rewrite perform_served by now apply noFault_all_served.
  rewrite IH by now apply servedCall_faults.
  reflexivity.
Qed.

Lemma promiseAll_fulfilled {B : Type} (cs : list B) :
  promiseAll (map (fun _ => Fulfilled tt) cs) = Fulfilled (map (fun _ => tt) cs).
Proof.
  induction cs as [|c cs IH]; [reflexivity|]. simpl. now rewrite IH.
Qed.

(** The upload when every request is served: the read, then one delete
    for every document read, all issued before the batch is awaited, then
    one create for every entry, and the success message with the number of
    entries. *)
Lemma executeRosterUpload_served (dataToUpload : list Entry) (errorCount : Z)
    (ui : UploadUi) (w : World) :
  dataToUpload <> [] ->
  Forall (eq None) (faults w) ->
  executeRosterUpload true true dataToUpload errorCount ui w
  = (mkUploadUi (MsgUploaded (Z.of_nat (length dataToUpload)) errorCount) ""
                (clearTimers ui ++ [5000%Z]),
     fold_left servedCall
       (CGetDocs :: deleteCalls (map_to_list (docs (remote w)))
                 ++ createCalls dataToUpload) w).
Proof.
  intros Hne Hw. unfold executeRosterUpload. cbn [negb].
  destruct (Z.eqb_spec (Z.of_nat (length dataToUpload)) 0) as [H0|_].
  { destruct dataToUpload; [contradiction|simpl in H0; lia]. }
  rewrite getDocs_served by now apply noFault_all_served.
  set (existing := map_to_list (docs (remote w))).
  replace (map (fun d => deleteDoc (fst d)) existing)
    with (map perform (deleteCalls existing))
    by (unfold deleteCalls; now rewrite map_map).
  rewrite issueAll_served by now apply servedCall_faults.
  rewrite (awaitRetry_first_try _ 3 500 _ _ (map (fun _ => tt) (deleteCalls existing)))
    by (try lia; now rewrite promiseAll_fulfilled).
  replace (map (fun person => setDoc (entry_id person) (newMemberFields person) false)
               dataToUpload)
    with (map perform (createCalls dataToUpload))
    by (unfold createCalls; now rewrite map_map).
  rewrite issueAll_served
    by (apply servedCalls_faults; now apply servedCall_faults).
  rewrite (awaitRetry_first_try _ 3 500 _ _ (map (fun _ => tt) (createCalls dataToUpload)))
    by (try lia; now rewrite promiseAll_fulfilled).
  simpl. now rewrite fold_left_app.
Qed.

Lemma deletes_keep_none (l : list (string * DocData)) :
  forall r k, docs r !! k = None ->
              docs (fold_left (fun r c => commit c r) (deleteCalls l) r) !! k = None.
Proof.
  induction l as [|d l IH]; intros r k Hk; [exact Hk|].
  simpl. apply IH. simpl.
  destruct (decide (fst d = k)) as [->|Hne].
  - apply lookup_delete_eq.
  - now rewrite lookup_delete_ne.
Qed.

Lemma deletes_remove (l : list (string * DocData)) :
  forall r k, In k (map fst l) ->
              docs (fold_left (fun r c => commit c r) (deleteCalls l) r) !! k = None.
Proof.
  induction l as [|d l IH]; intros r k Hin; [destruct Hin|].
  simpl. destruct Hin as [<-|Hin].
  - apply deletes_keep_none. simpl. apply lookup_delete_eq.
  - now apply IH.
Qed.

(** Deleting every document that was read empties the collection. *)
Lemma deletes_empty (r : Remote) :
  docs (fold_left (fun r c => commit c r)
                  (deleteCalls (map_to_list (docs r))) (commit CGetDocs r)) = ∅.
Proof.
  apply map_eq. intros k. rewrite lookup_empty.
  destruct (docs r !! k) as [v|] eqn:Hk.
  - apply deletes_remove.
    change k with (fst (k, v)). apply in_map.
    apply list_elem_of_In. now apply elem_of_map_to_list.
  - now apply deletes_keep_none.
Qed.

Lemma commits_clock (cs : list Call) :
  forall r, clock (fold_left (fun r c => commit c r) cs r)
            = (clock r + Z.of_nat (length cs))%Z.
Proof.
  induction cs as [|c cs IH]; intros r; simpl length; [simpl; lia|].
  cbn [fold_left]. rewrite IH. destruct c; simpl; lia.
Qed.

Lemma creates_keep_others (data : list Entry) :
  forall r k, ~ In k (map entry_id data) ->
              docs (fold_left (fun r c => commit c r) (createCalls data) r) !! k
              = docs r !! k.
Proof.
  induction data as [|e data IH]; intros r k Hk; [reflexivity|].
  simpl. rewrite IH by (intros H; apply Hk; now right).
  simpl. apply lookup_insert_ne. intros Heq. apply Hk. now left.
Qed.

Lemma creates_store (data : list Entry) :
  forall r e, In e data ->
    exists d,
      docs (fold_left (fun r c => commit c r) (createCalls data) r) !! entry_id e
      = Some d
      /\ newMember r (fold_left (fun r c => commit c r) (createCalls data) r) d.
Proof.
  induction data as [|e0 data IH]; intros r e Hin; [destruct Hin|].
  change (createCalls (e0 :: data))
    with (CSetDoc (entry_id e0) (newMemberFields e0) false :: createCalls data).
  cbn [fold_left].
  set (r1 := commit (CSetDoc (entry_id e0) (newMemberFields e0) false) r).
  assert (Hr1 : clock r1 = (clock r + 1)%Z) by reflexivity.
  assert (Hlook : docs r1 !! entry_id e0
                  = Some (writeDoc false (docs r !! entry_id e0)
                                   (newMemberFields e0) (clock r)))
    by (subst r1; simpl; apply lookup_insert_eq).
  assert (Hclock : (clock r1 <= clock (fold_left (fun r c => commit c r)
                                                 (createCalls data) r1))%Z)
    by (rewrite commits_clock; lia).
  clearbody r1.
  assert (Hlater : forall e', In e' data ->
            exists d,
              docs (fold_left (fun r c => commit c r) (createCalls data) r1)
                !! entry_id e' = Some d
              /\ newMember r (fold_left (fun r c => commit c r)
                                        (createCalls data) r1) d).
  { intros e' He'. destruct (IH r1 e' He') as (d & Hd & Hs & Hl & t & Ht & Hb).
    exists d. split; [exact Hd|]. split; [exact Hs|]. split; [exact Hl|].
    exists t. split; [exact Ht|]. lia. }
  destruct (in_dec string_dec (entry_id e) (map entry_id data)) as [Hdup|Hfresh].
  - apply in_map_iff in Hdup as (e' & Hid & He'). rewrite <- Hid.
    now apply Hlater.
  - destruct Hin as [->|Hin]; [|exfalso; apply Hfresh; now apply in_map].
    rewrite creates_keep_others by exact Hfresh.
    rewrite Hlook. eexists. split; [reflexivity|].
    split; [reflexivity|]. split; [reflexivity|].
    exists (clock r). split; [reflexivity|]. lia.
Qed.

(** After a served upload the collection holds exactly the new members:
    every entry has a document, absent and never scanned, created during
    the upload, and no other document is left. *)
Lemma executeRosterUpload_replaces (dataToUpload : list Entry) (errorCount : Z)
    (ui : UploadUi) (w : World) :
  dataToUpload <> [] ->
  Forall (eq None) (faults w) ->
  let w' := snd (executeRosterUpload true true dataToUpload errorCount ui w) in
  (forall e, In e dataToUpload ->
             exists d, docs (remote w') !! entry_id e = Some d
                       /\ newMember (remote w) (remote w') d)
  /\ (forall k, ~ In k (map entry_id dataToUpload) -> docs (remote w') !! k = None).
Proof.
  intros Hne Hw. rewrite executeRosterUpload_served by assumption.
  cbv zeta. cbn [snd]. rewrite servedCalls_remote.
  cbn [fold_left]. rewrite fold_left_app.
  set (r1 := fold_left (fun r c => commit c r)
                       (deleteCalls (map_to_list (docs (remote w))))
                       (commit CGetDocs (remote w))).
  assert (Hempty : docs r1 = ∅) by apply deletes_empty.
  assert (Hc1 : (clock (remote w) <= clock r1)%Z).
  { subst r1. rewrite commits_clock. simpl. lia. }
  split.
  - intros e He. destruct (creates_store dataToUpload r1 e He)
      as (d & Hd & Hs & Hl & t & Ht & Hb).
    exists d. split; [exact Hd|]. split; [exact Hs|]. split; [exact Hl|].
    exists t. split; [exact Ht|]. lia.
  - intros k Hk. rewrite creates_keep_others by exact Hk.
    rewrite Hempty. apply lookup_empty.
Qed.

(** * Further properties of the code *)

(** ** The retry wrapper in general *)

Lemma sleeps_backoffLog (delay i : Z) (k : nat) :
  sleeps (backoffLog delay i k) = backoffs delay i k.
Proof.
  revert i. induction k as [|k IH]; intros i; [reflexivity|].
  simpl. unfold sleeps in *. simpl. now rewrite IH.
Qed.

Lemma sum_backoffs (delay : Z) (k : nat) :
  forall i, (0 <= i)%Z ->
            sumZ (backoffs delay i k) = (delay * 2 ^ i * (2 ^ Z.of_nat k - 1))%Z.
Proof.
  induction k as [|k IH]; intros i Hi.
  - simpl. lia.
  - cbn [backoffs sumZ fold_right]. fold (sumZ (backoffs delay (i + 1) k)).
    rewrite IH by lia. rewrite Nat2Z.inj_succ, Z.pow_succ_r by lia.
    rewrite Z.pow_add_r by lia. change (2 ^ 1)%Z with 2%Z. ring.
Qed.

Lemma length_backoffs (delay : Z) (k : nat) :
  forall i, length (backoffs delay i k) = k.
Proof.
  induction k as [|k IH]; intros i; [reflexivity|].
  cbn [backoffs length]. now rewrite IH.
Qed.

Section RetryRuns.
Context {W A : Type}.
Variable operation : W -> Settled A * W.
Variables maxRetries delay : Z.

(** A run of transient rejections that stays before the last attempt is
    waited through, one backoff per rejection. *)
Lemma retryLoop_rejectedRun (rs : list (JsError * W)) :
  forall (fuel : nat) (i : Z) (w : W) (log : list RetryEvent),
    rejectedRun operation w rs ->
    (i + Z.of_nat (length rs) < maxRetries)%Z ->
    retryLoop operation maxRetries delay (length rs + fuel) i w log
    = retryLoop operation maxRetries delay fuel (i + Z.of_nat (length rs))
        (worldAfter w rs) (log ++ backoffLog delay i (length rs)).
Proof.
  induction rs as [|[e w'] rs IH]; intros fuel i w log Hrun Hlt.
  - simpl. now rewrite Z.add_0_r, app_nil_r.
  - destruct Hrun as (Hop & Ht & Hrest).
    cbn [length Nat.add worldAfter backoffLog].
    rewrite (retryLoop_transient operation maxRetries delay _ i w log e w')
      by (auto; simpl length in Hlt; lia).
    rewrite IH by (auto; simpl length in Hlt; lia).
    rewrite <- app_assoc. simpl length.
    replace (i + 1 + Z.of_nat (length rs))%Z with (i + Z.of_nat (S (length rs)))%Z by lia.
    reflexivity.
Qed.
End RetryRuns.

(** X1: an operation rejected with transient codes on its first [k]
    attempts, [k] below the number of attempts allowed, and fulfilled on the
    next one makes [retryOperation] return that value, in the world the
    fulfilled attempt leaves, after the waits [delay * 2 ^ 0], ...,
    [delay * 2 ^ (k - 1)] in this order and no other. *)
Theorem retryOperation_succeeds_after {W A : Type}
    (operation : W -> Settled A * W) (maxRetries delay : Z)
    (w w' : W) (rs : list (JsError * W)) (v : A) :
  rejectedRun operation w rs ->
  (Z.of_nat (length rs) < maxRetries)%Z ->
  operation (worldAfter w rs) = (Fulfilled v, w') ->
  retryOperation operation maxRetries delay w
  = (Fulfilled (Some v), backoffLog delay 0 (length rs), w')
  /\ sleeps (backoffLog delay 0 (length rs)) = backoffs delay 0 (length rs)
  /\ length (backoffs delay 0 (length rs)) = length rs.
Proof.
  intros Hrun Hlt Hop. split; [|split].
  - unfold retryOperation.
    destruct (Z.to_nat maxRetries - length rs)%nat as [|fuel] eqn:Hfuel; [lia|].
    replace (Z.to_nat maxRetries) with (length rs + S fuel)%nat by lia.
    rewrite (retryLoop_rejectedRun operation maxRetries delay rs (S fuel) 0 w [])
      by (auto; lia).
    rewrite (retryLoop_fulfilled operation maxRetries delay fuel _ _ _ v w')
      by (auto; lia).
    reflexivity.
  - apply sleeps_backoffLog.
  - apply length_backoffs.
Qed.

Lemma retryOperation_succeeds_after_witness :
  retryOperation flaky 5 1000 0%nat
  = (Fulfilled (Some "ok"), backoffLog 1000 0 2, 3%nat)
  /\ sleeps (backoffLog 1000 0 2) = backoffs 1000 0 2
  /\ length (backoffs 1000 0 2) = 2%nat.
Proof.
  apply (retryOperation_succeeds_after flaky 5 1000 0%nat 3%nat
           [(errUnavailable, 1%nat); (errUnavailable, 2%nat)] "ok").
  - simpl. repeat split.
  - simpl. lia.
  - reflexivity.
Defined.

(** X2: when the first [maxRetries - 1] attempts are rejected with
    transient codes and the last attempt is rejected too, with whatever
    code, [retryOperation] throws the last attempt's error; it has waited
    [delay * 2 ^ i] after attempt [i] for every attempt but the last, which
    adds up to [delay * (2 ^ (maxRetries - 1) - 1)]. *)
Theorem retryOperation_exhausted {W A : Type}
    (operation : W -> Settled A * W) (maxRetries delay : Z)
    (w w' : W) (rs : list (JsError * W)) (e : JsError) :
  rejectedRun operation w rs ->
  Z.of_nat (length rs) = (maxRetries - 1)%Z ->
  operation (worldAfter w rs) = (Rejected e, w') ->
  retryOperation operation maxRetries delay w
  = (Rejected e, backoffLog delay 0 (length rs) ++ [GaveUp maxRetries], w')
  /\ sleeps (backoffLog delay 0 (length rs) ++ [GaveUp maxRetries])
     = backoffs delay 0 (length rs)
  /\ sumZ (backoffs delay 0 (length rs))
     = (delay * (2 ^ (maxRetries - 1) - 1))%Z.
Proof.
  intros Hrun Hlen Hop. split; [|split].
  - unfold retryOperation.
    replace (Z.to_nat maxRetries) with (length rs + 1)%nat by lia.
    rewrite (retryLoop_rejectedRun operation maxRetries delay rs 1 0 w [])
      by (auto; lia).
    rewrite (retryLoop_last operation maxRetries delay 0 _ _ _ e w')
      by (auto; lia).
    reflexivity.
  - unfold sleeps. rewrite omap_app. simpl. rewrite app_nil_r.
    apply sleeps_backoffLog.
  - rewrite sum_backoffs by lia. rewrite Hlen. simpl (2 ^ 0)%Z. ring.
Qed.

Lemma retryOperation_exhausted_witness :
  retryOperation flaky 2 1000 0%nat
  = (Rejected errUnavailable, backoffLog 1000 0 1 ++ [GaveUp 2], 2%nat)
  /\ sleeps (backoffLog 1000 0 1 ++ [GaveUp 2]) = backoffs 1000 0 1
  /\ sumZ (backoffs 1000 0 1) = (1000 * (2 ^ (2 - 1) - 1))%Z.
Proof.
  apply (retryOperation_exhausted flaky 2 1000 0%nat 2%nat
           [(errUnavailable, 1%nat)] errUnavailable).
  - simpl. repeat split.
  - reflexivity.
  - reflexivity.
Defined.

(** X3: a rejection whose code is neither [permission-denied] nor
    [unavailable] is thrown by [retryOperation] at the first attempt, for
    every number of attempts allowed (at least one): the operation has run
    once and nothing was waited. *)
Theorem retryOperation_permanent_error {W A : Type}
    (operation : W -> Settled A * W) (maxRetries delay : Z)
    (w w' : W) (e : JsError) :
  (1 <= maxRetries)%Z ->
  isTransient e = false ->
  operation w = (Rejected e, w') ->
  exists log,
    retryOperation operation maxRetries delay w = (Rejected e, log, w')
    /\ sleeps log = [].
Proof.
  intros Hmax Ht Hop. unfold retryOperation.
  destruct (Z.to_nat maxRetries) as [|fuel] eqn:Hfuel; [lia|].
  destruct (Z.eq_dec maxRetries 1) as [H1|H1].
  - exists [GaveUp maxRetries]. split; [|reflexivity].
    now rewrite (retryLoop_last operation maxRetries delay fuel 0 w [] e w')
      by (auto; lia).
  - exists []. split; [|reflexivity].
    now rewrite (retryLoop_permanent operation maxRetries delay fuel 0 w [] e w')
      by (auto; lia).
Qed.

Lemma retryOperation_permanent_error_witness :
  exists log,
    retryOperation (fun n : nat => (@Rejected string errNotFound, S n)) 5 1000 0%nat
    = (Rejected errNotFound, log, 1%nat)
    /\ sleeps log = [].
Proof.
  apply (retryOperation_permanent_error
           (fun n : nat => (@Rejected string errNotFound, S n)) 5 1000 0%nat 1%nat
           errNotFound).
  - lia.
  - reflexivity.
  - reflexivity.
Defined.

Lemma retryLoop_calls {W A : Type} (operation : W -> Settled A * W)
    (maxRetries delay : Z) (calls : W -> nat) :
  (forall w, calls (snd (operation w)) = S (calls w)) ->
  forall (fuel : nat) (i : Z) (w : W) (log : list RetryEvent),
    (calls (snd (retryLoop operation maxRetries delay fuel i w log))
     <= calls w + Z.to_nat (maxRetries - i))%nat.
Proof.
  intros Hcalls. induction fuel as [|fuel IH]; intros i w log.
  - simpl. lia.
  - rewrite retryLoop_S.
    destruct (Z.ltb_spec i maxRetries) as [Hlt|Hge]; [|simpl; lia].
    specialize (Hcalls w). destruct (operation w) as [[v|e] w1]; simpl in Hcalls.
    + simpl. lia.
    + destruct (isTransient e || (i =? maxRetries - 1)%Z).
      * destruct (i =? maxRetries - 1)%Z; [simpl; lia|].
        specialize (IH (i + 1)%Z w1
                       (log ++ [Warned (i + 1) (delay * 2 ^ i); Slept (delay * 2 ^ i)])).
        lia.
      * simpl. lia.
Qed.

(** X4: [retryOperation] never runs the operation more than [maxRetries]
    times, whatever the operation does; with [maxRetries] zero or negative
    it does not run it at all and resolves to [undefined]. *)
Theorem retryOperation_attempts_bounded {W A : Type}
    (operation : W -> Settled A * W) (maxRetries delay : Z)
    (calls : W -> nat) (w : W) :
  (forall w, calls (snd (operation w)) = S (calls w)) ->
  (calls (snd (retryOperation operation maxRetries delay w))
   <= calls w + Z.to_nat maxRetries)%nat
  /\ ((maxRetries <= 0)%Z ->
      retryOperation operation maxRetries delay w = (Fulfilled None, [], w)).
Proof.
  intros Hcalls. split.
  - unfold retryOperation.
    pose proof (retryLoop_calls operation maxRetries delay calls Hcalls
                  (Z.to_nat maxRetries) 0 w []) as H.
    now rewrite Z.sub_0_r in H.
  - intros Hle. unfold retryOperation.
    replace (Z.to_nat maxRetries) with 0%nat by lia. reflexivity.
Qed.

Lemma retryOperation_attempts_bounded_witness :
  (snd (retryOperation flaky 2 1000 0%nat) <= 0 + Z.to_nat 2)%nat
  /\ ((2 <= 0)%Z -> retryOperation flaky 2 1000 0%nat = (Fulfilled None, [], 0%nat)).
Proof.
  apply (retryOperation_attempts_bounded flaky 2 1000 (fun n => n) 0%nat).
  intros n. unfold flaky. destruct (Nat.ltb n 2); reflexivity.
Defined.

(** ** Strings *)

Lemma append_cons (c : ascii) (a b : string) :
  String c a +:+ b = String c (a +:+ b).
Proof. reflexivity. Qed.

Lemma append_empty_l (b : string) : EmptyString +:+ b = b.
Proof. reflexivity. Qed.

Lemma rev_onto_rev_onto (s a b : string) :
  Js.rev_onto (Js.rev_onto s a) b = Js.rev_onto a (s +:+ b).
Proof.
  revert a b. induction s as [|c r IH]; intros a b; [reflexivity|].
  cbn [Js.rev_onto]. rewrite IH, append_cons. reflexivity.
Qed.

Lemma append_empty_r (s : string) : s +:+ EmptyString = s.
Proof.
  induction s as [|c r IH]; [reflexivity|]. now rewrite append_cons, IH.
Qed.

Lemma append_assoc (a b c : string) : (a +:+ b) +:+ c = a +:+ (b +:+ c).
Proof.
  induction a as [|x a IH]; [reflexivity|]. now rewrite !append_cons, IH.
Qed.

Lemma rev_involutive (s : string) : Js.rev (Js.rev s) = s.
Proof.
  unfold Js.rev. rewrite rev_onto_rev_onto. cbn [Js.rev_onto].
  apply append_empty_r.
Qed.

Lemma rev_onto_append (s : string) :
  forall acc, Js.rev_onto s acc = Js.rev s +:+ acc.
Proof.
  unfold Js.rev. induction s as [|c r IH]; intros acc; [reflexivity|].
  cbn [Js.rev_onto]. rewrite IH, (IH (String c EmptyString)), append_assoc.
  reflexivity.
Qed.

Lemma rev_cons (c : ascii) (s : string) :
  Js.rev (String c s) = Js.rev s +:+ String c EmptyString.
Proof. unfold Js.rev at 1. cbn [Js.rev_onto]. apply rev_onto_append. Qed.

Lemma rev_append (a b : string) : Js.rev (a +:+ b) = Js.rev b +:+ Js.rev a.
Proof.
  induction a as [|c a IH].
  - rewrite append_empty_l. change (Js.rev EmptyString) with EmptyString.
    now rewrite append_empty_r.
  - rewrite append_cons, !rev_cons, IH, append_assoc. reflexivity.
Qed.

Lemma rev_empty_inv (s : string) : Js.rev s = EmptyString -> s = EmptyString.
Proof. intros H. rewrite <- (rev_involutive s), H. reflexivity. Qed.

Lemma length_append (a b : string) :
  String.length (a +:+ b) = (String.length a + String.length b)%nat.
Proof.
  induction a as [|c a IH]; [reflexivity|]. rewrite append_cons.
  cbn [String.length]. now rewrite IH.
Qed.

Lemma blank_append (a b : string) : blank (a +:+ b) = blank a && blank b.
Proof.
  induction a as [|c a IH]; [reflexivity|]. rewrite append_cons.
  cbn [blank]. rewrite IH. now rewrite andb_assoc.
Qed.

Lemma blank_rev (s : string) : blank (Js.rev s) = blank s.
Proof.
  induction s as [|c r IH]; [reflexivity|].
  rewrite rev_cons, blank_append, IH. cbn [blank].
  rewrite andb_true_r. apply andb_comm.
Qed.

Lemma high_spaceByte (c : ascii) : (128 <= Js.code c)%nat -> spaceByte c = true.
Proof.
  intros H. unfold spaceByte. apply Nat.leb_le in H. rewrite H.
  apply orb_true_r.
Qed.

Lemma spaceByte_ascii (c : ascii) :
  (Js.code c < 128)%nat -> spaceByte c = true -> Js.isAsciiSpace c = true.
Proof.
  intros Hlt H. unfold spaceByte in H. apply orb_prop in H as [H|H]; [exact H|].
  apply Nat.leb_le in H. lia.
Qed.

Section StripFacts.

Variable one : ascii -> bool.
Variable two : ascii -> ascii -> bool.
Variable three : ascii -> ascii -> ascii -> bool.

Hypothesis one_space : forall c, one c = true -> spaceByte c = true.
Hypothesis two_high :
  forall c d, two c d = true -> (128 <= Js.code c)%nat /\ (128 <= Js.code d)%nat.
Hypothesis three_high :
  forall c d e, three c d e = true ->
                (128 <= Js.code c)%nat /\ (128 <= Js.code d)%nat
                /\ (128 <= Js.code e)%nat.

Lemma stripLeading_eq (s : string) :
  Js.stripLeading one two three s
  = match Js.dropLeading one two three s with
    | Some r => Js.stripLeading one two three r
    | None => s
    end.
Proof.
  destruct s as [|c s]; [reflexivity|]. cbn [Js.stripLeading Js.dropLeading].
  destruct (one c); [reflexivity|].
  destruct s as [|d s]; [reflexivity|]. destruct (two c d); [reflexivity|].
  destruct s as [|e s]; [reflexivity|]. destruct (three c d e); reflexivity.
Qed.

(** What is dropped is one to three bytes that white space can contain. *)
Lemma dropLeading_split (s r : string) :
  Js.dropLeading one two three s = Some r ->
  exists w, s = w +:+ r /\ blank w = true /\ w <> EmptyString.
Proof.
  destruct s as [|c s]; [discriminate|]. cbn [Js.dropLeading].
  destruct (one c) eqn:Hc.
  { intros [= <-]. exists (String c EmptyString). cbn [blank].
    rewrite (one_space c Hc). split; [reflexivity|]. split; [reflexivity|discriminate]. }
  destruct s as [|d s]; [discriminate|].
  destruct (two c d) eqn:Hcd.
  { intros [= <-]. destruct (two_high c d Hcd) as [H1 H2].
    exists (String c (String d EmptyString)). cbn [blank].
    rewrite (high_spaceByte c H1), (high_spaceByte d H2).
    split; [reflexivity|]. split; [reflexivity|discriminate]. }
  destruct s as [|e s]; [discriminate|].
  destruct (three c d e) eqn:Hcde; [|discriminate].
  intros [= <-]. destruct (three_high c d e Hcde) as (H1 & H2 & H3).
  exists (String c (String d (String e EmptyString))). cbn [blank].
  rewrite (high_spaceByte c H1), (high_spaceByte d H2), (high_spaceByte e H3).
  split; [reflexivity|]. split; [reflexivity|discriminate].
Qed.

(** What is stripped is made of bytes that white space can contain, and
    what is left does not start with a recognised code point. *)
Lemma stripLeading_split (s : string) :
  exists ws, s = ws +:+ Js.stripLeading one two three s /\ blank ws = true
             /\ Js.dropLeading one two three (Js.stripLeading one two three s) = None.
Proof.
  remember (String.length s) as n eqn:Hn. revert s Hn.
  induction n as [n IH] using lt_wf_ind. intros s Hn.
  rewrite stripLeading_eq.
  destruct (Js.dropLeading one two three s) as [r|] eqn:Hd.
  - destruct (dropLeading_split s r Hd) as (w & Heq & Hw & Hne).
    assert (Hlt : (String.length r < n)%nat).
    { rewrite Hn, Heq, length_append. destruct w; [congruence|].
      cbn [String.length]. lia. }
    destruct (IH (String.length r) Hlt r eq_refl) as (ws & Heq2 & Hws & Hres).
    exists (w +:+ ws). rewrite append_assoc, <- Heq2, blank_append, Hw, Hws.
    auto.
  - exists EmptyString. auto.
Qed.

Lemma stripLeading_clean (s : string) :
  Js.dropLeading one two three s = None -> Js.stripLeading one two three s = s.
Proof. intros H. now rewrite stripLeading_eq, H. Qed.

(** Whether a string starts with a recognised code point is decided by the
    string's first three bytes. *)
Lemma dropLeading_append (a b r : string) :
  Js.dropLeading one two three a = Some r ->
  Js.dropLeading one two three (a +:+ b) = Some (r +:+ b).
Proof.
  destruct a as [|c a]; [discriminate|]. rewrite append_cons.
  cbn [Js.dropLeading]. destruct (one c).
  { now intros [= <-]. }
  destruct a as [|d a]; [discriminate|]. rewrite append_cons.
  destruct (two c d).
  { now intros [= <-]. }
  destruct a as [|e a]; [discriminate|]. rewrite append_cons.
  destruct (three c d e); [|discriminate]. now intros [= <-].
Qed.

(** A string that does not start with a recognised code point does not
    start with one either when an ASCII byte and more text follow it. *)
Lemma dropLeading_sep (a b : string) (sep : ascii) :
  Js.dropLeading one two three a = None -> a <> EmptyString ->
  (Js.code sep < 128)%nat ->
  Js.dropLeading one two three (a +:+ String sep b) = None.
Proof.
  intros Ha Hne Hsep. destruct a as [|c a]; [congruence|].
  rewrite append_cons. cbn [Js.dropLeading] in *.
  destruct (one c); [discriminate|].
  assert (H2 : forall x, two x sep = false).
  { intros x. destruct (two x sep) eqn:H; [|reflexivity].
    apply two_high in H. lia. }
  assert (H3 : forall x y, three x sep y = false).
  { intros x y. destruct (three x sep y) eqn:H; [|reflexivity].
    apply three_high in H. lia. }
  assert (H3' : forall x y, three x y sep = false).
  { intros x y. destruct (three x y sep) eqn:H; [|reflexivity].
    apply three_high in H. lia. }
  destruct a as [|d a].
  { rewrite append_empty_l, H2. destruct b; [reflexivity|]. now rewrite H3. }
  rewrite append_cons. destruct (two c d); [discriminate|].
  destruct a as [|e a].
  { rewrite append_empty_l. now rewrite H3'. }
  rewrite append_cons. destruct (three c d e); [discriminate|reflexivity].
Qed.

End StripFacts.

Lemma isAsciiSpace_spaceByte (c : ascii) :
  Js.isAsciiSpace c = true -> spaceByte c = true.
Proof. intros H. unfold spaceByte. now rewrite H. Qed.

Lemma isSpace2_high (c d : ascii) :
  Js.isSpace2 c d = true -> (128 <= Js.code c)%nat /\ (128 <= Js.code d)%nat.
Proof.
  unfold Js.isSpace2. intros H. apply andb_prop in H as [H1 H2].
  apply Nat.eqb_eq in H1, H2. lia.
Qed.

Lemma isSpace3_high (c d e : ascii) :
  Js.isSpace3 c d e = true ->
  (128 <= Js.code c)%nat /\ (128 <= Js.code d)%nat /\ (128 <= Js.code e)%nat.
Proof.
  unfold Js.isSpace3. cbv zeta. intros H.
  repeat match goal with
         | H : (_ || _)%bool = true |- _ => apply orb_prop in H as [H|H]
         | H : (_ && _)%bool = true |- _ =>
             let H1 := fresh in let H2 := fresh in
             apply andb_prop in H as [H1 H2]
         | H : Nat.eqb _ _ = true |- _ => apply Nat.eqb_eq in H
         | H : Nat.leb _ _ = true |- _ => apply Nat.leb_le in H
         end; lia.
Qed.

Lemma isSpace2_high_end (z y : ascii) :
  Js.isSpace2 y z = true -> (128 <= Js.code z)%nat /\ (128 <= Js.code y)%nat.
Proof. intros H. apply isSpace2_high in H. tauto. Qed.

Lemma isSpace3_high_end (z y x : ascii) :
  Js.isSpace3 x y z = true ->
  (128 <= Js.code z)%nat /\ (128 <= Js.code y)%nat /\ (128 <= Js.code x)%nat.
Proof. intros H. apply isSpace3_high in H. tauto. Qed.

(** What [trimStart] removes is made of bytes that white space can contain,
    and what it leaves does not start with white space. *)
Lemma trimStart_split (s : string) :
  exists ws, s = ws +:+ Js.trimStart s /\ blank ws = true
             /\ Js.dropSpace (Js.trimStart s) = None.
Proof.
  exact (stripLeading_split _ _ _ isAsciiSpace_spaceByte isSpace2_high
                            isSpace3_high s).
Qed.

(** The same at the other end. *)
Lemma trimEnd_split (s : string) :
  exists ws, s = Js.trimEnd s +:+ ws /\ blank ws = true
             /\ Js.dropSpaceEnd (Js.rev (Js.trimEnd s)) = None.
Proof.
  destruct (stripLeading_split _ _ _ isAsciiSpace_spaceByte isSpace2_high_end
                               isSpace3_high_end (Js.rev s))
    as (ws & Heq & Hws & Hres).
  exists (Js.rev ws). unfold Js.trimEnd. rewrite rev_involutive, blank_rev.
  split; [|split; assumption].
  rewrite <- rev_append, <- Heq. symmetry. apply rev_involutive.
Qed.

Lemma trim_empty_inv (s : string) : Js.trim s = EmptyString -> blank s = true.
Proof.
  unfold Js.trim. intros H.
  destruct (trimStart_split s) as (ws & Heq & Hws & _).
  destruct (trimEnd_split (Js.trimStart s)) as (ws2 & Heq2 & Hws2 & _).
  rewrite H, append_empty_l in Heq2.
  rewrite Heq, blank_append, Hws, Heq2, Hws2. reflexivity.
Qed.

Lemma startsClean_inv (s : string) :
  startsClean s = true -> s <> EmptyString /\ Js.dropSpace s = None.
Proof.
  destruct s as [|c r]; [discriminate|]. unfold startsClean.
  destruct (Js.dropSpace (String c r)); [discriminate|]. split; congruence.
Qed.

Lemma startsClean_intro (s : string) :
  s <> EmptyString -> Js.dropSpace s = None -> startsClean s = true.
Proof.
  intros Hne H. destruct s as [|c r]; [congruence|]. unfold startsClean.
  now rewrite H.
Qed.

Lemma endsClean_inv (s : string) :
  endsClean s = true -> s <> EmptyString /\ Js.dropSpaceEnd (Js.rev s) = None.
Proof.
  unfold endsClean. destruct (Js.rev s) as [|c r] eqn:Hr; [discriminate|].
  destruct (Js.dropSpaceEnd (String c r)); [discriminate|]. intros _.
  split; [|reflexivity]. intros ->. discriminate Hr.
Qed.

Lemma endsClean_intro (s : string) :
  s <> EmptyString -> Js.dropSpaceEnd (Js.rev s) = None -> endsClean s = true.
Proof.
  intros Hne H. unfold endsClean. rewrite H.
  destruct (Js.rev s) as [|c r] eqn:Hr; [|reflexivity].
  apply rev_empty_inv in Hr. congruence.
Qed.

Lemma trim_tidy (s : string) : tidy s = true -> Js.trim s = s.
Proof.
  unfold tidy. intros H. apply andb_prop in H as [Hs He].
  apply startsClean_inv in Hs as [_ Hs]. apply endsClean_inv in He as [_ He].
  unfold Js.trim, Js.trimEnd, Js.trimStart.
  rewrite (stripLeading_clean _ _ _ s Hs), (stripLeading_clean _ _ _ _ He).
  apply rev_involutive.
Qed.

(** The result of [trim] is empty or tidy. *)
Lemma trim_result (s : string) : Js.trim s = EmptyString \/ tidy (Js.trim s) = true.
Proof.
  unfold Js.trim.
  destruct (trimStart_split s) as (_ & _ & _ & Ht).
  set (t := Js.trimStart s) in *.
  destruct (trimEnd_split t) as (ws & Heq & Hws & Hu).
  destruct (Js.trimEnd t) as [|c r] eqn:Hr; [now left|]. right.
  rewrite <- Hr in *. unfold tidy.
  rewrite (endsClean_intro (Js.trimEnd t)) by (congruence || exact Hu).
  rewrite andb_true_r. apply startsClean_intro; [congruence|].
  destruct (Js.dropSpace (Js.trimEnd t)) as [q|] eqn:Hq; [|reflexivity].
  apply (dropLeading_append _ _ _ _ ws) in Hq.
  fold Js.dropSpace in Hq. rewrite <- Heq in Hq. congruence.
Qed.

(** A string that is clean at the front stays so when an ASCII byte and
    more text follow it; the same at the other end. *)
Lemma startsClean_sep (a b : string) (sep : ascii) :
  startsClean a = true -> (Js.code sep < 128)%nat ->
  startsClean (a +:+ String sep b) = true.
Proof.
  intros Ha Hsep. apply startsClean_inv in Ha as [Hne Ha].
  apply startsClean_intro.
  - destruct a; [congruence|discriminate].
  - exact (dropLeading_sep _ _ _ isSpace2_high isSpace3_high a b sep Ha Hne Hsep).
Qed.

Lemma endsClean_sep (a b : string) (sep : ascii) :
  endsClean b = true -> (Js.code sep < 128)%nat ->
  endsClean (a +:+ String sep b) = true.
Proof.
  intros Hb Hsep. apply endsClean_inv in Hb as [Hne Hb].
  assert (Hrev : Js.rev (a +:+ String sep b) = Js.rev b +:+ String sep (Js.rev a)).
  { rewrite rev_append, rev_cons, append_assoc. reflexivity. }
  apply endsClean_intro.
  - destruct a; discriminate.
  - rewrite Hrev.
    apply (dropLeading_sep _ _ _ isSpace2_high_end isSpace3_high_end); auto.
    intros H. apply rev_empty_inv in H. congruence.
Qed.

Lemma lacks_append (c : ascii) (a b : string) :
  lacks c (a +:+ b) = lacks c a && lacks c b.
Proof.
  induction a as [|x a IH]; [reflexivity|]. rewrite append_cons.
  cbn [lacks]. rewrite IH. now rewrite andb_assoc.
Qed.

Lemma split_lacks (sep : ascii) (s : string) :
  lacks sep s = true -> Js.split sep s = [s].
Proof.
  induction s as [|c r IH]; [reflexivity|]. cbn [lacks Js.split].
  intros H. apply andb_prop in H as [Hc Hr].
  apply negb_true_iff in Hc. rewrite Hc, (IH Hr). reflexivity.
Qed.

Lemma split_append (sep : ascii) (a b : string) :
  lacks sep a = true ->
  Js.split sep (a +:+ String sep b) = a :: Js.split sep b.
Proof.
  induction a as [|c a IH]; intros H.
  - rewrite append_empty_l. cbn [Js.split]. now rewrite Ascii.eqb_refl.
  - cbn [lacks] in H. apply andb_prop in H as [Hc Ha].
    apply negb_true_iff in Hc. rewrite append_cons. cbn [Js.split].
    rewrite Hc, (IH Ha). reflexivity.
Qed.

Lemma blank_lacks_comma (s : string) : blank s = true -> lacks ","%char s = true.
Proof.
  induction s as [|c r IH]; [reflexivity|]. cbn [blank lacks].
  intros H. apply andb_prop in H as [Hc Hr]. rewrite (IH Hr), andb_true_r.
  destruct (Ascii.eqb_spec c ","%char) as [->|]; [|reflexivity].
  vm_compute in Hc. discriminate Hc.
Qed.

Lemma tidy_truthy (s : string) : tidy s = true -> Js.truthy s = true.
Proof. destruct s; [discriminate|reflexivity]. Qed.

Lemma cleanParts_pair (id name : string) :
  tidy id = true -> tidy name = true ->
  lacks ","%char id = true -> lacks ","%char name = true ->
  cleanParts (id +:+ String ","%char name) = [id; name].
Proof.
  intros Hid Hname Hcid Hcname. unfold cleanParts.
  rewrite (split_append _ id name Hcid), (split_lacks _ name Hcname).
  cbn [map]. rewrite (trim_tidy id Hid), (trim_tidy name Hname).
  destruct name as [|c r]; [discriminate|]. reflexivity.
Qed.

(** A blank line is skipped: it adds neither an entry nor an error. *)
Lemma parseLine_blank (acc : Parsed) (line : string) :
  Js.trim line = EmptyString -> parseLine acc line = acc.
Proof.
  intros Ht. pose proof (trim_empty_inv line Ht) as Hb.
  unfold parseLine, cleanParts.
  rewrite (split_lacks _ line (blank_lacks_comma line Hb)).
  cbn [map]. rewrite Ht. reflexivity.
Qed.

(** A line that is not blank adds exactly one entry or exactly one error. *)
Lemma parseLine_counts (acc : Parsed) (line : string) :
  Js.trim line <> EmptyString ->
  (Z.of_nat (length (rosterData (parseLine acc line))) + errorCount (parseLine acc line)
   = Z.of_nat (length (rosterData acc)) + errorCount acc + 1)%Z.
Proof.
  intros Ht. unfold parseLine.
  assert (Hneg : negb (String.eqb (Js.trim line) "") = true).
  { apply negb_true_iff. now apply String.eqb_neq. }
  destruct (cleanParts line) as [|p0 [|p1 rest]]; rewrite ?Hneg.
  - simpl. lia.
  - simpl. lia.
  - destruct (Js.truthy p0 && Js.truthy p1); simpl.
    + rewrite length_app. simpl. lia.
    + lia.
Qed.

Lemma popTrailingEmpty_incl (l : list string) (x : string) :
  In x (popTrailingEmpty l) -> In x l.
Proof.
  induction l as [|s l IH]; [exact (fun H => H)|].
  cbn [popTrailingEmpty]. destruct s as [|c r]; [|exact (fun H => H)].
  destruct (2 <? Z.of_nat (length (EmptyString :: l)))%Z; [|exact (fun H => H)].
  intros H. right. now apply IH.
Qed.

(** Every field that [cleanParts] yields is the [trim] of something, hence
    empty or tidy. *)
Lemma cleanParts_fields (line : string) (x : string) :
  In x (cleanParts line) -> x = EmptyString \/ tidy x = true.
Proof.
  unfold cleanParts. intros H. apply in_rev, popTrailingEmpty_incl in H.
  apply in_rev in H. apply in_map_iff in H as (q & <- & _). apply trim_result.
Qed.

Lemma parseLine_csvLine (acc : Parsed) (e : Entry) :
  portable e = true ->
  parseLine acc (csvLine e) = mkParsed (rosterData acc ++ [e]) (errorCount acc).
Proof.
  destruct e as [id name]. unfold portable, plainField, csvLine.
  cbn [entry_id entry_name]. intros H.
  apply andb_prop in H as [H Hdigit]. apply andb_prop in H as [Hid Hname].
  apply andb_prop in Hid as [Hid _]. apply andb_prop in Hid as [Hid Hcid].
  apply andb_prop in Hname as [Hname _]. apply andb_prop in Hname as [Hname Hcname].
  unfold parseLine. rewrite cleanParts_pair by assumption.
  rewrite (tidy_truthy id), (tidy_truthy name) by assumption. cbn [andb].
  unfold cleanName, Js.stripLeadingNumber.
  destruct name as [|c r]; [discriminate|].
  cbn [startsWithDigit] in Hdigit. apply negb_true_iff in Hdigit.
  rewrite Hdigit. now rewrite trim_tidy by assumption.
Qed.

Lemma tidy_csvLine (e : Entry) :
  tidy (entry_id e) = true -> tidy (entry_name e) = true -> tidy (csvLine e) = true.
Proof.
  unfold tidy, csvLine. intros Hid Hname.
  apply andb_prop in Hid as [Hid _]. apply andb_prop in Hname as [_ Hname].
  rewrite (startsClean_sep _ _ ","%char Hid) by (vm_compute; lia).
  rewrite (endsClean_sep _ _ ","%char Hname) by (vm_compute; lia).
  reflexivity.
Qed.

Lemma tidy_joinLines (l : string) (rest : list string) :
  Forall (fun x => tidy x = true) (l :: rest) -> tidy (joinLines (l :: rest)) = true.
Proof.
  revert l. induction rest as [|l2 rest IH]; intros l Hall.
  - now inversion Hall.
  - inversion Hall as [|? ? Hl Hrest]; subst.
    specialize (IH l2 Hrest). unfold tidy in *.
    apply andb_prop in Hl as [Hl _]. apply andb_prop in IH as [_ IH].
    change (joinLines (l :: l2 :: rest))
      with (l +:+ String Js.LF (joinLines (l2 :: rest))).
    rewrite (startsClean_sep _ _ Js.LF Hl) by (vm_compute; lia).
    rewrite (endsClean_sep _ _ Js.LF IH) by (vm_compute; lia).
    reflexivity.
Qed.

Lemma split_joinLines (l : string) (rest : list string) :
  Forall (fun x => lacks Js.LF x = true) (l :: rest) ->
  Js.split Js.LF (joinLines (l :: rest)) = l :: rest.
Proof.
  revert l. induction rest as [|l2 rest IH]; intros l Hall.
  - inversion Hall; subst. now apply split_lacks.
  - inversion Hall as [|? ? Hl Hrest]; subst.
    change (joinLines (l :: l2 :: rest))
      with (l +:+ String Js.LF (joinLines (l2 :: rest))).
    rewrite split_append by exact Hl. f_equal. now apply IH.
Qed.

Lemma portable_fields (e : Entry) :
  portable e = true ->
  tidy (entry_id e) = true /\ tidy (entry_name e) = true
  /\ lacks Js.LF (csvLine e) = true.
Proof.
  unfold portable, plainField, csvLine. intros H.
  apply andb_prop in H as [H _]. apply andb_prop in H as [Hid Hname].
  apply andb_prop in Hid as [Hid Hlid]. apply andb_prop in Hid as [Hid _].
  apply andb_prop in Hname as [Hname Hlname]. apply andb_prop in Hname as [Hname _].
  repeat split; try assumption.
  rewrite lacks_append, Hlid. cbn [lacks andb]. rewrite Hlname. reflexivity.
Qed.

Lemma fold_parseLine_csv (es : list Entry) :
  forall acc, forallb portable es = true ->
              fold_left parseLine (map csvLine es) acc
              = mkParsed (rosterData acc ++ es) (errorCount acc).
Proof.
  induction es as [|e es IH]; intros acc Hall.
  - simpl. rewrite app_nil_r. now destruct acc.
  - cbn [forallb] in Hall. apply andb_prop in Hall as [He Hes].
    cbn [map fold_left]. rewrite (parseLine_csvLine acc e He), (IH _ Hes).
    cbn [rosterData errorCount]. now rewrite <- app_assoc.
Qed.

Lemma fold_parseLine_counts (lines : list string) :
  forall acc,
    (Z.of_nat (length (rosterData (fold_left parseLine lines acc)))
     + errorCount (fold_left parseLine lines acc)
     = Z.of_nat (length (rosterData acc)) + errorCount acc
       + Z.of_nat (length (List.filter
                             (fun l => negb (String.eqb (Js.trim l) "")) lines)))%Z.
Proof.
  induction lines as [|line lines IH]; intros acc; [simpl; lia|].
  cbn [fold_left List.filter]. rewrite IH.
  destruct (String.eqb_spec (Js.trim line) "") as [Hb|Hnb]; cbn [negb].
  - now rewrite (parseLine_blank acc line Hb).
  - rewrite (parseLine_counts acc line Hnb). cbn [length]. lia.
Qed.

Lemma fold_parseLine_errors (lines : list string) :
  forall acc, (errorCount acc <= errorCount (fold_left parseLine lines acc))%Z.
Proof.
  induction lines as [|line lines IH]; intros acc; [simpl; lia|].
  cbn [fold_left]. etransitivity; [|apply IH].
  unfold parseLine. destruct (cleanParts line) as [|p0 [|p1 rest]];
    repeat match goal with |- context [if ?b then _ else _] => destruct b end;
    simpl; lia.
Qed.

(** X5: every line of the trimmed text that is not blank is accounted for
    exactly once, as an entry or as an error, and blank lines are ignored:
    the number of entries plus [errorCount] is the number of non-blank
    lines; [errorCount] is not negative. *)
Theorem parseRosterData_accounts_for_lines (text : string) :
  (Z.of_nat (length (rosterData (parseRosterData text)))
   + errorCount (parseRosterData text)
   = Z.of_nat (length (List.filter (fun l => negb (String.eqb (Js.trim l) ""))
                                   (Js.split Js.LF (Js.trim text)))))%Z
  /\ (0 <= errorCount (parseRosterData text))%Z.
Proof.
  unfold parseRosterData. split.
  - rewrite fold_parseLine_counts. simpl. lia.
  - apply (fold_parseLine_errors _ (mkParsed [] 0)).
Qed.

Lemma parseLine_entries_clean (acc : Parsed) (line : string) :
  Forall (fun e => tidy (entry_id e) = true
                   /\ (entry_name e = EmptyString \/ tidy (entry_name e) = true))
         (rosterData acc) ->
  Forall (fun e => tidy (entry_id e) = true
                   /\ (entry_name e = EmptyString \/ tidy (entry_name e) = true))
         (rosterData (parseLine acc line)).
Proof.
  intros Hacc. unfold parseLine.
  destruct (cleanParts line) as [|p0 [|p1 rest]] eqn:Hparts;
    try (destruct (negb (String.eqb (Js.trim line) "")); exact Hacc).
  destruct (Js.truthy p0 && Js.truthy p1) eqn:Htruthy;
    [|destruct (negb (String.eqb (Js.trim line) "")); exact Hacc].
  cbn [rosterData]. apply Forall_app. split; [exact Hacc|].
  constructor; [|constructor]. cbn [entry_id entry_name]. split.
  - apply andb_prop in Htruthy as [Hp0 _].
    destruct (cleanParts_fields line p0) as [->|Ht]; [|discriminate Hp0|exact Ht].
    rewrite Hparts. now left.
  - unfold cleanName. apply trim_result.
Qed.

(** X6: every entry that [parseRosterData] returns has an id that is not
    empty and has no white space at either end; its name has no white
    space at either end either, but may be empty. *)
Theorem parseRosterData_entries_clean (text : string) :
  Forall (fun e => tidy (entry_id e) = true
                   /\ (entry_name e = EmptyString \/ tidy (entry_name e) = true))
         (rosterData (parseRosterData text)).
Proof.
  unfold parseRosterData.
  assert (H : forall lines acc,
             Forall (fun e => tidy (entry_id e) = true
                              /\ (entry_name e = EmptyString
                                  \/ tidy (entry_name e) = true))
                    (rosterData acc) ->
             Forall (fun e => tidy (entry_id e) = true
                              /\ (entry_name e = EmptyString
                                  \/ tidy (entry_name e) = true))
                    (rosterData (fold_left parseLine lines acc))).
  { induction lines as [|line lines IH]; intros acc Hacc; [exact Hacc|].
    cbn [fold_left]. apply IH. now apply parseLine_entries_clean. }
  apply H. constructor.
Qed.

Lemma parse_csv_lines (entries : list Entry) :
  forallb portable entries = true ->
  parseRosterData (toCsv entries) = mkParsed entries 0.
Proof.
  intros Hall. destruct entries as [|e es]; [reflexivity|].
  unfold parseRosterData, toCsv.
  assert (Hfields : Forall (fun e => portable e = true) (e :: es)).
  { apply Forall_forall. intros x Hx.
    apply list_elem_of_In in Hx.
    rewrite forallb_forall in Hall. now apply Hall. }
  assert (Htidy : Forall (fun x => tidy x = true) (map csvLine (e :: es))).
  { apply Forall_forall. intros x Hx. apply list_elem_of_In in Hx.
    apply in_map_iff in Hx as (y & <- & Hy).
    rewrite Forall_forall in Hfields.
    destruct (portable_fields y) as (Hid & Hname & _).
    - apply Hfields. now apply list_elem_of_In.
    - now apply tidy_csvLine. }
  assert (Hlf : Forall (fun x => lacks Js.LF x = true) (map csvLine (e :: es))).
  { apply Forall_forall. intros x Hx. apply list_elem_of_In in Hx.
    apply in_map_iff in Hx as (y & <- & Hy).
    rewrite Forall_forall in Hfields.
    destruct (portable_fields y) as (_ & _ & H); [|exact H].
    apply Hfields. now apply list_elem_of_In. }
  cbn [map] in *. rewrite (trim_tidy _ (tidy_joinLines _ _ Htidy)).
  rewrite (split_joinLines _ _ Hlf).
  change (csvLine e :: map csvLine es) with (map csvLine (e :: es)).
  now rewrite fold_parseLine_csv.
Qed.

(** X7: the import reads back what the format carries.  Entries whose id
    and name are not empty, have no white space at either end and contain
    neither comma nor line feed, and whose name does not start with a
    digit, written one per line as [ID,Name], are parsed to exactly these
    entries, in order, with no error. *)
Theorem parseRosterData_toCsv (entries : list Entry) :
  forallb portable entries = true ->
  parseRosterData (toCsv entries) = mkParsed entries 0.
Proof. exact (parse_csv_lines entries). Qed.

Lemma parseRosterData_toCsv_witness :
  parseRosterData (toCsv INITIAL_ROSTER) = mkParsed INITIAL_ROSTER 0.
Proof.
  apply (parseRosterData_toCsv INITIAL_ROSTER). vm_compute. reflexivity.
Defined.

(** X8: the name check runs before the numeric prefix is removed.  A line
    [ID,Name] whose name consists of digits only passes the check and is
    stored as an entry with an empty name, not counted as an error. *)
Theorem parseRosterData_digits_name (id digits : string) :
  plainField id = true ->
  plainField digits = true ->
  allDigits digits = true ->
  parseRosterData (id +:+ String ","%char digits) = mkParsed [mkEntry id ""] 0.
Proof.
  intros Hid Hds Hall.
  pose proof Hid as Hid'. pose proof Hds as Hds'.
  unfold plainField in Hid', Hds'.
  apply andb_prop in Hid' as [Hid' Hlid]. apply andb_prop in Hid' as [Htid Hcid].
  apply andb_prop in Hds' as [Hds' Hlds]. apply andb_prop in Hds' as [Htds Hcds].
  unfold parseRosterData.
  assert (Htidy : tidy (id +:+ String ","%char digits) = true)
    by (apply (tidy_csvLine (mkEntry id digits)); assumption).
  rewrite (trim_tidy _ Htidy).
  rewrite split_lacks
    by (rewrite lacks_append, Hlid; cbn [lacks andb]; now rewrite Hlds).
  cbn [fold_left]. unfold parseLine.
  rewrite cleanParts_pair by assumption.
  rewrite (tidy_truthy id), (tidy_truthy digits) by assumption. cbn [andb].
  replace (cleanName digits) with EmptyString; [reflexivity|].
  unfold cleanName, Js.stripLeadingNumber.
  destruct digits as [|c r]; [discriminate|].
  cbn [allDigits] in Hall. apply andb_prop in Hall as [Hc Hr]. rewrite Hc.
  replace (Js.dropDigits (String c r)) with EmptyString; [reflexivity|].
  cbn [Js.dropDigits]. rewrite Hc. clear -Hr.
  induction r as [|d r IH]; [reflexivity|].
  cbn [allDigits] in Hr. apply andb_prop in Hr as [Hd Hr].
  cbn [Js.dropDigits]. rewrite Hd. now apply IH.
Qed.

Lemma parseRosterData_digits_name_witness :
  parseRosterData ("RC-1007" +:+ String ","%char "2024")
  = mkParsed [mkEntry "RC-1007" ""] 0.
Proof.
  apply (parseRosterData_digits_name "RC-1007" "2024"); vm_compute; reflexivity.
Defined.

(** ** Seeding *)

(** An invariant of the worlds that the operation preserves is preserved by
    the retry loop. *)
Lemma retryLoop_invariant {W A : Type} (operation : W -> Settled A * W)
    (maxRetries delay : Z) (P : W -> Prop) :
  (forall w, P w -> P (snd (operation w))) ->
  forall (fuel : nat) (i : Z) (w : W) (log : list RetryEvent),
    P w -> P (snd (retryLoop operation maxRetries delay fuel i w log)).
Proof.
  intros Hop. induction fuel as [|fuel IH]; intros i w log Hw; [exact Hw|].
  rewrite retryLoop_S. destruct (i <? maxRetries)%Z; [|exact Hw].
  specialize (Hop w Hw). destruct (operation w) as [[v|e] w1]; simpl in Hop.
  - exact Hop.
  - destruct (isTransient e || (i =? maxRetries - 1)%Z); [|exact Hop].
    destruct (i =? maxRetries - 1)%Z; [exact Hop|]. now apply IH.
Qed.

Lemma awaitRetry_invariant {A : Type} (op : World -> Settled A * World)
    (maxRetries delay : Z) (P : Remote -> list Call -> Prop) (w : World) :
  (forall w, P (remote w) (issued w) ->
             P (remote (snd (op w))) (issued (snd (op w)))) ->
  P (remote w) (issued w) ->
  P (remote (snd (awaitRetry op maxRetries delay w)))
    (issued (snd (awaitRetry op maxRetries delay w))).
Proof.
  intros Hop Hw. unfold awaitRetry, retryOperation.
  pose proof (retryLoop_invariant op maxRetries delay
                (fun w => P (remote w) (issued w)) Hop
                (Z.to_nat maxRetries) 0 w [] Hw) as H.
  destruct (retryLoop op maxRetries delay (Z.to_nat maxRetries) 0 w [])
    as [[r log] w1]. exact H.
Qed.

(** A read changes no document and is no write, served or not. *)
Lemma getDocs_keeps (w : World) :
  docs (remote (snd (getDocs w))) = docs (remote w)
  /\ writes (snd (getDocs w)) = writes w
  /\ match fst (getDocs w) with
     | Fulfilled snapshot => snapshot = map_to_list (docs (remote w))
     | Rejected _ => True
     end.
Proof.
  unfold getDocs, request, writes.
  destruct (faults w) as [|[c|] rest]; cbn [fst snd remote docs issued tick];
    rewrite filter_app; cbn; rewrite app_nil_r; auto.
Qed.

Lemma seedOperation_nonempty (w : World) :
  docs (remote w) <> ∅ ->
  docs (remote (snd (seedOperation w))) = docs (remote w)
  /\ writes (snd (seedOperation w)) = writes w.
Proof.
  intros Hne. unfold seedOperation.
  destruct (getDocs_keeps w) as (Hd & Hw & Hs).
  destruct (getDocs w) as [[snapshot|e] w1]; cbn [fst snd] in *; [|auto].
  destruct snapshot as [|x l]; [|auto].
  exfalso. apply Hne. now apply map_to_list_empty_iff.
Qed.

(** X9: on a collection that is not empty [seedRoster] never writes:
    whatever happens to its requests, it issues no [setDoc] and leaves
    every document as it is, so existing attendance is never reset by a
    restart of the app. *)
Theorem seedRoster_keeps_existing (db : bool) (w : World) :
  docs (remote w) <> ∅ ->
  docs (remote (seedRoster db w)) = docs (remote w)
  /\ writes (seedRoster db w) = writes w.
Proof.
  intros Hne. unfold seedRoster. destruct db; cbn [negb]; [|auto].
  apply (awaitRetry_invariant seedOperation 5 1000
           (fun r tr => docs r = docs (remote w)
                        /\ filter (fun c => isWrite c = true) tr = writes w)).
  - intros w0 [Hd Hw]. destruct (seedOperation_nonempty w0) as [Hd' Hw'].
    + rewrite Hd. exact Hne.
    + split; [now rewrite Hd'|]. fold (writes (snd (seedOperation w0))).
      now rewrite Hw'.
  - split; reflexivity.
Qed.

Lemma seedRoster_keeps_existing_witness :
  docs (remote (seedRoster true faultyWorld)) = docs (remote faultyWorld)
  /\ writes (seedRoster true faultyWorld) = writes faultyWorld.
Proof.
  apply (seedRoster_keeps_existing true faultyWorld).
  intros H. apply (f_equal (fun m => m !! "RC-1001")) in H.
  vm_compute in H. discriminate H.
Defined.

Lemma creates_store_exact (data : list Entry) :
  forall r e,
    NoDup (map entry_id data) -> In e data ->
    exists t,
      docs (fold_left (fun r c => commit c r) (createCalls data) r) !! entry_id e
      = Some (mkDoc (Some (entry_id e)) (Some (entry_name e)) "absent" None (Some t))
      /\ (clock r <= t
          < clock (fold_left (fun r c => commit c r) (createCalls data) r))%Z.
Proof.
  induction data as [|e0 data IH]; intros r e Hnd Hin; [destruct Hin|].
  cbn [map] in Hnd. apply NoDup_cons in Hnd as [Hfresh Hnd].
  change (createCalls (e0 :: data))
    with (CSetDoc (entry_id e0) (newMemberFields e0) false :: createCalls data).
  cbn [fold_left].
  set (r1 := commit (CSetDoc (entry_id e0) (newMemberFields e0) false) r).
  assert (Hr1 : clock r1 = (clock r + 1)%Z) by reflexivity.
  assert (Hlook : docs r1 !! entry_id e0
                  = Some (mkDoc (Some (entry_id e0)) (Some (entry_name e0))
                                "absent" None (Some (clock r))))
    by (subst r1; simpl; apply lookup_insert_eq).
  assert (Hclock : (clock r1 <= clock (fold_left (fun r c => commit c r)
                                                 (createCalls data) r1))%Z)
    by (rewrite commits_clock; lia).
  clearbody r1.
  destruct Hin as [->|Hin].
  - exists (clock r). rewrite creates_keep_others.
    + split; [exact Hlook|lia].
    + intros H. apply Hfresh. now apply list_elem_of_In.
  - destruct (IH r1 e Hnd Hin) as (t & Ht & Hb).
    exists t. split; [exact Ht|lia].
Qed.

Lemma seedEach_served (people : list Entry) :
  forall w, Forall (eq None) (faults w) ->
            seedEach people w
            = (Fulfilled tt, fold_left servedCall (createCalls people) w).
Proof.
  induction people as [|person people IH]; intros w Hw; [reflexivity|].
  cbn [seedEach].
  change (setDoc (entry_id person) (newMemberFields person) false)
    with (perform (CSetDoc (entry_id person) (newMemberFields person) false)).
  rewrite perform_served by now apply noFault_all_served.
  rewrite IH by now apply servedCall_faults. reflexivity.
Qed.

Lemma INITIAL_ROSTER_ids : NoDup (map entry_id INITIAL_ROSTER).
Proof. apply (bool_decide_unpack _). vm_compute. exact I. Qed.

(** X10: on an empty collection, with every request served, [seedRoster]
    reads once and then writes the six initial records one after the
    other; afterwards the collection holds exactly these six, each with
    its id and name, absent, never scanned and created during the seed. *)
Theorem seedRoster_seeds_empty (w : World) :
  docs (remote w) = ∅ ->
  Forall (eq None) (faults w) ->
  issued (seedRoster true w) = issued w ++ CGetDocs :: createCalls INITIAL_ROSTER
  /\ (forall e, In e INITIAL_ROSTER ->
        exists t,
          docs (remote (seedRoster true w)) !! entry_id e
          = Some (mkDoc (Some (entry_id e)) (Some (entry_name e)) "absent" None
                        (Some t))
          /\ (clock (remote w) < t)%Z)
  /\ (forall k, ~ In k (map entry_id INITIAL_ROSTER) ->
                docs (remote (seedRoster true w)) !! k = None).
Proof.
  intros Hempty Hw. unfold seedRoster. cbn [negb].
  assert (Hop : seedOperation w
                = (Fulfilled tt,
                   fold_left servedCall (CGetDocs :: createCalls INITIAL_ROSTER) w)).
  { unfold seedOperation. rewrite getDocs_served by now apply noFault_all_served.
    rewrite Hempty, map_to_list_empty.
    now rewrite seedEach_served by now apply servedCall_faults. }
  rewrite (awaitRetry_first_try seedOperation 5 1000 w _ tt) by (try lia; exact Hop).
  cbn [snd]. split; [apply servedCalls_issued|].
  rewrite servedCalls_remote. cbn [fold_left].
  split.
  - intros e He.
    destruct (creates_store_exact INITIAL_ROSTER (commit CGetDocs (remote w)) e
                INITIAL_ROSTER_ids He) as (t & Ht & Hb).
    exists t. split; [exact Ht|]. simpl in Hb. lia.
  - intros k Hk. rewrite creates_keep_others by exact Hk.
    simpl. rewrite Hempty. apply lookup_empty.
Qed.

Lemma seedRoster_seeds_empty_witness :
  issued (seedRoster true emptyWorld)
  = issued emptyWorld ++ CGetDocs :: createCalls INITIAL_ROSTER
  /\ (forall e, In e INITIAL_ROSTER ->
        exists t,
          docs (remote (seedRoster true emptyWorld)) !! entry_id e
          = Some (mkDoc (Some (entry_id e)) (Some (entry_name e)) "absent" None
                        (Some t))
          /\ (clock (remote emptyWorld) < t)%Z)
  /\ (forall k, ~ In k (map entry_id INITIAL_ROSTER) ->
                docs (remote (seedRoster true emptyWorld)) !! k = None).
Proof.
  apply (seedRoster_seeds_empty emptyWorld).
  - reflexivity.
  - constructor.
Defined.

Lemma setDoc_rejected (id : string) (f : Fields) (merge : bool) (w : World)
    (c : string) (rest : list (option string)) :
  faults w = Some c :: rest ->
  setDoc id f merge w
  = (Rejected (mkError (Some c)),
     mkWorld (tick (remote w)) rest (issued w ++ [CSetDoc id f merge]) (retryLog w)).
Proof. intros H. unfold setDoc, request. now rewrite H. Qed.

Lemma setDoc_served_head (id : string) (f : Fields) (merge : bool) (w : World)
    (rest : list (option string)) :
  faults w = None :: rest ->
  setDoc id f merge w = (Fulfilled tt, servedCall w (CSetDoc id f merge))
  /\ faults (servedCall w (CSetDoc id f merge)) = rest.
Proof.
  intros H. unfold setDoc, request, servedCall. rewrite H. split; reflexivity.
Qed.

(** The sequential writes when the [j]-th of them is the first rejected
    one: the loop stops there, with the first [j] records stored. *)
Lemma seedEach_fails (people : list Entry) :
  forall (j : nat) (w : World) (c : string) (rest : list (option string)),
    faults w = replicate j None ++ Some c :: rest ->
    (j < length people)%nat ->
    exists w1,
      seedEach people w = (Rejected (mkError (Some c)), w1)
      /\ docs (remote w1)
         = docs (fold_left (fun r c => commit c r)
                           (createCalls (take j people)) (remote w)).
Proof.
  induction people as [|person people IH]; intros j w c rest Hf Hj;
    [simpl in Hj; lia|].
  destruct j as [|j].
  - cbn [replicate app] in Hf. cbn [seedEach].
    rewrite (setDoc_rejected _ _ _ w c rest Hf). eexists. split; [reflexivity|].
    reflexivity.
  - cbn [replicate app] in Hf. cbn [seedEach].
    destruct (setDoc_served_head (entry_id person) (newMemberFields person) false
                w _ Hf) as [Hset Hrest].
    rewrite Hset.
    destruct (IH j _ c rest Hrest) as (w1 & Hw1 & Hdocs);
      [simpl in Hj; lia|].
    exists w1. split; [exact Hw1|]. rewrite Hdocs. reflexivity.
Qed.

(** X11: a seed that is interrupted stays incomplete.  On an empty
    collection, when the read and the first [j] writes (at least one, not
    all six) are served and the next write is rejected, with whatever code
    and whatever happens to later requests, [seedRoster] ends with exactly
    the first [j] initial records stored: the retry reads a collection
    that is no longer empty and writes nothing more. *)
Theorem seedRoster_partial (w : World) (j : nat) (c : string)
    (rest : list (option string)) :
  docs (remote w) = ∅ ->
  (1 <= j < 6)%nat ->
  faults w = None :: replicate j None ++ Some c :: rest ->
  docs (remote (seedRoster true w))
  = docs (fold_left (fun r c => commit c r)
                    (createCalls (take j INITIAL_ROSTER))
                    (commit CGetDocs (remote w)))
  /\ (forall e, In e (take j INITIAL_ROSTER) ->
                is_Some (docs (remote (seedRoster true w)) !! entry_id e))
  /\ (forall e, In e (drop j INITIAL_ROSTER) ->
                docs (remote (seedRoster true w)) !! entry_id e = None).
Proof.
  intros Hempty Hj Hf.
  assert (Hget : getDocs w = (Fulfilled [], servedCall w CGetDocs)).
  { unfold getDocs, request, servedCall. rewrite Hf. cbn [commit tail].
    replace (map_to_list (docs (remote w))) with (@nil (string * DocData))
      by (now rewrite Hempty, map_to_list_empty).
    reflexivity. }
  destruct (seedEach_fails INITIAL_ROSTER j (servedCall w CGetDocs) c rest)
    as (w1 & Hw1 & Hdocs1).
  { cbn [servedCall faults]. now rewrite Hf. }
  { simpl. lia. }
  cbn [servedCall remote] in Hdocs1.
  set (m1 := docs (fold_left (fun r c => commit c r)
                             (createCalls (take j INITIAL_ROSTER))
                             (commit CGetDocs (remote w)))) in *.
  assert (Hop : seedOperation w = (Rejected (mkError (Some c)), w1)).
  { unfold seedOperation. rewrite Hget. exact Hw1. }
  assert (Hin : forall e, In e (take j INITIAL_ROSTER) -> is_Some (m1 !! entry_id e)).
  { intros e He. subst m1.
    destruct (creates_store (take j INITIAL_ROSTER) (commit CGetDocs (remote w)) e He)
      as (d & Hd & _).
    rewrite Hd. eauto. }
  assert (Hne : m1 <> ∅).
  { destruct j as [|j]; [lia|].
    intros Hm. destruct (Hin (mkEntry "RC-1001" "Alfie Johnson")) as [d Hd].
    - simpl. now left.
    - rewrite Hm, lookup_empty in Hd. discriminate. }
  assert (Hfinal : docs (remote (seedRoster true w)) = m1).
  { unfold seedRoster, awaitRetry, retryOperation. cbn [negb].
    change (Z.to_nat 5) with 5%nat. rewrite retryLoop_S, Hop.
    change (0 <? 5)%Z with true. change (0 =? 5 - 1)%Z with false.
    rewrite orb_false_r. cbv iota.
    destruct (isTransient (mkError (Some c))).
    - pose proof (retryLoop_invariant seedOperation 5 1000
                    (fun w0 => docs (remote w0) = m1)) as Hinv.
      specialize (Hinv (fun w0 Hw0 =>
                          eq_trans (proj1 (seedOperation_nonempty w0
                                             (eq_ind_r (fun m => m <> ∅) Hne Hw0)))
                                   Hw0)).
      specialize (Hinv 4%nat (0 + 1)%Z w1
                       ([] ++ [Warned (0 + 1) (1000 * 2 ^ 0); Slept (1000 * 2 ^ 0)])
                       Hdocs1).
      destruct (retryLoop seedOperation 5 1000 4 (0 + 1) w1 _) as [[r log] w2].
      exact Hinv.
    - exact Hdocs1. }
  rewrite Hfinal. split; [reflexivity|]. split; [exact Hin|].
  intros e He. subst m1. rewrite creates_keep_others.
  - simpl. rewrite Hempty. apply lookup_empty.
  - intros Hk. pose proof INITIAL_ROSTER_ids as Hnd.
    rewrite <- (take_drop j INITIAL_ROSTER), map_app in Hnd.
    apply NoDup_app in Hnd as (_ & Hdisj & _).
    apply (Hdisj (entry_id e)).
    + now apply list_elem_of_In.
    + apply list_elem_of_In. now apply in_map.
Qed.

Lemma seedRoster_partial_witness :
  docs (remote (seedRoster true interruptedWorld))
  = docs (fold_left (fun r c => commit c r)
                    (createCalls (take 2 INITIAL_ROSTER))
                    (commit CGetDocs (remote interruptedWorld)))
  /\ (forall e, In e (take 2 INITIAL_ROSTER) ->
                is_Some (docs (remote (seedRoster true interruptedWorld)) !! entry_id e))
  /\ (forall e, In e (drop 2 INITIAL_ROSTER) ->
                docs (remote (seedRoster true interruptedWorld)) !! entry_id e = None).
Proof.
  apply (seedRoster_partial interruptedWorld 2 "unavailable" []).
  - reflexivity.
  - lia.
  - reflexivity.
Defined.

(** ** Reset *)

Lemma perform_issued (c : Call) (w : World) :
  issued (snd (perform c w)) = issued w ++ [c].
Proof.
  destruct c as [|id|id f merge]; simpl;
    unfold deleteDoc, setDoc, request;
    destruct (faults w) as [|[e|] rest]; reflexivity.
Qed.

Lemma issueAll_issued (cs : list Call) :
  forall w, issued (snd (issueAll (map perform cs) w)) = issued w ++ cs.
Proof.
  induction cs as [|c cs IH]; intros w; [simpl; now rewrite app_nil_r|].
  cbn [map issueAll]. pose proof (perform_issued c w) as Hc.
  destruct (perform c w) as [p w1]. cbn [snd] in Hc.
  specialize (IH w1). destruct (issueAll (map perform cs) w1) as [ps w2].
  cbn [snd] in *. rewrite IH, Hc, <- app_assoc. reflexivity.
Qed.

Lemma resetCalls_perform (rows : list Attendee) :
  map (fun person => setDoc (p_id person) resetFields true) rows
  = map perform (resetCalls rows).
Proof. unfold resetCalls. now rewrite map_map. Qed.

(** X12: a confirmed reset issues exactly one merge write
    [{status: 'absent', lastScan: null}] per row of the table, in row
    order, whatever the store answers: a rejected write is awaited again
    but never issued again.  Without a database handle or without
    confirmation nothing is issued. *)
Theorem handleReset_one_write_per_row (rows : list Attendee) (w : World) :
  issued (handleReset true true rows w) = issued w ++ resetCalls rows
  /\ (forall confirmed, handleReset false confirmed rows w = w)
  /\ handleReset true false rows w = w.
Proof.
  split; [|split; [intros []; reflexivity|reflexivity]].
  unfold handleReset. cbn [negb]. rewrite resetCalls_perform.
  pose proof (issueAll_issued (resetCalls rows) w) as Hissued.
  destruct (issueAll (map perform (resetCalls rows)) w) as [updates w1].
  cbn [snd] in Hissued.
  pose proof (awaitRetry_settled updates 500 w1) as Hsettled.
  destruct (awaitRetry (fun w0 => (promiseAll updates, w0)) 3 500 w1) as [r w2].
  destruct Hsettled as (_ & Hi & _). cbn [snd]. now rewrite Hi.
Qed.

Lemma resetOf_idempotent (old : option DocData) (now : Z) :
  writeDoc true (Some (resetOf old)) resetFields now = resetOf old.
Proof. destruct old as [d|]; reflexivity. Qed.

Lemma resetOf_now (old : option DocData) (now : Z) :
  writeDoc true old resetFields now = resetOf old.
Proof. reflexivity. Qed.

Lemma resets_keep_others (rows : list Attendee) :
  forall r k, ~ In k (map p_id rows) ->
              docs (fold_left (fun r c => commit c r) (resetCalls rows) r) !! k
              = docs r !! k.
Proof.
  induction rows as [|p rows IH]; intros r k Hk; [reflexivity|].
  cbn [resetCalls map fold_left]. fold (resetCalls rows).
  rewrite IH by (intros H; apply Hk; now right).
  simpl. apply lookup_insert_ne. intros Heq. apply Hk. now left.
Qed.

Lemma resets_store (rows : list Attendee) :
  forall r k, In k (map p_id rows) ->
              docs (fold_left (fun r c => commit c r) (resetCalls rows) r) !! k
              = Some (resetOf (docs r !! k)).
Proof.
  induction rows as [|p rows IH]; intros r k Hk; [destruct Hk|].
  cbn [resetCalls map fold_left]. fold (resetCalls rows).
  set (r1 := commit (CSetDoc (p_id p) resetFields true) r).
  assert (Hr1 : forall k', docs r1 !! k'
                           = if decide (p_id p = k')
                             then Some (resetOf (docs r !! k'))
                             else docs r !! k').
  { intros k'. subst r1. simpl. destruct (decide (p_id p = k')) as [->|Hne].
    - now rewrite lookup_insert_eq.
    - now rewrite lookup_insert_ne. }
  clearbody r1.
  destruct (in_dec string_dec k (map p_id rows)) as [Hin|Hnot].
  - rewrite (IH r1 k Hin), Hr1. destruct (decide (p_id p = k)); [|reflexivity].
    destruct (docs r !! k); reflexivity.
  - rewrite resets_keep_others by exact Hnot.
    destruct Hk as [Hk|Hk]; [|contradiction].
    rewrite Hr1. destruct (decide (p_id p = k)); [reflexivity|contradiction].
Qed.

Lemma handleReset_remote (rows : list Attendee) (w : World) :
  Forall (eq None) (faults w) ->
  remote (handleReset true true rows w)
  = fold_left (fun r c => commit c r) (resetCalls rows) (remote w).
Proof.
  intros Hw. unfold handleReset. cbn [negb]. rewrite resetCalls_perform.
  rewrite issueAll_served by exact Hw.
  pose proof (awaitRetry_settled (map (fun _ : Call => @Fulfilled unit tt)
                                      (resetCalls rows)) 500
                (fold_left servedCall (resetCalls rows) w)) as Hsettled.
  destruct (awaitRetry _ 3 500 (fold_left servedCall (resetCalls rows) w))
    as [r w2].
  destruct Hsettled as (Hr & _). cbn [snd]. rewrite Hr.
  apply servedCalls_remote.
Qed.

(** X13: a confirmed reset whose writes are all served leaves, for every
    row of the table, a document with status [absent] and no last scan:
    the stored document with only these two fields changed (id, name and
    creation time are kept), or a document with just these two fields when
    the row's document no longer exists.  Documents of no row are
    untouched. *)
Theorem handleReset_served (rows : list Attendee) (w : World) :
  Forall (eq None) (faults w) ->
  (forall p d, In p rows -> docs (remote w) !! p_id p = Some d ->
               docs (remote (handleReset true true rows w)) !! p_id p
               = Some (mkDoc (d_id d) (d_name d) "absent" None (d_createdAt d)))
  /\ (forall p, In p rows -> docs (remote w) !! p_id p = None ->
                docs (remote (handleReset true true rows w)) !! p_id p
                = Some (mkDoc None None "absent" None None))
  /\ (forall k, ~ In k (map p_id rows) ->
                docs (remote (handleReset true true rows w)) !! k
                = docs (remote w) !! k).
Proof.
  intros Hw. rewrite (handleReset_remote rows w Hw). split; [|split].
  - intros p d Hp Hd. rewrite resets_store by now apply in_map.
    now rewrite Hd.
  - intros p Hp Hd. rewrite resets_store by now apply in_map.
    now rewrite Hd.
  - intros k Hk. now apply resets_keep_others.
Qed.

Lemma handleReset_served_witness :
  (forall p d, In p [alfie; brenda] -> docs (remote quietWorld) !! p_id p = Some d ->
               docs (remote (handleReset true true [alfie; brenda] quietWorld)) !! p_id p
               = Some (mkDoc (d_id d) (d_name d) "absent" None (d_createdAt d)))
  /\ (forall p, In p [alfie; brenda] -> docs (remote quietWorld) !! p_id p = None ->
                docs (remote (handleReset true true [alfie; brenda] quietWorld)) !! p_id p
                = Some (mkDoc None None "absent" None None))
  /\ (forall k, ~ In k (map p_id [alfie; brenda]) ->
                docs (remote (handleReset true true [alfie; brenda] quietWorld)) !! k
                = docs (remote quietWorld) !! k).
Proof.
  apply (handleReset_served [alfie; brenda] quietWorld). constructor.
Defined.

(** ** Uploads *)

Lemma lacks_rev (c : ascii) (s : string) : lacks c (Js.rev s) = lacks c s.
Proof.
  induction s as [|d r IH]; [reflexivity|].
  rewrite rev_cons, lacks_append, IH. cbn [lacks].
  rewrite andb_true_r. apply andb_comm.
Qed.

Lemma lacks_trimStart (c : ascii) (s : string) :
  lacks c s = true -> lacks c (Js.trimStart s) = true.
Proof.
  intros H. destruct (trimStart_split s) as (ws & Heq & _).
  rewrite Heq, lacks_append in H. now apply andb_prop in H as [_ H].
Qed.

Lemma lacks_trimEnd (c : ascii) (s : string) :
  lacks c s = true -> lacks c (Js.trimEnd s) = true.
Proof.
  intros H. destruct (trimEnd_split s) as (ws & Heq & _).
  rewrite Heq, lacks_append in H. now apply andb_prop in H as [H _].
Qed.

Lemma lacks_trim (c : ascii) (s : string) :
  lacks c s = true -> lacks c (Js.trim s) = true.
Proof. intros H. unfold Js.trim. now apply lacks_trimEnd, lacks_trimStart. Qed.

Lemma lacks_split (c sep : ascii) (s : string) :
  lacks c s = true -> Forall (fun x => lacks c x = true) (Js.split sep s).
Proof.
  induction s as [|d r IH]; intros H.
  - repeat constructor.
  - cbn [lacks] in H. apply andb_prop in H as [Hd Hr]. specialize (IH Hr).
    cbn [Js.split]. destruct (Ascii.eqb d sep).
    + constructor; [reflexivity|exact IH].
    + destruct (Js.split sep r) as [|h t].
      * constructor; [|constructor]. cbn [lacks]. now rewrite Hd.
      * inversion IH as [|? ? Hh Ht]; subst.
        constructor; [|exact Ht]. cbn [lacks]. now rewrite Hd, Hh.
Qed.

(** A line without a comma yields no entry. *)
Lemma parseLine_no_comma (acc : Parsed) (line : string) :
  lacks ","%char line = true ->
  rosterData (parseLine acc line) = rosterData acc.
Proof.
  intros H.
  assert (Hparts : cleanParts line = [Js.trim line]).
  { unfold cleanParts. rewrite (split_lacks _ line H). cbn [map List.rev app].
    destruct (Js.trim line); reflexivity. }
  unfold parseLine. rewrite Hparts.
  destruct (negb (String.eqb (Js.trim line) "")); reflexivity.
Qed.

Lemma fold_parseLine_no_comma (lines : list string) :
  forall acc, Forall (fun l => lacks ","%char l = true) lines ->
              rosterData (fold_left parseLine lines acc) = rosterData acc.
Proof.
  induction lines as [|line lines IH]; intros acc Hall; [reflexivity|].
  inversion Hall as [|? ? Hl Hrest]; subst. cbn [fold_left].
  rewrite IH by exact Hrest. now apply parseLine_no_comma.
Qed.

(** X14: a text without any comma, a list of names alone for instance,
    has no valid line: the text upload reports the no-valid-entries error
    and issues no request, so the roster in the store is untouched. *)
Theorem handleTextUpload_without_commas (confirmed : bool) (text : string)
    (ui : UploadUi) (w : World) :
  lacks ","%char text = true ->
  rosterData (parseRosterData text) = []
  /\ handleTextUpload true confirmed text ui w
     = (mkUploadUi MsgNoValidEntries (newRosterText ui) (clearTimers ui ++ [5000%Z]), w).
Proof.
  intros H.
  assert (Hnone : rosterData (parseRosterData text) = []).
  { unfold parseRosterData. rewrite fold_parseLine_no_comma; [reflexivity|].
    apply lacks_split. now apply lacks_trim. }
  split; [exact Hnone|].
  unfold handleTextUpload, executeRosterUpload. now rewrite Hnone.
Qed.

Lemma handleTextUpload_without_commas_witness :
  rosterData (parseRosterData "Alfie Johnson") = []
  /\ handleTextUpload true true "Alfie Johnson" emptyUi quietWorld
     = (mkUploadUi MsgNoValidEntries (newRosterText emptyUi)
                   (clearTimers emptyUi ++ [5000%Z]), quietWorld).
Proof.
  apply (handleTextUpload_without_commas true "Alfie Johnson" emptyUi quietWorld).
  reflexivity.
Defined.

Lemma upload_store (dataToUpload : list Entry) (errorCount : Z)
    (ui : UploadUi) (w : World) :
  dataToUpload <> [] ->
  NoDup (map entry_id dataToUpload) ->
  Forall (eq None) (faults w) ->
  uploadMessage (fst (executeRosterUpload true true dataToUpload errorCount ui w))
  = MsgUploaded (Z.of_nat (length dataToUpload)) errorCount
  /\ (forall e, In e dataToUpload ->
        exists t,
          docs (remote (snd (executeRosterUpload true true dataToUpload
                                                 errorCount ui w)))
            !! entry_id e
          = Some (mkDoc (Some (entry_id e)) (Some (entry_name e)) "absent" None
                        (Some t))
          /\ (clock (remote w) < t)%Z)
  /\ (forall k, ~ In k (map entry_id dataToUpload) ->
                docs (remote (snd (executeRosterUpload true true dataToUpload
                                                       errorCount ui w))) !! k
                = None).
Proof.
  intros Hne Hnd Hw. rewrite executeRosterUpload_served by assumption.
  cbn [fst snd uploadMessage]. split; [reflexivity|].
  rewrite servedCalls_remote. cbn [fold_left]. rewrite fold_left_app.
  set (r1 := fold_left (fun r c => commit c r)
                       (deleteCalls (map_to_list (docs (remote w))))
                       (commit CGetDocs (remote w))).
  assert (Hempty : docs r1 = ∅) by apply deletes_empty.
  assert (Hc1 : (clock (remote w) < clock r1)%Z).
  { subst r1. rewrite commits_clock. simpl. lia. }
  split.
  - intros e He. destruct (creates_store_exact dataToUpload r1 e Hnd He)
      as (t & Ht & Hb).
    exists t. split; [exact Ht|lia].
  - intros k Hk. rewrite creates_keep_others by exact Hk.
    rewrite Hempty. apply lookup_empty.
Qed.

(** X15: a confirmed upload of entries with distinct ids whose requests
    are all served replaces the roster: afterwards the collection holds,
    for every entry, a document with its id and name, absent, never
    scanned and created during the upload, and no other document; the
    message reports the number of entries and the parser's error count. *)
Theorem executeRosterUpload_replaces_roster (dataToUpload : list Entry)
    (errorCount : Z) (ui : UploadUi) (w : World) :
  dataToUpload <> [] ->
  NoDup (map entry_id dataToUpload) ->
  Forall (eq None) (faults w) ->
  uploadMessage (fst (executeRosterUpload true true dataToUpload errorCount ui w))
  = MsgUploaded (Z.of_nat (length dataToUpload)) errorCount
  /\ (forall e, In e dataToUpload ->
        exists t,
          docs (remote (snd (executeRosterUpload true true dataToUpload
                                                 errorCount ui w)))
            !! entry_id e
          = Some (mkDoc (Some (entry_id e)) (Some (entry_name e)) "absent" None
                        (Some t))
          /\ (clock (remote w) < t)%Z)
  /\ (forall k, ~ In k (map entry_id dataToUpload) ->
                docs (remote (snd (executeRosterUpload true true dataToUpload
                                                       errorCount ui w))) !! k
                = None).
Proof. exact (upload_store dataToUpload errorCount ui w). Qed.

Lemma executeRosterUpload_replaces_roster_witness :
  uploadMessage (fst (executeRosterUpload true true newcomers 0 emptyUi quietWorld))
  = MsgUploaded (Z.of_nat (length newcomers)) 0
  /\ (forall e, In e newcomers ->
        exists t,
          docs (remote (snd (executeRosterUpload true true newcomers 0 emptyUi
                                                 quietWorld)))
            !! entry_id e
          = Some (mkDoc (Some (entry_id e)) (Some (entry_name e)) "absent" None
                        (Some t))
          /\ (clock (remote quietWorld) < t)%Z)
  /\ (forall k, ~ In k (map entry_id newcomers) ->
                docs (remote (snd (executeRosterUpload true true newcomers 0 emptyUi
                                                       quietWorld))) !! k
                = None).
Proof.
  apply (executeRosterUpload_replaces_roster newcomers 0 emptyUi quietWorld).
  - discriminate.
  - apply (bool_decide_unpack _). vm_compute. exact I.
  - constructor.
Defined.

(** X16: pasting a well-formed list replaces the roster by that list.
    For entries that the format carries, with distinct ids, the text of
    their [ID,Name] lines, uploaded with confirmation and with every
    request served, leaves a collection that holds exactly these entries,
    all absent, and reports their number with zero invalid lines. *)
Theorem handleTextUpload_round_trip (entries : list Entry) (ui : UploadUi)
    (w : World) :
  entries <> [] ->
  forallb portable entries = true ->
  NoDup (map entry_id entries) ->
  Forall (eq None) (faults w) ->
  uploadMessage (fst (handleTextUpload true true (toCsv entries) ui w))
  = MsgUploaded (Z.of_nat (length entries)) 0
  /\ (forall e, In e entries ->
        exists t,
          docs (remote (snd (handleTextUpload true true (toCsv entries) ui w)))
            !! entry_id e
          = Some (mkDoc (Some (entry_id e)) (Some (entry_name e)) "absent" None
                        (Some t))
          /\ (clock (remote w) < t)%Z)
  /\ (forall k, ~ In k (map entry_id entries) ->
                docs (remote (snd (handleTextUpload true true (toCsv entries) ui w)))
                  !! k = None).
Proof.
  intros Hne Hall Hnd Hw. unfold handleTextUpload.
  rewrite (parse_csv_lines entries Hall). cbn [rosterData errorCount].
  now apply upload_store.
Qed.

Lemma handleTextUpload_round_trip_witness :
  uploadMessage (fst (handleTextUpload true true (toCsv INITIAL_ROSTER) emptyUi
                                       quietWorld))
  = MsgUploaded (Z.of_nat (length INITIAL_ROSTER)) 0
  /\ (forall e, In e INITIAL_ROSTER ->
        exists t,
          docs (remote (snd (handleTextUpload true true (toCsv INITIAL_ROSTER)
                                              emptyUi quietWorld)))
            !! entry_id e
          = Some (mkDoc (Some (entry_id e)) (Some (entry_name e)) "absent" None
                        (Some t))
          /\ (clock (remote quietWorld) < t)%Z)
  /\ (forall k, ~ In k (map entry_id INITIAL_ROSTER) ->
                docs (remote (snd (handleTextUpload true true (toCsv INITIAL_ROSTER)
                                                    emptyUi quietWorld)))
                  !! k = None).
Proof.
  apply (handleTextUpload_round_trip INITIAL_ROSTER emptyUi quietWorld).
  - discriminate.
  - vm_compute. reflexivity.
  - apply (bool_decide_unpack _). vm_compute. exact I.
  - constructor.
Defined.

(** ** Attendance toggles, further *)

(** X17: when the three attempts of the attendance write are rejected,
    the first two with a transient code, [handleScanSuccess] reports the
    failure for the attendee by name; it has issued the same merge write
    three times, waited 500 ms and 1000 ms in between, and no document has
    changed. *)
Theorem handleScanSuccess_exhausted (scannedId : string) (app : AppState)
    (w : World) (person : Attendee) (c1 c2 c3 : string)
    (rest : list (option string)) :
  db app = true ->
  find (fun q => String.eqb (p_id q) scannedId) (roster app) = Some person ->
  faults w = Some c1 :: Some c2 :: Some c3 :: rest ->
  isTransient (mkError (Some c1)) = true ->
  isTransient (mkError (Some c2)) = true ->
  let '(app', w') := handleScanSuccess scannedId app w in
  let write := CSetDoc scannedId (toggleFields (flipStatus (p_status person))) true in
  scanMessage app' = (TextFailed (p_name person), TypeError)
  /\ roster app' = roster app
  /\ docs (remote w') = docs (remote w)
  /\ issued w' = issued w ++ [write; write; write]
  /\ sleeps (retryLog w') = sleeps (retryLog w) ++ [500; 1000]%Z
  /\ faults w' = rest.
Proof.
  intros Hdb Hfind Hf Ht1 Ht2. unfold handleScanSuccess. rewrite Hdb, Hfind.
  cbn [negb]. set (f := toggleFields (flipStatus (p_status person))).
  set (write := CSetDoc scannedId f true).
  set (w1 := mkWorld (tick (remote w)) (Some c2 :: Some c3 :: rest)
                     (issued w ++ [write]) (retryLog w)).
  set (w2 := mkWorld (tick (remote w1)) (Some c3 :: rest)
                     (issued w1 ++ [write]) (retryLog w1)).
  set (w3 := mkWorld (tick (remote w2)) rest
                     (issued w2 ++ [write]) (retryLog w2)).
  assert (H1 : setDoc scannedId f true w = (Rejected (mkError (Some c1)), w1))
    by (apply setDoc_rejected; exact Hf).
  assert (H2 : setDoc scannedId f true w1 = (Rejected (mkError (Some c2)), w2))
    by (apply setDoc_rejected; reflexivity).
  assert (H3 : setDoc scannedId f true w2 = (Rejected (mkError (Some c3)), w3))
    by (apply setDoc_rejected; reflexivity).
  unfold awaitRetry, retryOperation. change (Z.to_nat 3) with 3%nat.
  rewrite (retryLoop_transient _ 3 500 2 0 w [] (mkError (Some c1)) w1)
    by (try lia; assumption).
  rewrite (retryLoop_transient _ 3 500 1 (0 + 1) w1 _ (mkError (Some c2)) w2)
    by (try lia; assumption).
  rewrite (retryLoop_last _ 3 500 0 (0 + 1 + 1) w2 _ (mkError (Some c3)) w3)
    by (try lia; assumption).
  cbn [setScanMessage scanMessage roster remote issued faults retryLog docs tick
       w1 w2 w3].
  repeat split.
  - now rewrite <- !app_assoc.
  - unfold sleeps. rewrite omap_app. reflexivity.
Qed.

Lemma handleScanSuccess_exhausted_witness :
  let '(app', w') := handleScanSuccess "RC-1001" readyApp offlineWorld in
  let write := CSetDoc "RC-1001" (toggleFields (flipStatus (p_status alfie))) true in
  scanMessage app' = (TextFailed (p_name alfie), TypeError)
  /\ roster app' = roster readyApp
  /\ docs (remote w') = docs (remote offlineWorld)
  /\ issued w' = issued offlineWorld ++ [write; write; write]
  /\ sleeps (retryLog w') = sleeps (retryLog offlineWorld) ++ [500; 1000]%Z
  /\ faults w' = [].
Proof.
  apply (handleScanSuccess_exhausted "RC-1001" readyApp offlineWorld alfie
           "unavailable" "unavailable" "unavailable" []);
    reflexivity.
Defined.

(** X18: a served toggle through either entry point changes one document
    only, the one of the attendee, and in it only the status and the last
    scan: id, name and creation time are kept, the status becomes the
    opposite of the snapshot's and the last scan the server time of the
    write; exactly one request is issued. *)
Theorem toggle_changes_only_status (how : EntryPoint) (id : string)
    (app : AppState) (w : World) (p : Attendee) (d : DocData) :
  db app = true ->
  find (fun q => String.eqb (p_id q) id) (roster app) = Some p ->
  docs (remote w) !! id = Some d ->
  noFault w ->
  docs (remote (snd (toggle how id app w))) !! id
  = Some (mkDoc (d_id d) (d_name d) (flipStatus (p_status p))
                (Some (clock (remote w))) (d_createdAt d))
  /\ (forall k, k <> id ->
                docs (remote (snd (toggle how id app w))) !! k
                = docs (remote w) !! k)
  /\ issued (snd (toggle how id app w))
     = issued w ++ [CSetDoc id (toggleFields (flipStatus (p_status p))) true].
Proof.
  intros Hdb Hfind Hd Hw.
  destruct (toggle_served how id app w p Hdb Hfind Hw) as (Hw' & _ & _).
  rewrite Hw'. cbn [afterWrite remote docs issued]. repeat split.
  - rewrite lookup_insert_eq, Hd. reflexivity.
  - intros k Hk. now rewrite lookup_insert_ne.
Qed.

Lemma toggle_changes_only_status_witness :
  docs (remote (snd (toggle ViaManual "RC-1002" readyApp quietWorld))) !! "RC-1002"
  = Some (mkDoc (d_id brendaDoc) (d_name brendaDoc) (flipStatus (p_status brenda))
                (Some (clock (remote quietWorld))) (d_createdAt brendaDoc))
  /\ (forall k, k <> "RC-1002" ->
                docs (remote (snd (toggle ViaManual "RC-1002" readyApp quietWorld))) !! k
                = docs (remote quietWorld) !! k)
  /\ issued (snd (toggle ViaManual "RC-1002" readyApp quietWorld))
     = issued quietWorld
       ++ [CSetDoc "RC-1002" (toggleFields (flipStatus (p_status brenda))) true].
Proof.
  apply (toggle_changes_only_status ViaManual "RC-1002" readyApp quietWorld
           brenda brendaDoc); first [reflexivity | exact I].
Defined.

(** X19: a toggle made on a row whose document has meanwhile been deleted
    from the store does not fail: the merge write creates a document that
    has only a status and a last scan, and the next snapshot shows an
    attendee with this id and no name. *)
Theorem toggle_recreates_deleted (how : EntryPoint) (id : string)
    (app : AppState) (w : World) (p : Attendee) :
  db app = true ->
  find (fun q => String.eqb (p_id q) id) (roster app) = Some p ->
  docs (remote w) !! id = None ->
  noFault w ->
  let '(app', w') := toggle how id app w in
  docs (remote w') !! id
  = Some (mkDoc None None (flipStatus (p_status p)) (Some (clock (remote w))) None)
  /\ find (fun q => String.eqb (p_id q) id) (roster (deliver w' app'))
     = Some (mkAttendee id None (flipStatus (p_status p))
                        (Some (clock (remote w))) None).
Proof.
  intros Hdb Hfind Hd Hw.
  destruct (toggle_served how id app w p Hdb Hfind Hw) as (Hw' & _ & _).
  destruct (toggle how id app w) as [app' w']. cbn [snd] in Hw'.
  assert (Hdoc : docs (remote w') !! id
                 = Some (mkDoc None None (flipStatus (p_status p))
                               (Some (clock (remote w))) None)).
  { rewrite Hw'. cbn [afterWrite remote docs].
    rewrite lookup_insert_eq, Hd. reflexivity. }
  split; [exact Hdoc|]. now rewrite (find_deliver id _ w' app' Hdoc).
Qed.

Lemma toggle_recreates_deleted_witness :
  let '(app', w') := toggle ViaScan "RC-1001" readyApp emptyWorld in
  docs (remote w') !! "RC-1001"
  = Some (mkDoc None None (flipStatus (p_status alfie))
                (Some (clock (remote emptyWorld))) None)
  /\ find (fun q => String.eqb (p_id q) "RC-1001") (roster (deliver w' app'))
     = Some (mkAttendee "RC-1001" None (flipStatus (p_status alfie))
                        (Some (clock (remote emptyWorld))) None).
Proof.
  apply (toggle_recreates_deleted ViaScan "RC-1001" readyApp emptyWorld alfie);
    first [reflexivity | exact I].
Defined.

(** ** The mirror, further *)

(** X20: a delivered snapshot mirrors the store: looking an id up in the
    roster gives the stored document of that id (with the document key as
    the attendee's id) or nothing when none is stored; no two attendees of
    the roster share an id, and the roster has as many attendees as the
    collection has documents. *)
Theorem deliver_mirrors_store (w : World) (app : AppState) :
  (forall id,
      find (fun q => String.eqb (p_id q) id) (roster (deliver w app))
      = (fun d => toAttendee (id, d)) <$> docs (remote w) !! id)
  /\ NoDup (map p_id (roster (deliver w app)))
  /\ length (roster (deliver w app)) = size (docs (remote w)).
Proof.
  split; [|split].
  - intros id. destruct (docs (remote w) !! id) as [d|] eqn:Hd.
    + now apply find_deliver.
    + cbn [fmap option_fmap option_map]. apply find_none_iff.
      intros q Hq Hid. unfold deliver, onSnapshotNext in Hq. cbn [roster] in Hq.
      apply in_map_iff in Hq as ([k v] & <- & Hkv).
      apply list_elem_of_In, elem_of_map_to_list in Hkv.
      cbn [toAttendee p_id fst] in Hid. subst k. congruence.
  - unfold deliver, onSnapshotNext. cbn [roster]. rewrite map_map.
    cbn [toAttendee p_id]. apply NoDup_fst_map_to_list.
  - unfold deliver, onSnapshotNext. cbn [roster]. rewrite length_map.
    apply length_map_to_list.
Qed.

Lemma handleScanSuccess_roster (scannedId : string) (app : AppState) (w : World) :
  roster (fst (handleScanSuccess scannedId app w)) = roster app.
Proof.
  unfold handleScanSuccess. destruct (db app); [|reflexivity]. cbn [negb].
  destruct (find _ (roster app)) as [person|]; [|reflexivity].
  destruct (awaitRetry _ 3 500 w) as [[v|e] w']; reflexivity.
Qed.

Lemma handleManualStatusToggle_roster (person : Attendee) (app : AppState)
    (w : World) :
  roster (fst (handleManualStatusToggle person app w)) = roster app.
Proof.
  unfold handleManualStatusToggle. destruct (db app); [|reflexivity]. cbn [negb].
  destruct (awaitRetry _ 3 500 w) as [[v|e] w']; reflexivity.
Qed.

Lemma step_roster (sys : System) (ev : Event) :
  notDelivery ev -> roster (app (step sys ev)) = roster (app sys).
Proof.
  destruct ev as [now text|resumes|person|[snapshot|error]| |]; intros Hev;
    try contradiction; cbn [step].
  - unfold onDecoded. cbv zeta.
    destruct (onScanSuccessOf (seenScanner (registered sys)) now text
                              (scannerState (session sys)))
      as [[st calls] timers].
    assert (H : forall calls a0 w0,
               roster (fst (fold_left
                              (fun aw scannedId =>
                                 handleScanSuccessOf (registered sys) scannedId
                                                     (fst aw) (snd aw))
                              calls (a0, w0))) = roster a0).
    { clear. induction calls as [|c calls IH]; intros a0 w0; [reflexivity|].
      cbn [fold_left fst snd].
      destruct (handleScanSuccessOf_keeps (registered sys) c a0 w0) as [_ Hc].
      destruct (handleScanSuccessOf (registered sys) c a0 w0) as [a1 w1].
      cbn [fst] in Hc. now rewrite IH. }
    specialize (H calls (app sys) (world sys)).
    destruct (fold_left _ calls (app sys, world sys)) as [a w0]. exact H.
  - reflexivity.
  - pose proof (handleManualStatusToggle_roster person (app sys) (world sys)) as H.
    destruct (handleManualStatusToggle person (app sys) (world sys)) as [a w0].
    exact H.
  - reflexivity.
  - reflexivity.
Qed.

(** X21: the local roster is changed by the roster subscription only.
    Over every sequence of decodes, registrations of the decode callback,
    resume timers, manual toggles and feed errors, whatever the store answers, the roster snapshot stays as it
    was: a toggle never updates the displayed status itself, it shows only
    once the listener delivers. *)
Theorem roster_changed_by_listener_only (evs : list Event) (sys : System) :
  Forall notDelivery evs ->
  roster (app (run evs sys)) = roster (app sys).
Proof.
  revert sys. induction evs as [|ev evs IH]; intros sys Hall; [reflexivity|].
  inversion Hall as [|? ? Hev Hrest]; subst. unfold run in *. cbn [fold_left].
  rewrite (IH _ Hrest). now apply step_roster.
Qed.

Lemma roster_changed_by_listener_only_witness :
  roster (app (run [Decoded 5000 "RC-1001"; ManualToggle brenda; ResumeTimer true;
                    Feed (FeedError errPermission)] freshSystem))
  = roster (app freshSystem).
Proof.
  apply (roster_changed_by_listener_only
           [Decoded 5000 "RC-1001"; ManualToggle brenda; ResumeTimer true;
            Feed (FeedError errPermission)] freshSystem).
  repeat constructor.
Defined.

(** ** The decode callback, further *)

Lemma acceptedDecodes_spaced (decodes : list (Z * string)) :
  forall last, spacedFrom last (acceptedDecodes last decodes).
Proof.
  induction decodes as [|[now text] rest IH]; intros last; [exact I|].
  cbn [acceptedDecodes]. destruct last as [t|].
  - destruct (Z.ltb_spec (now - t) 2000); [apply IH|].
    cbn [spacedFrom]. split; [assumption|apply IH].
  - cbn [spacedFrom]. split; [exact I|apply IH].
Qed.

(** X22: [scanCount] counts the accepted decodes: over every sequence of
    decodes it grows by exactly the number of decodes that were handed to
    [handleScanSuccess]; discarded decodes do not count. *)
Theorem scanCount_counts_accepted (decodes : list (Z * string)) (s : ScannerState) :
  scanCount (fst (scanAll decodes s))
  = (scanCount s + Z.of_nat (length (snd (scanAll decodes s))))%Z.
Proof.
  revert s. induction decodes as [|[now text] rest IH]; intros s.
  - simpl. lia.
  - cbn [scanAll]. unfold onScanSuccess, onScanSuccessOf.
    destruct (truthyTime (lastScanTime s)
              && (now - from_option (fun t => t) 0 (lastScanTime s) <? 2000)%Z).
    + specialize (IH s). destruct (scanAll rest s) as [s2 acc].
      cbn [fst snd map app] in *. exact IH.
    + match goal with |- context [scanAll rest ?s1] => specialize (IH s1);
        destruct (scanAll rest s1) as [s2 acc] end.
      cbn [fst snd map app scanCount] in *. rewrite IH.
      rewrite length_app. cbn [length]. lia.
Qed.

(** X23: accepted decodes are never closer than the window, provided the
    callback in use is up to date.  Over every sequence of decodes and
    replacements of the callback in which each decode reaches a callback
    that closed over the last scan time current at that moment, and with
    non-zero clock readings, each decode handed to [handleScanSuccess] comes
    at least 2000 ms after the one handed on before it, the first at least
    2000 ms after the recorded last scan. *)
Theorem accepted_decodes_spaced (evs : list ScanEvent) (seen s : ScannerState) :
  lastScanTime s <> Some 0%Z ->
  Forall clockSet evs ->
  seesCurrent evs seen s ->
  spacedFrom (lastScanTime s) (snd (scanEvents evs seen s)).
Proof.
  revert seen s.
  induction evs as [|[now text|] rest IH]; intros seen s Hs Hclock Hsees;
    [exact I| |].
  - inversion Hclock as [|? ? Hnow Hrest]; subst. cbn [clockSet] in Hnow.
    cbn [seesCurrent] in Hsees. destruct Hsees as [Heq Hsees].
    cbn [scanEvents].
    destruct (lastScanTime s) as [t|] eqn:Hlast.
    + destruct (Z.ltb_spec (now - t) 2000) as [Hlt|Hge].
      * rewrite (onScanSuccessOf_discard seen now text s t) in *
          by (auto; congruence).
        cbn [fst] in Hsees. specialize (IH seen s).
        rewrite Hlast in IH. specialize (IH Hs Hrest Hsees).
        destruct (scanEvents rest seen s) as [s2 acc]. exact IH.
      * rewrite (onScanSuccessOf_accept seen now text s) in *
          by (right; exists t; auto).
        cbn [fst] in Hsees. specialize (IH seen (acceptedState now s)).
        cbn [acceptedState lastScanTime] in IH.
        assert (Hn : Some now <> Some 0%Z) by congruence.
        specialize (IH Hn Hrest Hsees).
        destruct (scanEvents rest seen (acceptedState now s)) as [s2 acc].
        cbn [snd map app spacedFrom]. split; [exact Hge|exact IH].
    + rewrite (onScanSuccessOf_accept seen now text s) in * by (left; exact Heq).
      cbn [fst] in Hsees. specialize (IH seen (acceptedState now s)).
      cbn [acceptedState lastScanTime] in IH.
      assert (Hn : Some now <> Some 0%Z) by congruence.
      specialize (IH Hn Hrest Hsees).
      destruct (scanEvents rest seen (acceptedState now s)) as [s2 acc].
      cbn [snd map app spacedFrom]. split; [exact I|exact IH].
  - inversion Hclock as [|? ? _ Hrest]; subst.
    cbn [seesCurrent] in Hsees. cbn [scanEvents]. now apply IH.
Qed.

Lemma accepted_decodes_spaced_witness :
  spacedFrom (lastScanTime (scannerState scanningSession))
             (snd (scanEvents [Recreate; Decode 2500 "RC-1001"; Decode 3000 "RC-1002";
                               Recreate; Decode 4900 "RC-1001"; Decode 5000 "RC-1002"]
                              initialScannerState (scannerState scanningSession))).
Proof.
  apply (accepted_decodes_spaced
           [Recreate; Decode 2500 "RC-1001"; Decode 3000 "RC-1002";
            Recreate; Decode 4900 "RC-1001"; Decode 5000 "RC-1002"]
           initialScannerState (scannerState scanningSession)).
  - simpl. discriminate.
  - repeat constructor; simpl; lia.
  - simpl. repeat split.
Defined.

(** X30: the debounce as it works once the callback is replaced.  With the
    library handed the callback of the current render before each of two
    decodes of one payload, the database handle set, the payload in the
    roster and the requests served, the first decode being accepted: the
    two decodes issue one [setDoc] when the second comes less than 2000 ms
    after the first, the second decode then leaving the whole client as it
    was, and two [setDoc] otherwise. *)
Theorem debounce_when_callback_replaced (sys : System) (t1 t2 : Z)
    (payload : string) (person : Attendee) :
  t1 <> 0%Z ->
  (lastScanTime (scannerState (session sys)) = None
   \/ exists t, lastScanTime (scannerState (session sys)) = Some t
                /\ (2000 <= t1 - t)%Z) ->
  db (app sys) = true ->
  find (fun q => String.eqb (p_id q) payload) (roster (app sys)) = Some person ->
  Forall (eq None) (faults (world sys)) ->
  let write := CSetDoc payload (toggleFields (flipStatus (p_status person))) true in
  writes (world (run [Registered; Decoded t1 payload; Registered; Decoded t2 payload]
                     sys))
  = writes (world sys) ++ (if (t2 - t1 <? 2000)%Z then [write] else [write; write])
  /\ ((t2 - t1 < 2000)%Z ->
      run [Registered; Decoded t1 payload; Registered; Decoded t2 payload] sys
      = run [Registered; Decoded t1 payload; Registered] sys).
Proof.
  intros Ht1 Hfirst Hdb Hfind Hserved. cbv zeta.
  destruct (replaced_callback_two_decodes sys t1 t2 payload person
              Ht1 Hfirst Hdb Hfind Hserved) as (Honce & Hdis & Htwice).
  split; [|exact Hdis].
  destruct (Z.ltb_spec (t2 - t1) 2000) as [Hlt|Hge].
  - rewrite (Hdis Hlt), Honce. apply writes_afterWrite.
  - rewrite (Htwice Hge), !writes_afterWrite, <- app_assoc. reflexivity.
Qed.

Lemma debounce_when_callback_replaced_witness :
  let write := CSetDoc "RC-1001" (toggleFields (flipStatus (p_status alfie))) true in
  writes (world (run [Registered; Decoded 5000 "RC-1001"; Registered;
                      Decoded 5001 "RC-1001"] freshSystem))
  = writes (world freshSystem) ++ (if (5001 - 5000 <? 2000)%Z then [write]
                                   else [write; write])
  /\ ((5001 - 5000 < 2000)%Z ->
      run [Registered; Decoded 5000 "RC-1001"; Registered; Decoded 5001 "RC-1001"]
          freshSystem
      = run [Registered; Decoded 5000 "RC-1001"; Registered] freshSystem).
Proof.
  apply (debounce_when_callback_replaced freshSystem 5000 5001 "RC-1001" alfie).
  - lia.
  - left. reflexivity.
  - reflexivity.
  - reflexivity.
  - constructor.
Defined.

(** ** Camera selection, torch and badge *)

Lemma find_first_back (l : list CameraDevice) (b : CameraDevice) :
  In b l -> isBackCamera b = true ->
  exists cam, find isBackCamera l = Some cam /\ In cam l /\ isBackCamera cam = true.
Proof.
  intros Hin Hb. destruct (find isBackCamera l) as [cam|] eqn:Hfind.
  - exists cam. apply find_some in Hfind as [Hc Hcb]. auto.
  - exfalso. pose proof (find_none _ _ Hfind b Hin) as Hn. congruence.
Qed.

(** X24: when the library is loaded and the enumeration succeeds,
    [detectCameras] fails exactly when no camera was enumerated; otherwise
    it selects the id of one of the enumerated cameras: a camera that
    [isBackCamera] accepts whenever there is one, else the second camera
    when there are several, else the only camera. *)
Theorem detectCameras_choice (available : list CameraDevice) :
  match detectCameras true (Fulfilled available) with
  | inl err => available = [] /\ err = NoCamerasFound
  | inr d =>
      cameras d = available
      /\ (exists cam, In cam available /\ cam_id cam = selectedCameraId d
                      /\ ((exists b, In b available /\ isBackCamera b = true) ->
                          isBackCamera cam = true))
      /\ ((forall b, In b available -> isBackCamera b = false) ->
          selectedCameraId d
          = match available with
            | _ :: second :: _ => cam_id second
            | [only] => cam_id only
            | [] => EmptyString
            end)
  end.
Proof.
  unfold detectCameras. cbn [negb]. destruct available as [|first others]; [auto|].
  split; [reflexivity|]. cbn [cameras selectedCameraId]. split.
  - destruct (find isBackCamera (first :: others)) as [cam|] eqn:Hfind.
    + apply find_some in Hfind as [Hin Hb]. exists cam. auto.
    + destruct others as [|second rest].
      * exists first. split; [now left|]. split; [reflexivity|].
        intros (b & Hb & Hbb). pose proof (find_none _ _ Hfind b Hb). congruence.
      * exists second. split; [right; now left|]. split; [reflexivity|].
        intros (b & Hb & Hbb). pose proof (find_none _ _ Hfind b Hb). congruence.
  - intros Hnone. destruct (find isBackCamera (first :: others)) as [cam|] eqn:Hfind.
    + apply find_some in Hfind as [Hin Hb]. rewrite (Hnone cam Hin) in Hb.
      discriminate.
    + destruct others; reflexivity.
Qed.

(** X25: [toggleFlash] never changes the status badge: in a session that
    is not running it does nothing, with a torch it only flips [flashOn],
    and without torch support it records the not-supported message while
    the badge stays what it was (initializing, active or processing),
    never the error badge; the recorded last scan and the scan count are
    kept in every case. *)
Theorem toggleFlash_keeps_badge (torchSupported : Settled bool)
    (torchSet : Settled unit) (s : Session) :
  renderStatusIndicator (scannerState (toggleFlash torchSupported torchSet s))
  = renderStatusIndicator (scannerState s)
  /\ lastScanTime (scannerState (toggleFlash torchSupported torchSet s))
     = lastScanTime (scannerState s)
  /\ scanCount (scannerState (toggleFlash torchSupported torchSet s))
     = scanCount (scannerState s)
  /\ decodeLoopRuns (toggleFlash torchSupported torchSet s) = decodeLoopRuns s.
Proof.
  unfold toggleFlash, decodeLoopRuns.
  destruct (html5QrCodeRef s) as [qr|] eqn:Href; [|now rewrite Href].
  destruct (isRunning (scannerState s)) eqn:Hrun; cbn [negb];
    [|now rewrite Href].
  destruct torchSupported as [[|]|e]; [destruct torchSet as [u|e]| |];
    cbn [scannerState html5QrCodeRef]; rewrite ?Href;
    unfold renderStatusIndicator;
    cbn [isInitializing isRunning isPaused error lastScanTime scanCount];
    rewrite ?Hrun; repeat split.
  destruct (isInitializing (scannerState s)); [reflexivity|].
  destruct (isPaused (scannerState s)); reflexivity.
Qed.

(** X26: toggling the flash twice, the torch being supported and set both
    times, gives back the session as it was; one such toggle flips
    [flashOn] exactly when the session has a scanner and is running. *)
Theorem toggleFlash_twice (s : Session) :
  toggleFlash (Fulfilled true) (Fulfilled tt)
              (toggleFlash (Fulfilled true) (Fulfilled tt) s) = s
  /\ flashOn (scannerState (toggleFlash (Fulfilled true) (Fulfilled tt) s))
     = if match html5QrCodeRef s with Some _ => true | None => false end
          && isRunning (scannerState s)
       then negb (flashOn (scannerState s))
       else flashOn (scannerState s).
Proof.
  destruct s as [[init running paused perm err last count flash] [qr|]];
    destruct running, flash; split; reflexivity.
Qed.

Lemma toLowerCase_append (a b : string) :
  toLowerCase (a +:+ b) = toLowerCase a +:+ toLowerCase b.
Proof.
  induction a as [|c a IH]; [reflexivity|].
  rewrite append_cons. cbn [toLowerCase]. now rewrite IH, append_cons.
Qed.

Lemma prefix_append (p b : string) : String.prefix p (p +:+ b) = true.
Proof.
  induction p as [|c p IH].
  - rewrite append_empty_l. destruct b; reflexivity.
  - rewrite append_cons. cbn [String.prefix].
    destruct (ascii_dec c c); [exact IH|contradiction].
Qed.

Lemma includes_prefix (s p : string) :
  String.prefix p s = true -> includes s p = true.
Proof. intros H. destruct s; cbn [includes]; now rewrite H. Qed.

Lemma includes_append (a p b : string) : includes (a +:+ p +:+ b) p = true.
Proof.
  induction a as [|c a IH].
  - rewrite append_empty_l. apply includes_prefix, prefix_append.
  - rewrite append_cons. cbn [includes]. rewrite IH. apply orb_true_r.
Qed.

(** X27: the back-camera test ignores letter case and position: a camera
    whose label contains, anywhere, a spelling of [back], [rear] or
    [environment] in any mix of upper and lower case is taken for a back
    camera, and an enumeration that contains such a camera never selects a
    camera that is not one. *)
Theorem isBackCamera_any_case (id before word after : string)
    (others1 others2 : list CameraDevice) :
  (toLowerCase word = "back" \/ toLowerCase word = "rear"
   \/ toLowerCase word = "environment") ->
  let camera := mkCamera id (before +:+ word +:+ after) in
  isBackCamera camera = true
  /\ match detectCameras true (Fulfilled (others1 ++ camera :: others2)) with
     | inl _ => False
     | inr d => exists cam, In cam (others1 ++ camera :: others2)
                            /\ cam_id cam = selectedCameraId d
                            /\ isBackCamera cam = true
     end.
Proof.
  intros Hword camera.
  assert (Hback : isBackCamera camera = true).
  { unfold isBackCamera, camera. cbn [cam_label]. apply andb_true_intro. split.
    - destruct before as [|c r]; [|reflexivity]. rewrite append_empty_l.
      destruct word as [|c r]; [|reflexivity].
      destruct Hword as [H|[H|H]]; discriminate H.
    - rewrite !toLowerCase_append.
      destruct Hword as [H|[H|H]]; rewrite H, includes_append;
        rewrite ?orb_true_r; reflexivity. }
  split; [exact Hback|]. unfold detectCameras. cbn [negb].
  destruct (others1 ++ camera :: others2) as [|first others] eqn:Hl.
  { destruct others1; discriminate Hl. }
  cbn [selectedCameraId].
  destruct (find_first_back (first :: others) camera) as (cam & Hfind & Hin & Hcam).
  - rewrite <- Hl. apply in_or_app. right. now left.
  - exact Hback.
  - rewrite Hfind. exists cam. auto.
Qed.

Lemma isBackCamera_any_case_witness :
  let camera := mkCamera "cam-1" ("" +:+ "BACK" +:+ " Camera 0") in
  isBackCamera camera = true
  /\ match detectCameras true
             (Fulfilled ([mkCamera "cam-0" "Front Camera"] ++ camera :: [])) with
     | inl _ => False
     | inr d => exists cam, In cam ([mkCamera "cam-0" "Front Camera"] ++ camera :: [])
                            /\ cam_id cam = selectedCameraId d
                            /\ isBackCamera cam = true
     end.
Proof.
  apply (isBackCamera_any_case "cam-1" "" "BACK" " Camera 0"
           [mkCamera "cam-0" "Front Camera"] []).
  left. reflexivity.
Defined.

(** ** Reset as the table shows it *)

Lemma resets_all_absent (rows : list Attendee) (r : Remote) (k : string)
    (d : DocData) :
  (forall k, is_Some (docs r !! k) -> In k (map p_id rows)) ->
  docs (fold_left (fun r c => commit c r) (resetCalls rows) r) !! k = Some d ->
  d_status d = "absent" /\ d_lastScan d = None.
Proof.
  intros Hcover Hd.
  destruct (in_dec string_dec k (map p_id rows)) as [Hin|Hnot].
  - rewrite (resets_store rows r k Hin) in Hd. inversion Hd; subst d.
    destruct (docs r !! k); split; reflexivity.
  - rewrite (resets_keep_others rows r k Hnot) in Hd.
    exfalso. apply Hnot, Hcover. rewrite Hd. eauto.
Qed.

(** X28: after a reset the table shows nobody present.  When every
    stored document has a row in the table, a confirmed reset whose writes
    are all served, once delivered by the listener, leaves a roster in
    which every attendee is absent with no last scan, so the attendance
    counter reads zero. *)
Theorem reset_leaves_nobody_present (rows : list Attendee) (app : AppState)
    (w : World) :
  Forall (eq None) (faults w) ->
  (forall k, is_Some (docs (remote w) !! k) -> In k (map p_id rows)) ->
  let w' := handleReset true true rows w in
  Forall (fun p => p_status p = "absent" /\ p_lastScan p = None)
         (roster (deliver w' app))
  /\ presentCount (roster (deliver w' app)) = 0%Z.
Proof.
  intros Hw Hcover w'.
  assert (Hall : Forall (fun p => p_status p = "absent" /\ p_lastScan p = None)
                        (roster (deliver w' app))).
  { unfold deliver, onSnapshotNext. cbn [roster]. apply Forall_forall.
    intros p Hp. apply list_elem_of_In, in_map_iff in Hp as ([k d] & <- & Hkd).
    apply list_elem_of_In, elem_of_map_to_list in Hkd.
    subst w'. rewrite (handleReset_remote rows w Hw) in Hkd.
    cbn [toAttendee p_status p_lastScan snd].
    now apply (resets_all_absent rows (remote w) k d). }
  split; [exact Hall|]. unfold presentCount.
  induction Hall as [|p l [Hp _] _ IH]; [reflexivity|].
  cbn [List.filter]. rewrite Hp. exact IH.
Qed.

Lemma reset_leaves_nobody_present_witness :
  let w' := handleReset true true [brenda; alfie] quietWorld in
  Forall (fun p => p_status p = "absent" /\ p_lastScan p = None)
         (roster (deliver w' readyApp))
  /\ presentCount (roster (deliver w' readyApp)) = 0%Z.
Proof.
  apply (reset_leaves_nobody_present [brenda; alfie] readyApp quietWorld).
  - constructor.
  - intros k [d Hd].
    destruct (decide (k = "RC-1001")) as [->|Hne1]; [right; now left|].
    destruct (decide (k = "RC-1002")) as [->|Hne2]; [now left|].
    unfold quietWorld, smallRemote in Hd. cbn [remote docs] in Hd.
    rewrite lookup_insert_ne in Hd by congruence.
    rewrite lookup_insert_ne in Hd by congruence.
    rewrite lookup_empty in Hd. discriminate.
Defined.

(** ** Pause flag *)

(** X29: the pause flag is display only.  After an accepted decode whose
    resume timer fails to resume the scanner (or finds none), the session
    stays flagged as paused and, once initialized, shows the processing
    badge; the decode callback does not consult the flag, so a decode that
    arrives 2000 ms or more later is accepted all the same. *)
Theorem paused_session_still_scans (s : Session) (t1 t2 : Z) (p1 p2 : string) :
  isInitializing (scannerState s) = false ->
  t1 <> 0%Z ->
  (lastScanTime (scannerState s) = None
   \/ exists t, lastScanTime (scannerState s) = Some t /\ (2000 <= t1 - t)%Z) ->
  (2000 <= t2 - t1)%Z ->
  let s1 := mkSession (fst (fst (onScanSuccess t1 p1 (scannerState s))))
                      (html5QrCodeRef s) in
  let s2 := onResumeTimer false s1 in
  isPaused (scannerState s2) = true
  /\ renderStatusIndicator (scannerState s2) = Some PROCESSING
  /\ snd (fst (onScanSuccess t2 p2 (scannerState s2))) = [p2].
Proof.
  intros Hinit Ht1 Hfirst Hge.
  assert (Hs : onScanSuccess t1 p1 (scannerState s)
               = (acceptedState t1 (scannerState s), [p1], [3000%Z])).
  { destruct Hfirst as [Hnone|[t [Hlast Hold]]].
    - now apply onScanSuccess_first.
    - now apply (onScanSuccess_accept t1 p1 _ t). }
  rewrite Hs. cbn [fst]. cbv zeta.
  assert (Hs2 : onResumeTimer false
                  (mkSession (acceptedState t1 (scannerState s)) (html5QrCodeRef s))
                = mkSession (acceptedState t1 (scannerState s)) (html5QrCodeRef s)).
  { unfold onResumeTimer. cbn [html5QrCodeRef].
    destruct (html5QrCodeRef s); reflexivity. }
  rewrite Hs2. cbn [scannerState]. split; [reflexivity|]. split.
  - unfold renderStatusIndicator, acceptedState.
    cbn [isInitializing isRunning isPaused]. rewrite Hinit.
    now rewrite andb_false_r.
  - now rewrite (onScanSuccess_accept t2 p2 (acceptedState t1 (scannerState s)) t1).
Qed.

Lemma paused_session_still_scans_witness :
  let s1 := mkSession (fst (fst (onScanSuccess 5000 "RC-1001"
                                               (scannerState freshSession))))
                      (html5QrCodeRef freshSession) in
  let s2 := onResumeTimer false s1 in
  isPaused (scannerState s2) = true
  /\ renderStatusIndicator (scannerState s2) = Some PROCESSING
  /\ snd (fst (onScanSuccess 7000 "RC-1002" (scannerState s2))) = ["RC-1002"].
Proof.
  apply (paused_session_still_scans freshSession 5000 7000 "RC-1001" "RC-1002").
  - reflexivity.
  - lia.
  - left. reflexivity.
  - lia.
Defined.
